(** * pnut: the chart data store and the grouped-series engine

    A shallow embedding of [src/chartdata/ChartData.js], of the
    [GroupedSeries] constructor and of the [normalizeToPercentage]
    preprocessing step, together with the properties the specification
    states about them.

    A JavaScript number is embedded as a rational, [+Infinity],
    [-Infinity] or [NaN].  Comparison, negation, [Math.floor] and the
    arithmetic of the infinities and of [NaN] are computed; the sum, the
    product and the quotient of two finite numbers are those of the
    host's IEEE 754 doubles, which round and overflow, and are taken from
    the host together with [Array.prototype.sort].  The sign of zero is
    outside the model.  Immutable.js collections are embedded as lists
    (List, OrderedMap, the result of groupBy) and as finite maps (Map);
    mutable JavaScript objects ([_memos], the console,
    [series.preprocess]) are threaded explicitly. *)

From Stdlib Require Import QArith Qround ZArith String Ascii DecimalString Lqa.
From Stdlib Require Import Permutation Sorted.
From stdpp Require Import gmap strings list fin_maps.

Open Scope string_scope.
Open Scope list_scope.

(** ** JavaScript values *)

Module JS.

(** The number type. *)
Inductive number :=
| Fin (q : Q)
| PosInf
| NegInf
| NaN.

(** Dynamically typed values; an object is known by its reference only. *)
Inductive jsval :=
| JUndefined
| JNull
| JBool (b : bool)
| JNum (n : number)
| JStr (s : string)
| JObject (ref : positive).

Definition typeof (v : jsval) : string :=
  match v with
  | JUndefined => "undefined"
  | JNull => "object"
  | JBool _ => "boolean"
  | JNum _ => "number"
  | JStr _ => "string"
  | JObject _ => "object"
  end.

(** [a == b], [a < b], [a > b] on numbers: every comparison with NaN is false. *)
Definition num_eq (a b : number) : bool :=
  match a, b with
  | Fin x, Fin y => Qeq_bool x y
  | PosInf, PosInf => true
  | NegInf, NegInf => true
  | _, _ => false
  end.

Definition Qlt_bool (x y : Q) : bool := Qle_bool x y && negb (Qeq_bool x y).

Definition num_lt (a b : number) : bool :=
  match a, b with
  | Fin x, Fin y => Qlt_bool x y
  | NegInf, Fin _ | NegInf, PosInf | Fin _, PosInf => true
  | _, _ => false
  end.

Definition num_gt (a b : number) : bool := num_lt b a.

Definition num_neg (a : number) : number :=
  match a with
  | Fin x => Fin (- x)
  | PosInf => NegInf
  | NegInf => PosInf
  | NaN => NaN
  end.

(** The sign of a number, for products and quotients with infinities. *)
Definition num_sign (a : number) : comparison :=
  match a with
  | Fin x => 0 ?= x
  | PosInf => Lt
  | NegInf => Gt
  | NaN => Eq
  end%Q.

Definition signed_inf (s1 s2 : comparison) : number :=
  match s1, s2 with
  | Eq, _ | _, Eq => NaN
  | Lt, Lt | Gt, Gt => PosInf
  | _, _ => NegInf
  end.

(** [Math.floor], [Math.ceil] and [Math.round] (which rounds halves up). *)
Definition Math_floor (a : number) : number :=
  match a with Fin x => Fin (inject_Z (Qfloor x)) | _ => a end.

Definition Math_ceil (a : number) : number :=
  match a with Fin x => Fin (inject_Z (Qceiling x)) | _ => a end.

Definition Math_round (a : number) : number :=
  match a with Fin x => Fin (inject_Z (Qfloor (x + (1 # 2)))) | _ => a end.

(** Truthiness, as tested by [if], [||], [&&] and [!]. *)
Definition truthy (v : jsval) : bool :=
  match v with
  | JUndefined | JNull => false
  | JBool b => b
  | JNum (Fin x) => negb (Qeq_bool x 0)
  | JNum NaN => false
  | JNum _ => true
  | JStr s => negb (String.eqb s "")
  | JObject _ => true
  end.

(** [v == null]: true of [null] and [undefined] only. *)
Definition eq_null (v : jsval) : bool :=
  match v with JUndefined | JNull => true | _ => false end.

(** [Immutable.is] on the values above: value equality, NaN equal to
    itself, objects by reference. *)
Definition Immutable_is (a b : jsval) : bool :=
  match a, b with
  | JUndefined, JUndefined => true
  | JNull, JNull => true
  | JBool x, JBool y => Bool.eqb x y
  | JNum NaN, JNum NaN => true
  | JNum x, JNum y => num_eq x y
  | JStr x, JStr y => String.eqb x y
  | JObject x, JObject y => Pos.eqb x y
  | _, _ => false
  end.

(** Insertion-ordered maps with string keys, Immutable's [OrderedMap]
    and JavaScript's [Map]: [set] overwrites in place or appends,
    iteration is in insertion order. *)
Fixpoint OrderedMap_set {V} (k : string) (v : V) (m : list (string * V))
  : list (string * V) :=
  match m with
  | [] => [(k, v)]
  | (k', v') :: rest =>
      if String.eqb k' k then (k', v) :: rest
      else (k', v') :: OrderedMap_set k v rest
  end.

Fixpoint OrderedMap_get {V} (m : list (string * V)) (k : string) : option V :=
  match m with
  | [] => None
  | (k', v') :: rest => if String.eqb k' k then Some v' else OrderedMap_get rest k
  end.

(** *** Comparators

    What [Array.prototype.sort] makes of the number a comparator
    returns: [a] goes before [b] when it is negative, after [b] when it
    is positive, and the two are tied when it is zero or [NaN]. *)
Section Comparator.
Context {A : Type}.
Variable compare : A -> A -> number.

Definition before (a b : A) : Prop := num_lt (compare a b) (Fin 0) = true.

Definition after (a b : A) : Prop := num_gt (compare a b) (Fin 0) = true.

Definition tied (a b : A) : Prop := ~ before a b /\ ~ after a b.

(** A consistent comparator for a set of values, as ECMAScript defines
    it: ties are reflexive, symmetric and transitive, "before" and
    "after" are transitive.  (That a call always returns the same number
    holds of every function of the model.) *)
Definition consistent (values : A -> Prop) : Prop :=
  (forall a, values a -> tied a a)
  /\ (forall a b, values a -> values b -> tied a b -> tied b a)
  /\ (forall a b c, values a -> values b -> values c ->
       tied a b -> tied b c -> tied a c)
  /\ (forall a b c, values a -> values b -> values c ->
       before a b -> before b c -> before a c)
  /\ (forall a b c, values a -> values b -> values c ->
       after a b -> after b c -> after a c).

(** A list is in order when no element stands before one that goes
    before it. *)
Definition in_order (l : list A) : Prop :=
  StronglySorted (fun a b => ~ before b a) l.

End Comparator.

(** The stable sort by insertion: an element goes before the first one
    it compares below. *)
Fixpoint sort_insert {A} (compare : A -> A -> number) (x : A) (l : list A) : list A :=
  match l with
  | [] => [x]
  | y :: rest =>
      if num_lt (compare x y) (Fin 0) then x :: l
      else y :: sort_insert compare x rest
  end.

Definition stable_sort {A} (compare : A -> A -> number) (l : list A) : list A :=
  fold_left (fun sorted x => sort_insert compare x sorted) l [].

(** [Object.entries] of an object used as a dictionary: keys that are
    array indices come first, in ascending numeric order, then the other
    keys in the order they were created. *)
Definition digit_of (c : ascii) : option N :=
  let n := N_of_ascii c in
  if ((48 <=? n) && (n <=? 57))%N then Some (n - 48)%N else None.

Fixpoint digits_value (s : string) (acc : N) : option N :=
  match s with
  | EmptyString => Some acc
  | String c rest =>
      match digit_of c with
      | Some d => digits_value rest (10 * acc + d)%N
      | None => None
      end
  end.

Definition array_index (s : string) : option N :=
  match s with
  | EmptyString => None
  | String "0" EmptyString => Some 0%N
  | String "0" _ => None
  | _ =>
      match digits_value s 0%N with
      | Some n => if (n <? 4294967295)%N then Some n else None
      | None => None
      end
  end.

Definition index_order {V} (a b : string * V) : number :=
  match array_index (fst a), array_index (fst b) with
  | Some m, Some n => Fin (inject_Z (Z.of_N m - Z.of_N n))
  | _, _ => Fin 0
  end.

Definition Object_entries {V} (o : list (string * V)) : list (string * V) :=
  stable_sort index_order
       (List.filter (fun kv => match array_index (fst kv) with Some _ => true | None => false end) o)
  ++ List.filter (fun kv => match array_index (fst kv) with Some _ => false | None => true end) o.

(** The members of [Object.prototype], which every plain object
    inherits: reading one of these names from an object that has no
    property of its own under it gives a function (for [__proto__], the
    prototype object). *)
Definition Object_prototype : list string :=
  [ "constructor"; "hasOwnProperty"; "isPrototypeOf"; "propertyIsEnumerable";
    "toLocaleString"; "toString"; "valueOf"; "__proto__";
    "__defineGetter__"; "__defineSetter__"; "__lookupGetter__"; "__lookupSetter__" ].

Definition inherited (key : string) : bool :=
  existsb (String.eqb key) Object_prototype.

(** *** The host

    What the embedding takes from the host.  The conversions between
    numbers and strings.  The arithmetic of IEEE 754 doubles on two
    finite numbers, whose result is rounded and can be infinite; of it
    the model uses one fact: a double that is not negative, minus its
    floor, is computed exactly.  [Array.prototype.sort], whose result has
    the elements of the array and, for a comparator consistent on them,
    is in order; for other comparators the order is the implementation's.
    The [immutable-math] reducers that [ChartData] looks up by name. *)
Inductive operation := Min | Max | Sum | Average | Median.

Definition operation_name (op : operation) : string :=
  match op with
  | Min => "min"
  | Max => "max"
  | Sum => "sum"
  | Average => "average"
  | Median => "median"
  end.

Class Host := {
  number_to_string : number -> string;
  string_to_number : string -> number;
  float_add : Q -> Q -> number;
  float_mul : Q -> Q -> number;
  float_div : Q -> Q -> number;
  float_sub_floor :
    forall x : Q, (0 <= x)%Q ->
    float_add x (- inject_Z (Qfloor x)) = Fin (x - inject_Z (Qfloor x));
  Array_sort : forall A : Type, (A -> A -> number) -> list A -> list A;
  Array_sort_Permutation :
    forall (A : Type) (compare : A -> A -> number) (l : list A),
    Permutation (Array_sort A compare l) l;
  Array_sort_in_order :
    forall (A : Type) (compare : A -> A -> number) (l : list A),
    consistent compare (fun a => In a l) -> in_order compare (Array_sort A compare l);
  ImmutableMath : operation -> list jsval -> jsval
}.
Arguments Array_sort {_ A} compare l.

Section Conversions.
Context `{Host}.

(** [a + b], [a - b], [a * b] and [a / b] on numbers. *)
Definition num_add (a b : number) : number :=
  match a, b with
  | NaN, _ | _, NaN => NaN
  | Fin x, Fin y => float_add x y
  | PosInf, NegInf | NegInf, PosInf => NaN
  | PosInf, _ | _, PosInf => PosInf
  | NegInf, _ | _, NegInf => NegInf
  end.

Definition num_sub (a b : number) : number := num_add a (num_neg b).

Definition num_mul (a b : number) : number :=
  match a, b with
  | NaN, _ | _, NaN => NaN
  | Fin x, Fin y => float_mul x y
  | _, _ => signed_inf (num_sign a) (num_sign b)
  end.

Definition num_div (a b : number) : number :=
  match a, b with
  | NaN, _ | _, NaN => NaN
  | Fin x, Fin y =>
      if Qeq_bool y 0 then signed_inf (num_sign a) Lt else float_div x y
  | Fin _, _ => Fin 0
  | _, Fin _ =>
      signed_inf (num_sign a) (match num_sign b with Eq => Lt | s => s end)
  | _, _ => NaN
  end.

(** [String(v)], also the conversion applied by [+] and by template
    strings.  Objects are plain objects. *)
Definition ToString (v : jsval) : string :=
  match v with
  | JUndefined => "undefined"
  | JNull => "null"
  | JBool true => "true"
  | JBool false => "false"
  | JNum n => number_to_string n
  | JStr s => s
  | JObject _ => "[object Object]"
  end.

Definition ToNumber (v : jsval) : number :=
  match v with
  | JUndefined => NaN
  | JNull => Fin 0
  | JBool true => Fin 1
  | JBool false => Fin 0
  | JNum n => n
  | JStr s => string_to_number s
  | JObject _ => NaN
  end.

(** The global [isNaN], which converts its argument to a number. *)
Definition isNaN (v : jsval) : bool :=
  match ToNumber v with NaN => true | _ => false end.

(** [a + b]: concatenation as soon as one side is a string (or an
    object, whose primitive is a string). *)
Definition js_add (a b : jsval) : jsval :=
  match a, b with
  | JStr _, _ | _, JStr _ | JObject _, _ | _, JObject _ =>
      JStr (ToString a +:+ ToString b)
  | _, _ => JNum (num_add (ToNumber a) (ToNumber b))
  end.

Definition js_div (a b : jsval) : jsval :=
  JNum (num_div (ToNumber a) (ToNumber b)).

(** [a > b] and [a < b]: each side is first made a primitive, an
    object becoming its string; two strings compare as strings, anything
    else as numbers. *)
Definition ToPrimitive (v : jsval) : jsval :=
  match v with
  | JObject _ => JStr (ToString v)
  | _ => v
  end.

Definition js_gt (a b : jsval) : bool :=
  match ToPrimitive a, ToPrimitive b with
  | JStr x, JStr y => match String.compare x y with Gt => true | _ => false end
  | _, _ => num_gt (ToNumber a) (ToNumber b)
  end.

Definition js_lt (a b : jsval) : bool :=
  match ToPrimitive a, ToPrimitive b with
  | JStr x, JStr y => match String.compare x y with Lt => true | _ => false end
  | _, _ => num_lt (ToNumber a) (ToNumber b)
  end.
End Conversions.

(** [a || b] on values. *)
Definition js_or (a b : jsval) : jsval := if truthy a then a else b.

(** A host to run the model on examples: integers print and parse as
    decimal numerals (a fraction is shown as [p/q], which no example
    relies on); the arithmetic is exact, as that of doubles is on the
    numbers of the examples, none of which needs more than a few binary
    digits; the sort is the stable sort; and the [immutable-math]
    reducers are the usual ones on numeric data: [sum] folds [+] from
    [0], [min] and [max] are [undefined] on an empty collection,
    [average] divides the sum by the count, [median] takes the middle of
    the sorted values. *)
Module ReferenceHost.

Definition number_to_string (n : number) : string :=
  match n with
  | Fin q =>
      let r := Qred q in
      if (Zpos (Qden r) =? 1)%Z then NilZero.string_of_int (Z.to_int (Qnum r))
      else NilZero.string_of_int (Z.to_int (Qnum r)) +:+ "/"
           +:+ NilZero.string_of_int (Z.to_int (Zpos (Qden r)))
  | PosInf => "Infinity"
  | NegInf => "-Infinity"
  | NaN => "NaN"
  end.

Definition string_to_number (s : string) : number :=
  if String.eqb s "" then Fin 0
  else
    match NilZero.int_of_string s with
    | Some i => Fin (inject_Z (Z.of_int i))
    | None => NaN
    end.

(** The host with given reducers.  Its sort is the stable sort, which
    returns the elements it is given and, for a consistent comparator,
    returns them in order: "before" is then a strict order. *)
Definition with_reducers (reducers : operation -> list jsval -> jsval) : Host.
Proof.
  assert (Hinsert : forall (A : Type) (compare : A -> A -> number) x l,
            Permutation (sort_insert compare x l) (x :: l)).
  { intros A compare x l. induction l as [| y l IH]; simpl; [reflexivity |].
    destruct (num_lt (compare x y) (Fin 0)); [reflexivity |].
    rewrite IH. apply perm_swap. }
  assert (Hfold : forall (A : Type) (compare : A -> A -> number) l acc,
            Permutation
              (fold_left (fun sorted x => sort_insert compare x sorted) l acc)
              (acc ++ l)).
  { intros A compare l. induction l as [| x l IH]; intros acc; simpl.
    - now rewrite app_nil_r.
    - rewrite IH, Hinsert. simpl. apply Permutation_middle. }
  refine {| JS.number_to_string := number_to_string;
            JS.string_to_number := string_to_number;
            JS.float_add := fun x y => Fin (x + y);
            JS.float_mul := fun x y => Fin (x * y);
            JS.float_div := fun x y => Fin (x / y);
            JS.float_sub_floor := fun x _ => eq_refl;
            JS.Array_sort := @stable_sort;
            JS.Array_sort_Permutation := fun A compare l => Hfold A compare l [];
            JS.Array_sort_in_order := _;
            JS.ImmutableMath := reducers |}.
  intros A compare l (Hrefl & _ & _ & Htrans & _).
  assert (Hasym : forall a b, In a l -> In b l ->
            before compare a b -> ~ before compare b a).
  { intros a b Ha Hb Hab Hba. destruct (Hrefl a Ha) as [Hnot _]. apply Hnot.
    exact (Htrans a b a Ha Hb Ha Hab Hba). }
  assert (Hstep : forall x sorted,
            In x l -> List.Forall (fun a => In a l) sorted ->
            in_order compare sorted ->
            in_order compare (sort_insert compare x sorted)).
  { intros x sorted Hx Hsorted. unfold in_order.
    induction 1 as [| y sorted Hord IH Hy]; simpl.
    - constructor; [constructor | constructor].
    - apply List.Forall_cons_iff in Hsorted. destruct Hsorted as [Hvy Hsorted].
      destruct (num_lt (compare x y) (Fin 0)) eqn:E.
      + constructor; [now constructor |].
        constructor; [now apply Hasym |].
        rewrite List.Forall_forall in Hy, Hsorted |- *. intros z Hz Hzx.
        apply (Hy z Hz). exact (Htrans z x y (Hsorted z Hz) Hx Hvy Hzx E).
      + constructor; [now apply IH |].
        rewrite List.Forall_forall in Hy |- *. intros z Hz.
        apply (Permutation_in _ (Hinsert A compare x sorted)) in Hz.
        destruct Hz as [<- | Hz].
        * unfold before. congruence.
        * now apply Hy. }
  unfold stable_sort.
  assert (Hacc : forall todo acc,
            (forall a, In a todo -> In a l) -> List.Forall (fun a => In a l) acc ->
            in_order compare acc ->
            in_order compare
              (fold_left (fun sorted x => sort_insert compare x sorted) todo acc)).
  { induction todo as [| x todo IH]; intros acc Hsub Hacc Hord; simpl; [exact Hord |].
    apply IH.
    - intros a Ha. apply Hsub. now right.
    - rewrite List.Forall_forall in Hacc |- *. intros z Hz.
      apply (Permutation_in _ (Hinsert A compare x acc)) in Hz.
      destruct Hz as [<- | Hz]; [apply Hsub; now left | now apply Hacc].
    - apply Hstep; [apply Hsub; now left | exact Hacc | exact Hord]. }
  apply Hacc; [trivial | constructor | constructor].
Defined.

#[local] Instance conversions_only : Host := with_reducers (fun _ _ => JUndefined).

Definition sum (input : list jsval) : jsval :=
  fold_left js_add input (JNum (Fin 0)).

Definition least (lt : jsval -> jsval -> bool) (input : list jsval) : jsval :=
  match input with
  | [] => JUndefined
  | x :: rest => fold_left (fun m y => if lt y m then y else m) rest x
  end.

Fixpoint insert_sorted (x : jsval) (l : list jsval) : list jsval :=
  match l with
  | [] => [x]
  | y :: rest => if js_lt x y then x :: l else y :: insert_sorted x rest
  end.

Definition median (input : list jsval) : jsval :=
  let sorted := fold_right insert_sorted [] input in
  let n := length sorted in
  if (n =? 0)%nat then JNum NaN
  else if Nat.odd n then nth (n / 2) sorted JUndefined
  else js_div (js_add (nth (n / 2 - 1) sorted JUndefined) (nth (n / 2) sorted JUndefined))
              (JNum (Fin 2)).

Definition ImmutableMath (op : operation) (input : list jsval) : jsval :=
  match op with
  | Sum => sum input
  | Min => least js_lt input
  | Max => least js_gt input
  | Average => js_div (sum input) (JNum (Fin (inject_Z (Z.of_nat (length input)))))
  | Median => median input
  end.

#[export] Instance host : Host := with_reducers ImmutableMath.

End ReferenceHost.

End JS.

(** ** The chart data store: [src/chartdata/ChartData.js] *)

Module ChartData.
Import JS.

(** A row is an Immutable [Map] from column keys to cells; a row
    definition (a plain object or a [Map]) has the same shape, with cells
    of any type. *)
Abbreviation ChartRow := (gmap string jsval).

(** [row.get(key)]: [undefined] where the key is absent. *)
Definition get (row : ChartRow) (key : string) : jsval :=
  default JUndefined (row !! key).

(** A column definition as passed to the constructor; [isContinuous] is
    optional. *)
Record ChartColumnDefinition := {
  def_key : string;
  def_label : string;
  def_isContinuous : option bool
}.

(** Modelled from the spec: the [ChartColumn] record of [./ChartColumn],
    which is not among the sources: [{ key: string, label: string,
    isContinuous: boolean }], built from a definition whose
    [isContinuous] has been filled in. *)
Record ChartColumn := {
  key : string;
  label : string;
  isContinuous : bool
}.

Definition Column (col : ChartColumnDefinition) : ChartColumn :=
  {| key := def_key col;
     label := def_label col;
     isContinuous := default false (def_isContinuous col) |}.

(** The record part of a [ChartData]: its two immutable fields. *)
Record t := {
  rows : list ChartRow;
  columns : list (string * ChartColumn)
}.

Definition isValueValid (value : jsval) : bool :=
  String.eqb (typeof value) "string"
  || String.eqb (typeof value) "number"
  || match value with JNull => true | _ => false end.

Definition isValueContinuous (value : jsval) : bool :=
  String.eqb (typeof value) "number".

Definition _createRows (rows : list ChartRow) : list ChartRow :=
  map (fun row : ChartRow =>
         (fun cell => if isValueValid cell then cell else JNull) <$> row)
      rows.

(** [rows.find(pred, null, Map())]: the first row satisfying [pred], the
    empty map when there is none. *)
Definition find_row (pred : ChartRow -> bool) (rows : list ChartRow) : ChartRow :=
  default ∅ (List.find pred rows).

Definition _addContinuous (col : ChartColumnDefinition) (rows : list ChartRow)
  : ChartColumnDefinition :=
  if default false (def_isContinuous col) then col
  else
    let key := def_key col in
    let isContinuous :=
      isValueContinuous
        (get (find_row (fun row => negb (eq_null (get row key))) rows) key) in
    {| def_key := def_key col;
       def_label := def_label col;
       def_isContinuous := Some isContinuous |}.

Definition _createColumns (columns : list ChartColumnDefinition)
    (chartDataRows : list ChartRow) : list (string * ChartColumn) :=
  fold_left
    (fun map col =>
       OrderedMap_set (def_key col) (Column (_addContinuous col chartDataRows)) map)
    columns [].

(** [new ChartData(rows, columns)]. *)
Definition constructor (rows : list ChartRow)
    (columns : list ChartColumnDefinition) : t :=
  let chartDataRows := _createRows rows in
  let chartDataColumns := _createColumns columns chartDataRows in
  {| rows := chartDataRows; columns := chartDataColumns |}.

(** [this.columns] handed back to the constructor: [fromJS] leaves the
    [OrderedMap] as it is and [reduce] visits its [ChartColumn] records
    in order, each read through [get('key')], [get('isContinuous')]. *)
Definition as_definitions (columns : list (string * ChartColumn))
  : list ChartColumnDefinition :=
  map (fun kc : string * ChartColumn =>
         {| def_key := key (snd kc);
            def_label := label (snd kc);
            def_isContinuous := Some (isContinuous (snd kc)) |})
      columns.

(** *** Console output *)

Inductive message :=
| column_not_found (column : string)
| index_smaller_than_0 (index : number)
| index_larger_than (index : number) (max : Z)
| index_decimal (index : number)
| blend_out_of_range
| same_columns
| two_data_points (frameColumn : string) (frameValue : jsval)
                  (primaryColumn : string) (primaryValue : jsval).

Inductive entry :=
| console_error (m : message)
| console_warn (m : message).

Section Lerp.
Context `{Host}.

(** [ChartData.lerp]; the second component is what it writes to the
    console. *)
Definition lerp (valueA valueB : jsval) (blend : number) : jsval * list entry :=
  if num_eq blend (Fin 0) then (valueA, [])
  else if num_eq blend (Fin 1) then (valueB, [])
  else if num_lt blend (Fin 0) || num_gt blend (Fin 1) then
    (JNull, [console_error blend_out_of_range])
  else if eq_null valueA || eq_null valueB then (JNull, [])
  else if negb (String.eqb (typeof valueA) "number")
          || negb (String.eqb (typeof valueB) "number") then (valueA, [])
  else
    match valueA, valueB with
    | JNum a, JNum b => (JNum (num_add (num_mul (num_sub b a) blend) a), [])
    | _, _ => (valueA, [])
    end.

End Lerp.

(** *** Methods: the state they read and write *)

(** What a method can return or memoize. *)
Inductive value :=
| VScalar (v : jsval)
| VList (l : list jsval)
| VFrames (frames : list (list ChartRow))
| VChartData (cd : t).

Definition null : value := VScalar JNull.

(** The mutable surroundings of one [ChartData] object: its [_memos]
    object and the console. *)
Record state := {
  _memos : gmap string value;
  console : list entry
}.

Definition fresh : state := {| _memos := ∅; console := [] |}.

Inductive completion (A : Type) :=
| Normal (a : A)
| Throw (e : string).
Arguments Normal {A} a.
Arguments Throw {A} e.

Definition M (A : Type) : Type := state -> completion A * state.

Definition ret {A} (a : A) : M A := fun s => (Normal a, s).

Definition bind {A B} (c : M A) (k : A -> M B) : M B :=
  fun s =>
    match c s with
    | (Normal a, s') => k a s'
    | (Throw e, s') => (Throw e, s')
    end.

Notation "'let!' x ':=' c 'in' k" := (bind c (fun x => k))
  (at level 10, x name, c at level 100, k at level 200).

Definition throw {A} (e : string) : M A := fun s => (Throw e, s).

Definition tell (out : list entry) : M unit :=
  fun s => (Normal tt, {| _memos := _memos s; console := console s ++ out |}).

Definition result_of {A} (r : completion A * state) : completion A := fst r.
Definition state_of {A} (r : completion A * state) : state := snd r.

(** Immutable's [List.get(index)]: negative indices count from the end,
    anything out of range is [undefined]. *)
Definition List_get {A} (l : list A) (index : number) : option A :=
  match index with
  | Fin q =>
      let i := Qfloor q in
      let i := if (i <? 0)%Z then (Z.of_nat (length l) + i)%Z else i in
      if (0 <=? i)%Z then nth_error l (Z.to_nat i) else None
  | _ => None
  end.

(** Immutable's [groupBy] on a [List]: an ordered map from each key, in
    order of first appearance, to the elements having it, in order. *)
Fixpoint group_update {A} (k : jsval) (v : A) (groups : list (jsval * list A))
  : list (jsval * list A) :=
  match groups with
  | [] => [(k, [v])]
  | (k', vs) :: rest =>
      if Immutable_is k' k then (k', vs ++ [v]) :: rest
      else (k', vs) :: group_update k v rest
  end.

Definition groupBy {A} (grouper : A -> jsval) (l : list A) : list (jsval * list A) :=
  fold_left (fun groups v => group_update (grouper v) v groups) l [].

Fixpoint groups_get {A} (groups : list (jsval * list A)) (k : jsval)
  : option (list A) :=
  match groups with
  | [] => None
  | (k', vs) :: rest => if Immutable_is k' k then Some vs else groups_get rest k
  end.

(** [toOrderedSet().toList()]: first occurrences, in order. *)
Definition OrderedSet_add (s : list jsval) (v : jsval) : list jsval :=
  if existsb (fun u => Immutable_is u v) s then s else s ++ [v].

Definition toOrderedSet (l : list jsval) : list jsval :=
  fold_left OrderedSet_add l [].

(** A column argument of the aggregations: one key or a list of keys. *)
Inductive ChartColumnArg :=
| one_column (column : string)
| column_list (columns : list string).

Section Methods.
Context `{Host}.
Variable this : t.

Definition _columnError (column : string) : M bool :=
  match OrderedMap_get (columns this) column with
  | None =>
      let! _ := tell [console_error (column_not_found column)] in
      ret true
  | Some _ => ret false
  end.

(** [columnList.some(ii => this._columnError(ii))] stops at the first
    column in error. *)
Fixpoint _columnListError (columnList : list string) : M bool :=
  match columnList with
  | [] => ret false
  | ii :: rest =>
      let! e := _columnError ii in
      if e then ret true else _columnListError rest
  end.

(** [max] is [None] where the caller passes [null] or nothing. *)
Definition _indexError (index : number) (max : option Z) (integer : bool)
  : M bool :=
  if num_lt index (Fin 0) then
    let! _ := tell [console_error (index_smaller_than_0 index)] in
    ret true
  else
    match max with
    | Some m =>
        if negb (m =? 0)%Z && num_gt index (Fin (inject_Z m)) then
          let! _ := tell [console_error (index_larger_than index m)] in
          ret true
        else if integer && negb (num_eq (Math_round index) index) then
          let! _ := tell [console_error (index_decimal index)] in
          ret true
        else ret false
    | None =>
        if integer && negb (num_eq (Math_round index) index) then
          let! _ := tell [console_error (index_decimal index)] in
          ret true
        else ret false
    end.

Definition _columnArgList (columns : ChartColumnArg) : list string :=
  match columns with
  | one_column c => [c]
  | column_list l => l
  end.

Definition _allValuesForColumns (columnList : list string) : list jsval :=
  fold_left
    (fun values (row : ChartRow) =>
       values ++
         (map snd
            (map_to_list
               (filter (fun kv : string * jsval =>
                          bool_decide (fst kv ∈ columnList)) row))))
    (rows this) [].

Definition _memoize (key : string) (fn : M value) : M value :=
  fun s =>
    match _memos s !! key with
    | Some v => (Normal v, s)
    | None =>
        match fn s with
        | (Normal v, s') =>
            (Normal v, {| _memos := <[key := v]> (_memos s'); console := console s' |})
        | (Throw e, s') => (Throw e, s')
        end
    end.

Definition _aggregation (operation : operation) (columns : ChartColumnArg)
  : M value :=
  let columnList := _columnArgList columns in
  let! e := _columnListError columnList in
  if e then ret null
  else
    _memoize (operation_name operation +:+ "." +:+ String.concat "," columnList)
      (let result :=
         ImmutableMath operation
           (List.filter (fun val => negb (eq_null val))
                        (_allValuesForColumns columnList)) in
       ret (VScalar (if isNaN result then JNull else result))).

(** [updateRows] and [mapRows] touch neither [_memos] nor the console. *)
Definition updateRows (updater : list ChartRow -> list ChartRow) : t :=
  constructor (updater (rows this)) (as_definitions (columns this)).

Definition mapRows (mapper : ChartRow -> nat -> ChartRow) : t :=
  constructor (imap (fun i row => mapper row i) (rows this))
              (as_definitions (columns this)).

Definition getColumnData (column : string) : M value :=
  let! e := _columnError column in
  if e then ret null
  else
    _memoize ("getColumnData." +:+ column)
      (ret (VList (map (fun row => get row column) (rows this)))).

Definition getUniqueValues (column : string) : M value :=
  let! e := _columnError column in
  if e then ret null
  else
    _memoize ("getUniqueValues." +:+ column)
      (ret (VList (toOrderedSet (map (fun ii => get ii column) (rows this))))).

Definition makeFrames (column : string) : M value :=
  let! e := _columnError column in
  if e then ret null
  else
    _memoize ("makeFrames." +:+ column)
      (ret (VFrames (map snd (groupBy (fun ii => get ii column) (rows this))))).
(** The memoized frame list read back by [frameAtIndex]: anything but
    a list of frames under a [makeFrames] key would be a type error.
    When [frames.get(index)] is [undefined], [List(undefined)] is the
    empty list. *)
Definition frameAtIndex (frameColumn : string) (index : number) : M value :=
  let! e := _columnError frameColumn in
  if e then ret null
  else
    let! e := _indexError index None true in
    if e then ret null
    else
      _memoize
        ("frameAtIndex." +:+ frameColumn +:+ "[" +:+ number_to_string index +:+ "]")
        (let! frames := makeFrames frameColumn in
         match frames with
         | VFrames frames =>
             let! e := _indexError index (Some (Z.of_nat (length frames) - 1)%Z) true in
             if e then ret null
             else
               ret (VChartData
                      (constructor (default [] (List_get frames index))
                                   (as_definitions (columns this))))
         | _ => throw "TypeError"
         end).

Definition getRowFromFrame (frameColumn primaryColumn : string)
    (frame : list (jsval * list ChartRow)) (primaryValue : jsval)
  : option ChartRow * list entry :=
  match groups_get frame primaryValue with
  | None => (None, [])
  | Some [] => (None, [])
  | Some (first :: others) =>
      (Some first,
       if (1 <? length (first :: others))%nat then
         [console_warn
            (two_data_points frameColumn (get first frameColumn)
                             primaryColumn primaryValue)]
       else [])
  end.

(** The body of [allPrimaryValues.map(...)]: the interpolated row for
    one primary value, or nothing, and the console output on the way. *)
Definition interpolate_row (frameColumn primaryColumn : string)
    (frameA frameB : list (jsval * list ChartRow)) (blend : number)
    (primaryValue : jsval) : option ChartRow * list entry :=
  let (rowA, outA) := getRowFromFrame frameColumn primaryColumn frameA primaryValue in
  let (rowB, outB) := getRowFromFrame frameColumn primaryColumn frameB primaryValue in
  match rowA, rowB with
  | Some rowA, Some rowB =>
      let (row, out) :=
        fold_left
          (fun (acc : ChartRow * list entry) (kc : string * ChartColumn) =>
             let column := snd kc in
             let (value, o) :=
               if isContinuous column && negb (String.eqb (key column) primaryColumn)
               then lerp (get rowA (key column)) (get rowB (key column)) blend
               else (get rowA (key column), []) in
             (<[key column := value]> (fst acc), snd acc ++ o))
          (columns this) (∅, []) in
      (Some row, outA ++ outB ++ out)
  | _, _ => (None, outA ++ outB)
  end.

Definition frameAtIndexInterpolated (frameColumn primaryColumn : string)
    (index : number) : M value :=
  let! e := _columnError frameColumn in
  if e then ret null
  else
    let! e := _columnError primaryColumn in
    if e then ret null
    else
      let! e := _indexError index None false in
      if e then ret null
      else if String.eqb frameColumn primaryColumn then
        let! _ := tell [console_error same_columns] in
        ret null
      else if num_eq index (Math_round index) then
        frameAtIndex frameColumn index
      else
        let! frames := makeFrames frameColumn in
        match frames with
        | VFrames frames =>
            let! e := _indexError index (Some (Z.of_nat (length frames) - 1)%Z) false in
            if e then ret null
            else
              let! allPrimaryValues := getUniqueValues primaryColumn in
              match allPrimaryValues with
              | VList allPrimaryValues =>
                  let indexA := Math_floor index in
                  let indexB := Math_ceil index in
                  let blend := num_sub index indexA in
                  match List_get frames indexA, List_get frames indexB with
                  | Some fa, Some fb =>
                      let frameA := groupBy (fun ii => get ii primaryColumn) fa in
                      let frameB := groupBy (fun ii => get ii primaryColumn) fb in
                      let results :=
                        map (interpolate_row frameColumn primaryColumn
                                             frameA frameB blend)
                            allPrimaryValues in
                      let! _ := tell (concat (map snd results)) in
                      ret (VChartData
                             (constructor (omap fst results)
                                          (as_definitions (columns this))))
                  | _, _ => throw "TypeError"
                  end
              | _ => throw "TypeError"
              end
        | _ => throw "TypeError"
        end.

Definition min (columns : ChartColumnArg) : M value := _aggregation Min columns.
Definition max (columns : ChartColumnArg) : M value := _aggregation Max columns.
Definition sum (columns : ChartColumnArg) : M value := _aggregation Sum columns.
Definition average (columns : ChartColumnArg) : M value := _aggregation Average columns.
Definition median (columns : ChartColumnArg) : M value := _aggregation Median columns.
End Methods.

End ChartData.

(** ** The point series: [src/series/Series.js] *)

Module Series.
Import JS.

(** A point is an arbitrary keyed record: a plain object. *)
Abbreviation Point := (gmap string jsval).

(** [point[key]]: [undefined] where the property is absent. *)
Definition prop (point : Point) (key : string) : jsval :=
  default JUndefined (point !! key).

(** [{...a, ...b}]: the properties of [a], overridden by those of [b]. *)
Definition spread (a b : Point) : Point := b ∪ a.

(** Modelled from the spec: the [Series] class, whose source file is not
    among the sources.  A series holds its ordered groups of ordered
    points and the [preprocess] flags that travel with it, and keeps
    what [GroupedSeries] hands to its constructor ([pointKey],
    [groupKey], [rawData], [groups]). *)
Record t := {
  pointKey : string;
  groupKey : list string;
  rawData : list Point;
  groups : list (list Point);
  preprocess : gmap string jsval
}.

Section MapPoints.
Context {A B : Type} `{Inhabited A} `{Inhabited B}.

(** Modelled from the spec: [getPoint(pointIndex)] "returns the point at
    that index from every group, as one cross-group slice".  A group too
    short for the index contributes the default element, as an array
    contributes [undefined]. *)
Definition getPoint (data : list (list A)) (pointIndex : nat) : list A :=
  map (fun group => group !!! pointIndex) data.

(** The group length: all groups of a series have the same. *)
Definition pointCount (data : list (list A)) : nat :=
  match data with
  | [] => 0
  | group :: _ => length group
  end.

(** Modelled from the spec: [mapPoints(fn)] "for each point-index [i]
    from 0 to (group length - 1), gathers the cross-group slice at [i]
    and calls [fn(slice, i)]": the calls made, in order. *)
Definition mapPoints_calls (data : list (list A)) : list (list A * nat) :=
  map (fun i => (getPoint data i, i)) (seq 0 (pointCount data)).

(** Modelled from the spec: "the returned sequence of per-group
    replacement values is scattered back so that group [g]'s point [i]
    becomes [result[g]]". *)
Definition mapPoints_data (fn : list A -> nat -> list B) (data : list (list A))
  : list (list B) :=
  let results := map (fun call => fn (fst call) (snd call)) (mapPoints_calls data) in
  imap (fun g _ => map (fun result : list B => result !!! g) results) data.

End MapPoints.

#[export] Instance Point_inhabited : Inhabited Point := populate ∅.

(** Modelled from the spec: a transformation "produces a new instance";
    the new series differs from the old one in its groups. *)
Definition mapPoints (series : t) (fn : list Point -> nat -> list Point) : t :=
  {| pointKey := pointKey series;
     groupKey := groupKey series;
     rawData := rawData series;
     groups := mapPoints_data fn (groups series);
     preprocess := preprocess series |}.

End Series.

(** ** The grouped-series builder: [src/series/GroupedSeries.js] *)

Module GroupedSeries.
Import JS Series.

(** [groupKey] is one key or an array of keys. *)
Inductive GroupKey :=
| one_groupKey (key : string)
| groupKey_list (keys : list string).

Record GroupedSeriesConfig := {
  cfg_groupKey : GroupKey;
  cfg_pointKey : string;
  cfg_pointSort : option (Point -> Point -> number);
  cfg_data : list Point;
  cfg_defaultPoint : option Point
}.

(** [[].concat(config.groupKey)]. *)
Definition concat_groupKey (groupKey : GroupKey) : list string :=
  match groupKey with
  | one_groupKey key => [key]
  | groupKey_list keys => keys
  end.

(** What the constructor throws: the string of its [throw] statement, or
    the [TypeError] of a call to something that is not a function. *)
Inductive exception :=
| thrown (value : string)
| TypeError.

Section Constructor.
Context `{Host}.

(** The default comparator: by the value under [pointKey]. *)
Definition default_pointSort (pointKey : string) (a b : Point) : number :=
  if js_gt (prop a pointKey) (prop b pointKey) then Fin 1
  else if js_lt (prop a pointKey) (prop b pointKey) then Fin (-1)
  else Fin 0.

(** [baseGroup]: for each pointKey value, by its string, the one-field
    record holding it. *)
Definition make_baseGroup (pointKey : string) (data : list Point)
  : list (string * Point) :=
  fold_left
    (fun baseGroup item =>
       let pointValue := prop item pointKey in
       OrderedMap_set (ToString pointValue) {[ pointKey := pointValue ]} baseGroup)
    data [].

(** The key of the group of a record: its groupKey values, concatenated. *)
Definition group_key (groupKey : list string) (item : Point) : string :=
  fold_left (fun acc key => acc +:+ ToString (prop item key)) groupKey "".

(** [rr[key]] on the object [rr], which starts as [{}] and is given
    arrays of records: the array that [rr] has under the key; for a key
    that [rr] does not have, the member of [Object.prototype] of that
    name, where there is one; [undefined] otherwise. *)
Inductive property :=
| own_array (items : list Point)
| inherited_member
| no_property.

Definition rr_get (rr : list (string * list Point)) (key : string) : property :=
  match OrderedMap_get rr key with
  | Some items => own_array items
  | None => if inherited key then inherited_member else no_property
  end.

(** [rr[key] = rr[key] || []; rr[key].push(item)].  An inherited member
    is truthy, so it is what [rr[key]] stays, and it has no [push]: the
    call throws a [TypeError]. *)
Definition push_item (key : string) (item : Point) (rr : list (string * list Point))
  : exception + list (string * list Point) :=
  match rr_get rr key with
  | own_array items => inr (OrderedMap_set key (items ++ [item]) rr)
  | no_property => inr (OrderedMap_set key [item] rr)
  | inherited_member => inl TypeError
  end.

(** [data.reduce((rr, item) => ..., {})]: what the callback throws ends
    the reduction. *)
Definition make_groupedItems (groupKey : list string) (data : list Point)
  : exception + list (string * list Point) :=
  fold_left
    (fun (rr : exception + list (string * list Point)) item =>
       match rr with
       | inl e => inl e
       | inr rr => push_item (group_key groupKey item) item rr
       end)
    data (inr []).

(** [Object.fromEntries(groupKey.map(key => [key, group.find(ii =>
    ii[key])?.[key]]))]. *)
Definition make_baseValues (groupKey : list string) (group : list Point) : Point :=
  fold_left
    (fun baseValues key =>
       <[ key := match List.find (fun ii => truthy (prop ii key)) group with
                 | Some ii => prop ii key
                 | None => JUndefined
                 end ]> baseValues)
    groupKey ∅.

Definition make_group (groupKey : list string) (pointKey : string)
    (pointSort : Point -> Point -> number) (defaultPoint : Point)
    (baseGroup : list (string * Point)) (group : list Point) : list Point :=
  let baseValues := make_baseValues groupKey group in
  let groupMap :=
    map (fun kv : string * Point =>
           (fst kv, spread (spread defaultPoint baseValues) (snd kv)))
        baseGroup in
  let newGroupMap :=
    fold_left
      (fun map item =>
         OrderedMap_set (ToString (prop item pointKey)) (spread defaultPoint item) map)
      group groupMap in
  Array_sort pointSort (map snd newGroupMap).

Definition constructor (config : GroupedSeriesConfig) : exception + Series.t :=
  let pointKey := cfg_pointKey config in
  let pointSort := default (default_pointSort pointKey) (cfg_pointSort config) in
  let data := cfg_data config in
  let defaultPoint := default ∅ (cfg_defaultPoint config) in
  let groupKey := concat_groupKey (cfg_groupKey config) in
  if existsb (String.eqb pointKey) groupKey then
    inl (thrown "pointKey cannot be used as a groupKey.")
  else
    let baseGroup := make_baseGroup pointKey data in
    match make_groupedItems groupKey data with
    | inl e => inl e
    | inr groupedItems =>
        let groups :=
          map (fun entry : string * list Point =>
                 make_group groupKey pointKey pointSort defaultPoint baseGroup (snd entry))
              (Object_entries groupedItems) in
        inr {| Series.pointKey := pointKey;
               Series.groupKey := groupKey;
               Series.rawData := data;
               Series.groups := groups;
               Series.preprocess := ∅ |}
    end.

End Constructor.
End GroupedSeries.

(** ** Normalizing to percentages: [src/process/normalizeToPercentage.js] *)

Module Process.
Import JS Series.

Section NormalizeToPercentage.
Context `{Host}.

(** The callback given to [mapPoints]: one cross-group slice of points,
    each replaced by a copy carrying its original value, its share of the
    total and, under [key], the running share. *)
Definition normalize_slice (key : string) (point : list Point) : list Point :=
  let total :=
    fold_left (fun rr point => js_add rr (js_or (prop point key) (JNum (Fin 0))))
              point (JNum (Fin 0)) in
  snd
    (fold_left
       (fun (acc : jsval * list Point) (point : Point) =>
          let sum := fst acc in
          let next : Point := point in
          let next : Point := <[ "originalValue" := prop next key ]> next in
          let next : Point :=
            <[ "percentValue" := js_div (js_or (prop next key) (JNum (Fin 0))) total ]>
              next in
          let sum := js_add sum (js_or (prop next key) (JNum (Fin 0))) in
          let next : Point := <[ key := js_div sum total ]> next in
          (sum, snd acc ++ [next]))
       point (JNum (Fin 0), [])).

(** [normalizeToPercentage(config)(series)]: the series passed in, as the
    call leaves it, and the series returned.  The three assignments to
    [series.preprocess] write to the object of the series passed in. *)
Definition normalizeToPercentage (key : string) (series : Series.t)
  : Series.t * Series.t :=
  let series :=
    {| pointKey := pointKey series;
       groupKey := groupKey series;
       rawData := rawData series;
       groups := groups series;
       preprocess :=
         <[ "stackType" := JStr "points" ]>
           (<[ "stacked" := JBool true ]>
              (<[ "normalizeToPercentage" := JBool true ]> (preprocess series))) |} in
  let next := mapPoints series (fun point _ => normalize_slice key point) in
  (series, next).

End NormalizeToPercentage.
End Process.

(** * The vocabulary of the properties *)

(** ** Column inference *)

Section ColumnSpec.
Import JS ChartData.

(** The first non-null value of a column, in row order. *)
Definition first_non_null (key : string) (rows : list ChartRow) : option jsval :=
  List.find (fun v => negb (eq_null v)) (map (fun row => get row key) rows).

(** The inference as the specification words it: true exactly when the
    column has a non-null value and every non-null value is a number. *)
Definition isContinuous_as_specified (supplied : option bool) (key : string)
    (rows : list ChartRow) : bool :=
  match supplied with
  | Some b => b
  | None =>
      existsb (fun row => negb (eq_null (get row key))) rows
      && forallb (fun row => eq_null (get row key)
                             || isValueContinuous (get row key)) rows
  end.

End ColumnSpec.

(** ** The stores a program can reach *)

Section Reachability.
Import JS ChartData.
Context `{Host}.

(** The state after some more console output. *)
Definition say (s : state) (out : list entry) : state :=
  {| _memos := _memos s; console := console s ++ out |}.

(** The queries of the public interface. *)
Inductive query :=
| q_getColumnData (column : string)
| q_getUniqueValues (column : string)
| q_makeFrames (column : string)
| q_frameAtIndex (frameColumn : string) (index : number)
| q_frameAtIndexInterpolated (frameColumn primaryColumn : string) (index : number)
| q_aggregation (op : operation) (columns : ChartColumnArg).

Definition run (cd : t) (q : query) : M value :=
  match q with
  | q_getColumnData column => getColumnData cd column
  | q_getUniqueValues column => getUniqueValues cd column
  | q_makeFrames column => makeFrames cd column
  | q_frameAtIndex frameColumn index => frameAtIndex cd frameColumn index
  | q_frameAtIndexInterpolated frameColumn primaryColumn index =>
      frameAtIndexInterpolated cd frameColumn primaryColumn index
  | q_aggregation op columns => _aggregation cd op columns
  end.

(** The stores a program can hold, each with the state of its memo
    object and of the console: a store is constructed, or derived from
    another by [updateRows] or [mapRows], or returned by a query; queries
    change the state of the store they are called on. *)
Inductive reachable : t -> state -> Prop :=
| reach_new raw defs out :
    reachable (constructor raw defs) {| _memos := ∅; console := out |}
| reach_updateRows cd s updater out :
    reachable cd s ->
    reachable (updateRows cd updater) {| _memos := ∅; console := out |}
| reach_mapRows cd s mapper out :
    reachable cd s ->
    reachable (mapRows cd mapper) {| _memos := ∅; console := out |}
| reach_query cd s q :
    reachable cd s -> reachable cd (state_of (run cd q s))
| reach_result cd s q cd' out :
    reachable cd s ->
    result_of (run cd q s) = Normal (VChartData cd') ->
    reachable cd' {| _memos := ∅; console := out |}.

Definition is_scalar (v : jsval) : Prop :=
  (exists s, v = JStr s) \/ (exists n, v = JNum n) \/ v = JNull.

Definition all_scalars (cd : t) : Prop :=
  forall (row : ChartRow) (k : string) (v : jsval),
    In row (rows cd) -> row !! k = Some v -> is_scalar v.

(** The columns of a store form an [OrderedMap]: no key twice, each
    record under its own key. *)
Definition columns_wf (cols : list (string * ChartColumn)) : Prop :=
  NoDup (map fst cols) /\ forall k c, In (k, c) cols -> key c = k.

Definition store_wf (cd : t) : Prop :=
  all_scalars cd /\ columns_wf (columns cd).

(** The frames and the distinct values of a column, as computed from the
    rows. *)
Definition frames_of (cd : t) (column : string) : list (list ChartRow) :=
  map snd (groupBy (fun ii => get ii column) (rows cd)).

Definition unique_of (cd : t) (column : string) : list jsval :=
  toOrderedSet (map (fun ii => get ii column) (rows cd)).

(** What a memo object may hold under a key: stores that are well
    formed, and under the keys of [makeFrames] and [getUniqueValues] the
    value computed from the rows. *)
Definition good_value (v : value) : Prop :=
  match v with
  | VChartData cd => store_wf cd
  | _ => True
  end.

Definition entry_ok (cd : t) (k : string) (v : value) : Prop :=
  good_value v
  /\ (forall c, k = "makeFrames." +:+ c -> v = VFrames (frames_of cd c))
  /\ (forall c, k = "getUniqueValues." +:+ c -> v = VList (unique_of cd c)).

Definition memo_ok (cd : t) (s : state) : Prop :=
  forall k v, _memos s !! k = Some v -> entry_ok cd k v.

(** A computation keeps the memo object in order and returns values
    satisfying [P]. *)
Definition keeps {A} (cd : t) (P : A -> Prop) (c : M A) : Prop :=
  forall s, memo_ok cd s ->
    memo_ok cd (snd (c s)) /\ forall a, fst (c s) = Normal a -> P a.

(** The result of a query: [null], or a value satisfying [P]. *)
Definition null_or (P : value -> Prop) (v : value) : Prop := v = null \/ P v.

(** No two entries of a list are equal in the sense of [Immutable.is]. *)
Inductive distinct : list jsval -> Prop :=
| distinct_nil : distinct []
| distinct_cons v l :
    (forall u, In u l -> Immutable_is v u = false) -> distinct l -> distinct (v :: l).

End Reachability.

(** The keys of the memoized operations have different prefixes. *)
Ltac other_key :=
  let c := fresh "c" in
  let E := fresh "E" in
  intros c E; simpl in E; try discriminate E.

(** ** Interpolation between two frames *)

Section InterpolationSpec.
Import JS ChartData.
Context `{Host}.

(** The first row of a frame whose primary value is the given one. *)
Definition first_match (primaryColumn : string) (frame : list ChartRow)
    (primaryValue : jsval) : option ChartRow :=
  List.find (fun row => Immutable_is (get row primaryColumn) primaryValue) frame.

(** A cell of a row, [null] when the row has none under that key. *)
Definition cell_or_null (row : ChartRow) (k : string) : jsval :=
  default JNull (row !! k).

Definition interpolated_cell (primaryColumn : string) (blend : number)
    (rowA rowB : ChartRow) (column : ChartColumn) : jsval :=
  if isContinuous column && negb (String.eqb (key column) primaryColumn)
  then fst (lerp (get rowA (key column)) (get rowB (key column)) blend)
  else cell_or_null rowA (key column).

(** One cell for each declared column. *)
Definition interpolated_row (columns : list (string * ChartColumn))
    (primaryColumn : string) (blend : number) (rowA rowB : ChartRow) : ChartRow :=
  list_to_map
    (map (fun kc : string * ChartColumn =>
            (fst kc, interpolated_cell primaryColumn blend rowA rowB (snd kc)))
         columns).

(** The rows between frame [a = floor index] and frame [a + 1]: one for
    each distinct primary value of the whole data set that has a row in
    both frames. *)
Definition interpolated_rows (cd : t) (frameColumn primaryColumn : string)
    (index : Q) : list ChartRow :=
  let a := Z.to_nat (Qfloor index) in
  let blend := Fin (index - inject_Z (Qfloor index)) in
  let frameA := nth a (frames_of cd frameColumn) [] in
  let frameB := nth (a + 1) (frames_of cd frameColumn) [] in
  omap (fun primaryValue =>
          match first_match primaryColumn frameA primaryValue,
                first_match primaryColumn frameB primaryValue with
          | Some rowA, Some rowB =>
              Some (interpolated_row (columns cd) primaryColumn blend rowA rowB)
          | _, _ => None
          end)
       (unique_of cd primaryColumn).

End InterpolationSpec.

(** ** The points of a group *)

Section GroupedSpec.
Import JS Series GroupedSeries.
Context `{Host}.

(** The string under which the builder files the pointKey value of a
    record. *)
Definition point_string (pointKey : string) (item : Point) : string :=
  ToString (prop item pointKey).

(** The last record of a list filed under a string. *)
Definition last_at (pointKey : string) (s : string) (items : list Point)
  : option Point :=
  List.find (fun item => String.eqb (point_string pointKey item) s) (rev items).

(** The point of a group at one canonical pointKey value: the group's
    last record there over the default point, or, where the group has
    none, the default point, the group's base values and the pointKey
    value. *)
Definition point_at (groupKey : list string) (pointKey : string)
    (defaultPoint : Point) (items : list Point) (entry : string * Point) : Point :=
  match last_at pointKey (fst entry) items with
  | Some item => spread defaultPoint item
  | None =>
      spread (spread defaultPoint (make_baseValues groupKey items)) (snd entry)
  end.

(** The records of a group: those with its key. *)
Definition records_of (groupKey : list string) (key : string) (data : list Point)
  : list Point :=
  List.filter (fun item => String.eqb (group_key groupKey item) key) data.

(** Key names that [Object.prototype] does not define: under such a
    name [point[key]] is the point's own property, or [undefined]; under
    the others a point without the property would give the inherited
    member. *)
Definition plain_keys (pointKey : string) (groupKey : list string) : bool :=
  negb (inherited pointKey) && forallb (fun key => negb (inherited key)) groupKey.

(** A record whose group key is the name of a member of
    [Object.prototype]. *)
Definition clashes (groupKey : list string) (item : Point) : bool :=
  inherited (group_key groupKey item).

(** A value that is there: anything but [undefined]. *)
Definition has_value (v : jsval) : bool :=
  match v with
  | JUndefined => false
  | _ => true
  end.

(** The keys of a list in the order in which they first appear. *)
Fixpoint first_appearances (keys : list string) : list string :=
  match keys with
  | [] => []
  | key :: rest =>
      key :: List.filter (fun k => negb (String.eqb k key)) (first_appearances rest)
  end.

End GroupedSpec.

(** * Example data *)

Section StoreExamples.
Import JS ChartData.

(** The example of the specification: a numeric and a textual column. *)
Definition abc_rows : list ChartRow :=
  [ {[ "a" := JNum (Fin 1); "b" := JStr "x" ]};
    {[ "a" := JNum (Fin 2); "b" := JStr "y" ]} ].

Definition abc_columns : list ChartColumnDefinition :=
  [ {| def_key := "a"; def_label := "A"; def_isContinuous := None |};
    {| def_key := "b"; def_label := "B"; def_isContinuous := None |} ].

(** A column whose first value is a number and whose second is a string. *)
Definition mixed_rows : list ChartRow :=
  [ {[ "a" := JNum (Fin 1) ]}; {[ "a" := JStr "x" ]} ].

Definition mixed_columns : list ChartColumnDefinition :=
  [ {| def_key := "a"; def_label := "A"; def_isContinuous := None |} ].

(** The rows of the example in the documentation of
    [frameAtIndexInterpolated]. *)
Definition price_rows : list ChartRow :=
  [ {[ "day" := JNum (Fin 1); "price" := JNum (Fin 10); "amount" := JNum (Fin 2) ]};
    {[ "day" := JNum (Fin 1); "price" := JNum (Fin 20); "amount" := JNum (Fin 40) ]};
    {[ "day" := JNum (Fin 2); "price" := JNum (Fin 10); "amount" := JNum (Fin 4) ]};
    {[ "day" := JNum (Fin 2); "price" := JNum (Fin 20); "amount" := JNum (Fin 30) ]} ].

Definition price_columns : list ChartColumnDefinition :=
  [ {| def_key := "day"; def_label := "Day"; def_isContinuous := None |};
    {| def_key := "price"; def_label := "Price"; def_isContinuous := None |};
    {| def_key := "amount"; def_label := "Amount"; def_isContinuous := None |} ].

Definition price_data : t := constructor price_rows price_columns.

(** A store with a single frame. *)
Definition one_day : t :=
  constructor
    [ {[ "day" := JNum (Fin 1); "price" := JNum (Fin 10) ]} ]
    [ {| def_key := "day"; def_label := "Day"; def_isContinuous := None |};
      {| def_key := "price"; def_label := "Price"; def_isContinuous := None |} ].

(** A store with a declared column that no row has. *)
Definition noted_data : t :=
  constructor
    [ {[ "day" := JNum (Fin 1); "price" := JNum (Fin 10) ]};
      {[ "day" := JNum (Fin 2); "price" := JNum (Fin 10) ]} ]
    [ {| def_key := "day"; def_label := "Day"; def_isContinuous := None |};
      {| def_key := "price"; def_label := "Price"; def_isContinuous := None |};
      {| def_key := "note"; def_label := "Note"; def_isContinuous := None |} ].

(** A store with a column whose key holds a comma, and no value. *)
Definition comma_data : t :=
  constructor
    [ {[ "a" := JNum (Fin 1); "b" := JNum (Fin 2) ]} ]
    [ {| def_key := "a"; def_label := "A"; def_isContinuous := None |};
      {| def_key := "b"; def_label := "B"; def_isContinuous := None |};
      {| def_key := "a,b"; def_label := "A and B"; def_isContinuous := None |} ].

End StoreExamples.

Section SeriesExamples.
Import JS Series GroupedSeries.

(** The second test of the repository: group [bar] has a record at
    [x = 1] only. *)
Definition sparse_data : list Point :=
  [ {[ "type" := JStr "foo"; "x" := JNum (Fin 0); "value" := JNum (Fin 1) ]};
    {[ "type" := JStr "foo"; "x" := JNum (Fin 1); "value" := JNum (Fin 1) ]};
    {[ "type" := JStr "foo"; "x" := JNum (Fin 2); "value" := JNum (Fin 1) ]};
    {[ "type" := JStr "bar"; "x" := JNum (Fin 1); "value" := JNum (Fin 2) ]} ].

Definition sparse_config : GroupedSeriesConfig :=
  {| cfg_groupKey := one_groupKey "type";
     cfg_pointKey := "x";
     cfg_pointSort := None;
     cfg_data := sparse_data;
     cfg_defaultPoint := Some {[ "value" := JNum (Fin 0) ]} |}.

(** Two pointKey values with the same string: the number 1 and the
    string ["1"]. *)
Definition mixed_data : list Point :=
  [ {[ "type" := JStr "foo"; "x" := JNum (Fin 1); "value" := JNum (Fin 1) ]};
    {[ "type" := JStr "foo"; "x" := JStr "1"; "value" := JNum (Fin 2) ]} ].

Definition mixed_config : GroupedSeriesConfig :=
  {| cfg_groupKey := one_groupKey "type";
     cfg_pointKey := "x";
     cfg_pointSort := None;
     cfg_data := mixed_data;
     cfg_defaultPoint := Some {[ "value" := JNum (Fin 0) ]} |}.

(** A group key with a falsy value, the number 0. *)
Definition numbered_data : list Point :=
  [ {[ "series" := JNum (Fin 0); "x" := JNum (Fin 0); "value" := JNum (Fin 1) ]};
    {[ "series" := JNum (Fin 1); "x" := JNum (Fin 0); "value" := JNum (Fin 2) ]};
    {[ "series" := JNum (Fin 1); "x" := JNum (Fin 1); "value" := JNum (Fin 3) ]} ].

Definition numbered_config : GroupedSeriesConfig :=
  {| cfg_groupKey := one_groupKey "series";
     cfg_pointKey := "x";
     cfg_pointSort := None;
     cfg_data := numbered_data;
     cfg_defaultPoint := Some {[ "value" := JNum (Fin 0) ]} |}.

(** A record whose group key is the name of a member of
    [Object.prototype]. *)
Definition inherited_data : list Point :=
  [ {[ "type" := JStr "foo"; "x" := JNum (Fin 0); "value" := JNum (Fin 1) ]};
    {[ "type" := JStr "constructor"; "x" := JNum (Fin 0); "value" := JNum (Fin 2) ]} ].

Definition inherited_config : GroupedSeriesConfig :=
  {| cfg_groupKey := one_groupKey "type";
     cfg_pointKey := "x";
     cfg_pointSort := None;
     cfg_data := inherited_data;
     cfg_defaultPoint := None |}.

(** The example of the specification for [normalizeToPercentage]: two
    groups with values 1 and 3 at the first index, 3 and 1 at the
    second. *)
Definition shares : Series.t :=
  {| pointKey := "x";
     groupKey := ["type"];
     rawData := [];
     groups := [ [ {[ "v" := JNum (Fin 1) ]}; {[ "v" := JNum (Fin 3) ]} ];
                 [ {[ "v" := JNum (Fin 3) ]}; {[ "v" := JNum (Fin 1) ]} ] ];
     preprocess := ∅ |}.

End SeriesExamples.

(** * More vocabulary: memoization, derived stores, order *)

Section MemoSpec.
Import JS ChartData.
Context `{Host}.

(** The state of a store after a list of queries, made one after
    another. *)
Definition run_all (cd : t) (qs : list query) (s : state) : state :=
  fold_left (fun s q => state_of (run cd q s)) qs s.

(** The cells of a column, row by row. *)
Definition cells_of (cd : t) (column : string) : list jsval :=
  map (fun row => get row column) (rows cd).

(** Every entry of the memo object satisfies [I]. *)
Definition memo_inv (I : string -> value -> Prop) (s : state) : Prop :=
  forall k v, _memos s !! k = Some v -> I k v.

Definition upholds {A} (I : string -> value -> Prop) (c : M A) : Prop :=
  forall s, memo_inv I s -> memo_inv I (snd (c s)).

(** A computation only adds entries to the memo object. *)
Definition grows {A} (c : M A) : Prop :=
  forall s, _memos s ⊆ _memos (snd (c s)).

(** The answer of a computation, once given, is given again in every
    later state of the memo object. *)
Definition stable {A} (cd : t) (c : M A) : Prop :=
  forall s a, memo_ok cd s -> fst (c s) = Normal a ->
  forall s2, memo_ok cd s2 -> _memos (snd (c s)) ⊆ _memos s2 ->
  fst (c s2) = Normal a.

(** A computation that leaves the memo object alone and always returns
    [a]: it can only write to the console. *)
Definition console_only {A} (a : A) (c : M A) : Prop :=
  forall s, fst (c s) = Normal a /\ _memos (snd (c s)) = _memos s.

(** A computation whose answer, on a store whose memo object is in
    order, is [a]; it keeps the memo object in order and only adds to
    it. *)
Definition determined {A} (cd : t) (a : A) (c : M A) : Prop :=
  forall s, memo_ok cd s ->
    fst (c s) = Normal a /\ memo_ok cd (snd (c s))
    /\ _memos s ⊆ _memos (snd (c s)).

(** What [_columnError] returns. *)
Definition undeclared (this : t) (column : string) : bool :=
  match OrderedMap_get (columns this) column with
  | None => true
  | Some _ => false
  end.

(** What [getColumnData] may have memoized. *)
Definition cells_entry (cd : t) (k : string) (v : value) : Prop :=
  forall c, k = "getColumnData." +:+ c -> v = VList (cells_of cd c).

End MemoSpec.

Section DerivedSpec.
Import JS ChartData.

(** What the constructor infers for a column from the rows: whether the
    first non-null value under the key is a number. *)
Definition inferred (key : string) (rows : list ChartRow) : bool :=
  match first_non_null key rows with
  | Some (JNum _) => true
  | _ => false
  end.

(** A column of a store, as the constructor rebuilds it over other
    rows. *)
Definition recolumn (rows : list ChartRow) (c : ChartColumn) : ChartColumn :=
  {| key := key c;
     label := label c;
     isContinuous := isContinuous c || inferred (key c) rows |}.

End DerivedSpec.

Section SortedSpec.
Import JS Series.

(** A point whose value under a key is a finite number. *)
Definition numbered (key : string) (p : Point) : Prop :=
  exists q : Q, p !! key = Some (JNum (Fin q)).

(** Two points, the first with the smaller or an equal number under
    the key. *)
Definition ascending (key : string) (a b : Point) : Prop :=
  exists qa qb : Q,
    a !! key = Some (JNum (Fin qa)) /\ b !! key = Some (JNum (Fin qb))
    /\ (qa <= qb)%Q.

End SortedSpec.

Section NormalizeSpec.
Import JS Series.
Context `{Host}.



End NormalizeSpec.

Section WarningSpec.
Import JS ChartData.

(** The warning for a primary value that more than one row of a frame
    has: it names the frame value of the first such row. *)
Definition duplicate_warning (frameColumn primaryColumn : string)
    (frame : list ChartRow) (primaryValue : jsval) : list entry :=
  match List.filter (fun row => Immutable_is (get row primaryColumn) primaryValue)
                    frame with
  | first :: _ :: _ =>
      [console_warn (two_data_points frameColumn (get first frameColumn)
                                     primaryColumn primaryValue)]
  | _ => []
  end.

End WarningSpec.

(** * Properties of the chart data store *)

Section NumberFacts.
Import JS ChartData.
Context `{Host}.

(** ** Comparisons of the number model *)

Lemma num_eq_sym (a b : number) : num_eq a b = num_eq b a.
Proof.
  destruct a, b; simpl; try reflexivity.
  destruct (Qeq_bool q q0) eqn:E1, (Qeq_bool q0 q) eqn:E2; try reflexivity.
  - apply Qeq_bool_iff in E1. symmetry in E1. apply Qeq_bool_iff in E1. congruence.
  - apply Qeq_bool_iff in E2. symmetry in E2. apply Qeq_bool_iff in E2. congruence.
Qed.

Lemma typeof_number (v : jsval) :
  String.eqb (typeof v) "number" = true <-> exists n, v = JNum n.
Proof.
  split.
  - destruct v; simpl; try discriminate. eauto.
  - intros [n ->]. reflexivity.
Qed.

(** ** Linear interpolation *)

(** Between [+Infinity] and itself the difference is [NaN], and so is
    what [lerp] returns inside the range. *)
Lemma lerp_of_infinities (t : Q) :
  (0 < t)%Q -> (t < 1)%Q ->
  lerp (JNum PosInf) (JNum PosInf) (Fin t) = (JNum NaN, []).
Proof.
  intros H0 H1. unfold lerp. simpl. unfold num_gt. simpl.
  assert (E0 : Qeq_bool t 0 = false).
  { destruct (Qeq_bool t 0) eqn:E; [| reflexivity]. apply Qeq_bool_iff in E. lra. }
  assert (E1 : Qeq_bool t 1 = false).
  { destruct (Qeq_bool t 1) eqn:E; [| reflexivity]. apply Qeq_bool_iff in E. lra. }
  assert (L0 : Qlt_bool t 0 = false).
  { unfold Qlt_bool. destruct (Qle_bool t 0) eqn:E; [| reflexivity].
    apply Qle_bool_iff in E. lra. }
  assert (L1 : Qlt_bool 1 t = false).
  { unfold Qlt_bool. destruct (Qle_bool 1 t) eqn:E; [| reflexivity].
    apply Qle_bool_iff in E. lra. }
  now rewrite E0, E1, L0, L1.
Qed.

(** C4.  The clauses of [lerp], each under the failure of the ones before
    it: a blend equal to 0 gives the first value; equal to 1, the second;
    outside [0, 1], [null] with an error on the console; a null (or
    missing) value gives [null]; a value that is not a number gives the
    first value unchanged; otherwise the result is [(y - x) * t + x] in
    the arithmetic of the host.  Between two finite numbers, at a blend
    of one half, that is the arithmetic midpoint when the difference, the
    product and the sum are computed exactly. *)
Theorem lerp_clauses (x y : jsval) (t : number) :
  (num_eq t (Fin 0) = true -> lerp x y t = (x, []))
  /\ (num_eq t (Fin 0) = false -> num_eq t (Fin 1) = true -> lerp x y t = (y, []))
  /\ (num_eq t (Fin 0) = false -> num_eq t (Fin 1) = false ->
      num_lt t (Fin 0) = true \/ num_gt t (Fin 1) = true ->
      lerp x y t = (JNull, [console_error blend_out_of_range]))
  /\ (num_eq t (Fin 0) = false -> num_eq t (Fin 1) = false ->
      num_lt t (Fin 0) = false -> num_gt t (Fin 1) = false ->
      (eq_null x = true \/ eq_null y = true -> lerp x y t = (JNull, []))
      /\ (eq_null x = false -> eq_null y = false ->
          typeof x <> "number" \/ typeof y <> "number" -> lerp x y t = (x, []))
      /\ (forall a b : number, x = JNum a -> y = JNum b ->
          lerp x y t = (JNum (num_add (num_mul (num_sub b a) t) a), [])))
  /\ (forall a b difference product sum : Q,
        num_sub (Fin b) (Fin a) = Fin difference ->
        (difference == b - a)%Q ->
        num_mul (Fin difference) (Fin (1 # 2)) = Fin product ->
        (product == difference * (1 # 2))%Q ->
        num_add (Fin product) (Fin a) = Fin sum ->
        (sum == product + a)%Q ->
        lerp (JNum (Fin a)) (JNum (Fin b)) (Fin (1 # 2)) = (JNum (Fin sum), [])
        /\ (sum == (a + b) / 2)%Q).
Proof.
  split; [| split; [| split; [| split]]].
  - intros H0. unfold lerp. now rewrite H0.
  - intros H0 H1. unfold lerp. now rewrite H0, H1.
  - intros H0 H1 Hout. unfold lerp. rewrite H0, H1.
    destruct Hout as [-> | ->]; [reflexivity | now rewrite orb_true_r].
  - intros H0 H1 H2 H3. split; [| split].
    + intros Hnull. unfold lerp. rewrite H0, H1, H2, H3. simpl.
      destruct Hnull as [-> | ->]; [reflexivity | now rewrite orb_true_r].
    + intros Hx Hy Hty. unfold lerp. rewrite H0, H1, H2, H3, Hx, Hy. simpl.
      destruct x, y; simpl in *; try reflexivity; try discriminate.
      destruct Hty; congruence.
    + intros a b -> ->. unfold lerp. rewrite H0, H1, H2, H3. reflexivity.
  - intros a b difference product sum Hsub Hd Hmul Hp Hadd Hs. split.
    + unfold lerp.
      change (num_eq (Fin (1 # 2)) (Fin 0)) with false.
      change (num_eq (Fin (1 # 2)) (Fin 1)) with false.
      change (num_lt (Fin (1 # 2)) (Fin 0) || num_gt (Fin (1 # 2)) (Fin 1)) with false.
      cbn [eq_null orb typeof String.eqb negb].
      change (String.eqb "number" "number") with true. cbn [negb orb].
      now rewrite Hsub, Hmul, Hadd.
    + rewrite Hs, Hp, Hd. field.
Qed.

End NumberFacts.

Section NumberExamples.
Import JS ChartData.
Existing Instance ReferenceHost.host.

Lemma lerp_clauses_witness :
  lerp (JNum (Fin 10)) (JNum (Fin 20)) (Fin 0) = (JNum (Fin 10), [])
  /\ lerp (JNum (Fin 10)) (JNum (Fin 20)) (Fin 1) = (JNum (Fin 20), [])
  /\ lerp (JNum (Fin 10)) (JNum (Fin 20)) (Fin 2)
     = (JNull, [console_error blend_out_of_range])
  /\ lerp JNull (JNum (Fin 20)) (Fin (1 # 2)) = (JNull, [])
  /\ lerp (JStr "a") (JNum (Fin 20)) (Fin (1 # 2)) = (JStr "a", [])
  /\ (exists m : Q,
        lerp (JNum (Fin 10)) (JNum (Fin 20)) (Fin (1 # 2)) = (JNum (Fin m), [])
        /\ (m == 15)%Q).
Proof.
  pose proof (lerp_clauses (JNum (Fin 10)) (JNum (Fin 20)) (Fin 0)) as (C0 & _).
  pose proof (lerp_clauses (JNum (Fin 10)) (JNum (Fin 20)) (Fin 1)) as (_ & C1 & _).
  pose proof (lerp_clauses (JNum (Fin 10)) (JNum (Fin 20)) (Fin 2)) as (_ & _ & C2 & _).
  pose proof (lerp_clauses JNull (JNum (Fin 20)) (Fin (1 # 2))) as (_ & _ & _ & C3 & _).
  pose proof (lerp_clauses (JStr "a") (JNum (Fin 20)) (Fin (1 # 2))) as (_ & _ & _ & C4 & _).
  pose proof (lerp_clauses JNull JNull (Fin 0)) as (_ & _ & _ & _ & C5).
  split; [apply C0; reflexivity |].
  split; [apply C1; reflexivity |].
  split; [apply C2; [reflexivity | reflexivity | right; reflexivity] |].
  split; [| split].
  - apply (proj1 (C3 eq_refl eq_refl eq_refl eq_refl)). left. reflexivity.
  - apply (proj1 (proj2 (C4 eq_refl eq_refl eq_refl eq_refl)));
      [reflexivity | reflexivity | left; discriminate].
  - exists ((20 + - 10) * (1 # 2) + 10)%Q.
    destruct (C5 10%Q 20%Q (20 + - 10)%Q ((20 + - 10) * (1 # 2))%Q
                 ((20 + - 10) * (1 # 2) + 10)%Q) as [Hlerp Hmid];
      try reflexivity.
    split; [exact Hlerp | reflexivity].
Defined.

(** C4 as stated fails for numbers that are not finite: between
    [+Infinity] and itself, whose arithmetic midpoint is [+Infinity],
    [lerp] at one half gives [NaN]. *)
Lemma lerp_midpoint_of_infinities :
  typeof (JNum PosInf) = "number"
  /\ num_div (num_add PosInf PosInf) (Fin 2) = PosInf
  /\ lerp (JNum PosInf) (JNum PosInf) (Fin (1 # 2)) = (JNum NaN, []).
Proof.
  split; [reflexivity |]. split; [reflexivity |].
  apply lerp_of_infinities; reflexivity.
Qed.

End NumberExamples.

(** ** Column metadata *)

Section ColumnFacts.
Import JS ChartData.

Lemma OrderedMap_get_set {V} (m : list (string * V)) (k k' : string) (v : V) :
  OrderedMap_get (OrderedMap_set k v m) k'
  = if String.eqb k k' then Some v else OrderedMap_get m k'.
Proof.
  induction m as [| [k0 v0] m IH]; simpl.
  - reflexivity.
  - destruct (String.eqb k0 k) eqn:E0; simpl.
    + apply String.eqb_eq in E0. subst k0.
      destruct (String.eqb k k'); reflexivity.
    + destruct (String.eqb k0 k') eqn:E1.
      * apply String.eqb_eq in E1. subst k0.
        rewrite String.eqb_sym, E0. reflexivity.
      * apply IH.
Qed.

(** The keys of an [OrderedMap] built by [set] are pairwise distinct. *)
Lemma OrderedMap_set_keys {V} (m : list (string * V)) (k : string) (v : V) :
  map fst (OrderedMap_set k v m)
  = if existsb (String.eqb k) (map fst m) then map fst m else map fst m ++ [k].
Proof.
  induction m as [| [k0 v0] m IH]; simpl.
  - reflexivity.
  - rewrite (String.eqb_sym k k0). destruct (String.eqb k0 k); simpl.
    + reflexivity.
    + rewrite IH. destruct (existsb (String.eqb k) (map fst m)); reflexivity.
Qed.

Lemma OrderedMap_set_NoDup {V} (m : list (string * V)) (k : string) (v : V) :
  NoDup (map fst m) -> NoDup (map fst (OrderedMap_set k v m)).
Proof.
  intros Hm. rewrite OrderedMap_set_keys.
  destruct (existsb (String.eqb k) (map fst m)) eqn:E; [assumption |].
  apply NoDup_app. split; [assumption |]. split.
  - intros x Hx Hk. apply list_elem_of_singleton in Hk. subst x.
    assert (existsb (String.eqb k) (map fst m) = true); [| congruence].
    apply existsb_exists. exists k. split; [now apply list_elem_of_In |].
    apply String.eqb_refl.
  - apply NoDup_singleton.
Qed.

Lemma OrderedMap_get_of_In {V} (m : list (string * V)) (k : string) (v : V) :
  NoDup (map fst m) -> In (k, v) m -> OrderedMap_get m k = Some v.
Proof.
  induction m as [| [k0 v0] m IH]; simpl; [intros _ [] |].
  intros Hnd Hin. apply NoDup_cons in Hnd. destruct Hnd as [Hk0 Hnd].
  destruct Hin as [[= -> ->] | Hin]; [now rewrite String.eqb_refl |].
  destruct (String.eqb k0 k) eqn:E; [| now apply IH].
  apply String.eqb_eq in E. subst k0. exfalso. apply Hk0.
  apply list_elem_of_In, in_map_iff. now exists (k, v).
Qed.

(** What [_createColumns] keeps for a key: the last definition given for
    it. *)
Lemma _createColumns_get_acc (rows : list ChartRow)
    (defs : list ChartColumnDefinition) (def : ChartColumnDefinition)
    (acc : list (string * ChartColumn)) :
  Forall (fun d => def_key d <> def_key def) defs ->
  OrderedMap_get
    (fold_left
       (fun map col =>
          OrderedMap_set (def_key col) (Column (_addContinuous col rows)) map)
       defs acc)
    (def_key def)
  = OrderedMap_get acc (def_key def).
Proof.
  revert acc. induction defs as [| d defs IH]; intros acc Hne; simpl.
  - reflexivity.
  - inversion Hne as [| ? ? Hd Hrest]; subst.
    rewrite IH by assumption. rewrite OrderedMap_get_set.
    destruct (String.eqb (def_key d) (def_key def)) eqn:E; [| reflexivity].
    apply String.eqb_eq in E. contradiction.
Qed.

Lemma _createColumns_get (rows : list ChartRow)
    (defs1 defs2 : list ChartColumnDefinition) (def : ChartColumnDefinition) :
  Forall (fun d => def_key d <> def_key def) defs2 ->
  OrderedMap_get (_createColumns (defs1 ++ def :: defs2) rows) (def_key def)
  = Some (Column (_addContinuous def rows)).
Proof.
  intros Hne. unfold _createColumns. rewrite fold_left_app. simpl.
  rewrite _createColumns_get_acc by assumption.
  rewrite OrderedMap_get_set, String.eqb_refl. reflexivity.
Qed.

Lemma find_row_first_non_null (key : string) (rows : list ChartRow) :
  isValueContinuous
    (get (find_row (fun row => negb (eq_null (get row key))) rows) key)
  = match first_non_null key rows with
    | Some (JNum _) => true
    | _ => false
    end.
Proof.
  unfold find_row, first_non_null. induction rows as [| row rows IH]; simpl.
  - reflexivity.
  - destruct (eq_null (get row key)) eqn:E; simpl.
    + apply IH.
    + destruct (get row key); try discriminate; reflexivity.
Qed.

Lemma first_non_null_none (key : string) (rows : list ChartRow) :
  (forall row, In row rows -> eq_null (get row key) = true) ->
  first_non_null key rows = None.
Proof.
  intros Hall. unfold first_non_null.
  induction rows as [| row rows IH]; simpl; [reflexivity |].
  rewrite Hall by (now left). simpl. apply IH. intros r Hr. apply Hall. now right.
Qed.

Lemma first_non_null_number (key : string) (rows : list ChartRow) :
  (exists row, In row rows /\ eq_null (get row key) = false) ->
  (forall row, In row rows ->
     eq_null (get row key) = true \/ exists n, get row key = JNum n) ->
  exists n, first_non_null key rows = Some (JNum n).
Proof.
  intros [r0 [Hin Hr0]] Hall. unfold first_non_null.
  induction rows as [| row rows IH]; simpl; [contradiction |].
  destruct (eq_null (get row key)) eqn:E; simpl.
  - apply IH.
    + destruct Hin as [-> | Hin]; [congruence | assumption].
    + intros r Hr. apply Hall. now right.
  - destruct (Hall row (or_introl eq_refl)) as [Hn | [n Hn]]; [congruence |].
    exists n. now rewrite Hn.
Qed.

(** C1, as the code has it.  For the definition that [_createColumns]
    retains for a key (the last one given), the column is continuous when
    [true] was supplied; when nothing was supplied it is continuous exactly
    when the first non-null value of the column, in row order, is a
    number.  Hence it is not continuous when the column has no non-null
    value, and it is continuous when the column has a non-null value and
    all of them are numbers. *)
Theorem isContinuous_inferred (raw : list ChartRow)
    (defs1 defs2 : list ChartColumnDefinition) (def : ChartColumnDefinition) :
  Forall (fun d => def_key d <> def_key def) defs2 ->
  let cd := constructor raw (defs1 ++ def :: defs2) in
  exists c,
    OrderedMap_get (columns cd) (def_key def) = Some c
    /\ key c = def_key def
    /\ (def_isContinuous def = Some true -> isContinuous c = true)
    /\ (def_isContinuous def = None ->
        isContinuous c
        = match first_non_null (def_key def) (rows cd) with
          | Some (JNum _) => true
          | _ => false
          end)
    /\ (def_isContinuous def = None ->
        (forall row, In row (rows cd) -> eq_null (get row (def_key def)) = true) ->
        isContinuous c = false)
    /\ (def_isContinuous def = None ->
        (exists row, In row (rows cd) /\ eq_null (get row (def_key def)) = false) ->
        (forall row, In row (rows cd) ->
           eq_null (get row (def_key def)) = true
           \/ exists n, get row (def_key def) = JNum n) ->
        isContinuous c = true).
Proof.
  intros Hlast cd. exists (Column (_addContinuous def (_createRows raw))).
  assert (Hnone : def_isContinuous def = None ->
            isContinuous (Column (_addContinuous def (_createRows raw)))
            = match first_non_null (def_key def) (_createRows raw) with
              | Some (JNum _) => true
              | _ => false
              end).
  { intros Hd. unfold _addContinuous. rewrite Hd. simpl.
    apply find_row_first_non_null. }
  split; [| split; [| split; [| split; [| split]]]].
  - unfold cd, constructor. simpl. now apply _createColumns_get.
  - unfold _addContinuous. destruct (default false (def_isContinuous def)); reflexivity.
  - intros Hd. unfold _addContinuous. rewrite Hd. simpl. now rewrite Hd.
  - exact Hnone.
  - intros Hd Hall. rewrite (Hnone Hd).
    simpl in Hall. now rewrite first_non_null_none.
  - intros Hd Hex Hall. rewrite (Hnone Hd). simpl in Hex, Hall.
    destruct (first_non_null_number _ _ Hex Hall) as [n ->]. reflexivity.
Qed.

Lemma isContinuous_inferred_witness :
  exists c,
    OrderedMap_get (columns (constructor abc_rows abc_columns)) "a" = Some c
    /\ isContinuous c = true.
Proof.
  destruct (isContinuous_inferred abc_rows []
              [ {| def_key := "b"; def_label := "B"; def_isContinuous := None |} ]
              {| def_key := "a"; def_label := "A"; def_isContinuous := None |})
    as (c & Hget & _ & _ & Hc & _).
  - repeat constructor. simpl. discriminate.
  - exists c. split; [exact Hget |]. rewrite Hc; reflexivity.
Defined.

(** C1 as stated fails: the first row holds a number and a later row a
    string, so not every non-null value of the column is a number, yet
    the column is inferred continuous. *)
Lemma isContinuous_first_value_only :
  let cd := constructor mixed_rows mixed_columns in
  OrderedMap_get (columns cd) "a"
  = Some {| key := "a"; label := "A"; isContinuous := true |}
  /\ isContinuous_as_specified None "a" (rows cd) = false.
Proof.
  split; vm_compute; reflexivity.
Qed.

(** An [isContinuous: false] given explicitly is not kept either: the
    test [col.get('isContinuous') ||] sees it as missing and infers. *)
Lemma isContinuous_false_is_inferred :
  OrderedMap_get
    (columns
       (constructor [ {[ "a" := JNum (Fin 1) ]} ]
          [ {| def_key := "a"; def_label := "A"; def_isContinuous := Some false |} ]))
    "a"
  = Some {| key := "a"; label := "A"; isContinuous := true |}.
Proof.
  vm_compute. reflexivity.
Qed.

End ColumnFacts.

(** ** Validation and delegation *)

Section ValidationFacts.
Import JS ChartData.
Context `{Host}.
Variable this : t.

Lemma _columnError_declared (column : string) (s : state) :
  is_Some (OrderedMap_get (columns this) column) ->
  _columnError this column s = (Normal false, s).
Proof.
  intros [c Hc]. unfold _columnError. now rewrite Hc.
Qed.

Lemma _columnError_undeclared (column : string) (s : state) :
  OrderedMap_get (columns this) column = None ->
  _columnError this column s
  = (Normal true, say s [console_error (column_not_found column)]).
Proof.
  intros Hc. unfold _columnError. now rewrite Hc.
Qed.

Lemma _indexError_negative (index : number) (max : option Z) (integer : bool)
    (s : state) :
  num_lt index (Fin 0) = true ->
  _indexError index max integer s
  = (Normal true, say s [console_error (index_smaller_than_0 index)]).
Proof.
  intros Hneg. unfold _indexError. now rewrite Hneg.
Qed.

Lemma _indexError_decimal (index : number) (s : state) :
  num_lt index (Fin 0) = false ->
  num_eq (Math_round index) index = false ->
  _indexError index None true s
  = (Normal true, say s [console_error (index_decimal index)]).
Proof.
  intros Hneg Hdec. unfold _indexError. now rewrite Hneg, Hdec.
Qed.

(** X18.  An undeclared column: every query returns [null], having
    reported the column on the console, and memoizes nothing. *)
Lemma undeclared_column_null (column : string) (s : state) :
  OrderedMap_get (columns this) column = None ->
  let s' := say s [console_error (column_not_found column)] in
  getColumnData this column s = (Normal null, s')
  /\ getUniqueValues this column s = (Normal null, s')
  /\ makeFrames this column s = (Normal null, s')
  /\ (forall index, frameAtIndex this column index s = (Normal null, s'))
  /\ (forall primary index,
        frameAtIndexInterpolated this column primary index s = (Normal null, s'))
  /\ (forall op, _aggregation this op (one_column column) s = (Normal null, s')).
Proof.
  intros Hc s'.
  unfold getColumnData, getUniqueValues, makeFrames, frameAtIndex,
    frameAtIndexInterpolated, _aggregation, bind; simpl.
  rewrite (_columnError_undeclared _ _ Hc). fold s'.
  repeat split; try reflexivity.
  intros op. unfold bind. rewrite (_columnError_undeclared _ _ Hc). reflexivity.
Qed.

(** A negative index, or a fractional one where [frameAtIndex] needs an
    integer: [null], with the index reported on the console. *)
Lemma invalid_index_null (column : string) (index : number) (s : state) :
  is_Some (OrderedMap_get (columns this) column) ->
  (num_lt index (Fin 0) = true ->
   frameAtIndex this column index s
   = (Normal null, say s [console_error (index_smaller_than_0 index)]))
  /\ (num_lt index (Fin 0) = false -> num_eq (Math_round index) index = false ->
      frameAtIndex this column index s
      = (Normal null, say s [console_error (index_decimal index)])).
Proof.
  intros Hc. split.
  - intros Hneg. unfold frameAtIndex, bind.
    rewrite (_columnError_declared _ _ Hc).
    now rewrite (_indexError_negative _ _ _ _ Hneg).
  - intros Hneg Hdec. unfold frameAtIndex, bind.
    rewrite (_columnError_declared _ _ Hc).
    now rewrite (_indexError_decimal _ _ Hneg Hdec).
Qed.

(** C6.  With both columns declared and distinct, at an index equal to
    its own rounding, [frameAtIndexInterpolated] is [frameAtIndex]: the
    same result, the same console output, the same memoized entries. *)
Theorem frameAtIndexInterpolated_integral (col primary : string)
    (i : number) (s : state) :
  is_Some (OrderedMap_get (columns this) col) ->
  is_Some (OrderedMap_get (columns this) primary) ->
  col <> primary ->
  num_eq i (Math_round i) = true ->
  frameAtIndexInterpolated this col primary i s = frameAtIndex this col i s.
Proof.
  intros Hcol Hprimary Hne Hint.
  unfold frameAtIndexInterpolated, bind.
  rewrite (_columnError_declared _ _ Hcol), (_columnError_declared _ _ Hprimary).
  destruct (num_lt i (Fin 0)) eqn:Hneg.
  - rewrite (_indexError_negative _ _ _ _ Hneg).
    unfold frameAtIndex, bind. rewrite (_columnError_declared _ _ Hcol).
    now rewrite (_indexError_negative _ _ _ _ Hneg).
  - unfold _indexError at 1. rewrite Hneg. simpl. unfold ret at 1.
    destruct (String.eqb col primary) eqn:E.
    + apply String.eqb_eq in E. contradiction.
    + now rewrite Hint.
Qed.

End ValidationFacts.

Section ValidationExamples.
Import JS ChartData.
Existing Instance ReferenceHost.host.

Lemma frameAtIndexInterpolated_integral_witness :
  frameAtIndexInterpolated price_data "day" "price" (Fin 1) fresh
  = frameAtIndex price_data "day" (Fin 1) fresh.
Proof.
  apply (frameAtIndexInterpolated_integral price_data "day" "price" (Fin 1) fresh).
  - vm_compute. eauto.
  - vm_compute. eauto.
  - discriminate.
  - reflexivity.
Defined.

(** C2 fails on a store with a single frame.  [_indexError] tests
    [max && index > max], and with one frame [max] is [0], which is falsy:
    the upper bound is not checked.  [frameAtIndex] at index 1 then
    returns a store without rows instead of [null], and
    [frameAtIndexInterpolated] at 1.5 reads a frame that is not there and
    throws. *)
Lemma frameAtIndex_beyond_single_frame :
  result_of (makeFrames one_day "day" fresh)
  = Normal (VFrames [ [ {[ "day" := JNum (Fin 1); "price" := JNum (Fin 10) ]} ] ])
  /\ result_of (frameAtIndex one_day "day" (Fin 1) fresh)
     = Normal (VChartData {| rows := []; columns := columns one_day |})
  /\ console (state_of (frameAtIndex one_day "day" (Fin 1) fresh)) = []
  /\ result_of (frameAtIndexInterpolated one_day "day" "price" (Fin (3 # 2)) fresh)
     = Throw "TypeError".
Proof.
  repeat split; vm_compute; reflexivity.
Qed.

(** With two frames the same calls are refused, as specified. *)
Lemma frameAtIndex_beyond_two_frames :
  result_of (frameAtIndex price_data "day" (Fin 2) fresh) = Normal null
  /\ result_of (frameAtIndexInterpolated price_data "day" "price" (Fin (3 # 2)) fresh)
     = Normal null.
Proof.
  split; vm_compute; reflexivity.
Qed.

End ValidationExamples.

(** ** Every cell is a scalar *)

Section ScalarFacts.
Import JS ChartData.
Context `{Host}.

Lemma isValueValid_scalar (v : jsval) : isValueValid v = true <-> is_scalar v.
Proof.
  split.
  - destruct v; simpl; try discriminate; intros _; unfold is_scalar; eauto.
  - intros [[s ->] | [[n ->] | ->]]; reflexivity.
Qed.

(** What the constructor stores in a cell. *)
Lemma _createRows_cell (raw : list ChartRow) (row : ChartRow) (k : string)
    (v : jsval) :
  In row (_createRows raw) -> row !! k = Some v ->
  exists row0 v0,
    In row0 raw /\ row0 !! k = Some v0
    /\ v = (if isValueValid v0 then v0 else JNull).
Proof.
  unfold _createRows. intros Hin Hk. apply in_map_iff in Hin.
  destruct Hin as (row0 & <- & Hin0). rewrite lookup_fmap in Hk.
  destruct (row0 !! k) as [v0 |] eqn:E0; simpl in Hk; [| discriminate].
  exists row0, v0. repeat split; [assumption | assumption | congruence].
Qed.

Lemma constructor_all_scalars (raw : list ChartRow)
    (defs : list ChartColumnDefinition) :
  all_scalars (constructor raw defs).
Proof.
  intros row k v Hin Hk. simpl in Hin.
  destruct (_createRows_cell _ _ _ _ Hin Hk) as (row0 & v0 & _ & _ & ->).
  apply isValueValid_scalar. destruct (isValueValid v0) eqn:E; [exact E | reflexivity].
Qed.

Lemma OrderedMap_set_In {V} (m : list (string * V)) (k k0 : string) (v v0 : V) :
  In (k0, v0) (OrderedMap_set k v m) -> (k0 = k /\ v0 = v) \/ In (k0, v0) m.
Proof.
  induction m as [| [k1 v1] m IH]; simpl.
  - intros [[= <- <-] | []]. now left.
  - destruct (String.eqb k1 k) eqn:E; simpl.
    + apply String.eqb_eq in E. subst k1.
      intros [[= <- <-] | Hin]; [now left | right; now right].
    + intros [Heq | Hin]; [right; now left |].
      destruct (IH Hin) as [Hnew | Hold]; [now left | right; now right].
Qed.

Lemma _createColumns_wf (defs : list ChartColumnDefinition) (rows : list ChartRow) :
  columns_wf (_createColumns defs rows).
Proof.
  unfold _createColumns.
  assert (Hacc : forall acc, columns_wf acc ->
            columns_wf
              (fold_left
                 (fun map col =>
                    OrderedMap_set (def_key col) (Column (_addContinuous col rows)) map)
                 defs acc)).
  { induction defs as [| d defs IH]; intros acc Hacc; simpl; [exact Hacc |].
    apply IH. destruct Hacc as [Hnd Hkeys]. split.
    - now apply OrderedMap_set_NoDup.
    - intros k c Hin. apply OrderedMap_set_In in Hin.
      destruct Hin as [[-> ->] | Hin]; [| now apply Hkeys].
      unfold _addContinuous. destruct (default false (def_isContinuous d)); reflexivity. }
  apply Hacc. split; [constructor | intros k c []].
Qed.

Lemma constructor_wf (raw : list ChartRow) (defs : list ChartColumnDefinition) :
  store_wf (constructor raw defs).
Proof.
  split; [apply constructor_all_scalars | apply _createColumns_wf].
Qed.

Lemma keeps_ret {A} cd (P : A -> Prop) (a : A) : P a -> keeps cd P (ret a).
Proof.
  intros Ha s Hs. split; [exact Hs |]. simpl. intros a' [= <-]. exact Ha.
Qed.

Lemma keeps_throw {A} cd (P : A -> Prop) (e : string) : keeps cd P (throw e).
Proof.
  intros s Hs. split; [exact Hs |]. simpl. discriminate.
Qed.

Lemma keeps_bind {A B} cd (P : A -> Prop) (Q : B -> Prop) (c : M A) (k : A -> M B) :
  keeps cd P c -> (forall a, P a -> keeps cd Q (k a)) -> keeps cd Q (bind c k).
Proof.
  intros Hc Hk s Hs. unfold bind. destruct (Hc s Hs) as [Hs' Hres].
  destruct (c s) as [[a | e] s']; simpl in *.
  - apply Hk; [now apply Hres | exact Hs'].
  - split; [exact Hs' | discriminate].
Qed.

Lemma keeps_tell cd (out : list entry) : keeps cd (fun _ => True) (tell out).
Proof.
  intros s Hs. split; [exact Hs | trivial].
Qed.

Lemma keeps_weaken {A} cd (P Q : A -> Prop) (c : M A) :
  (forall a, P a -> Q a) -> keeps cd P c -> keeps cd Q c.
Proof.
  intros HPQ Hc s Hs. destruct (Hc s Hs) as [Hs' Hres]. split; [exact Hs' |].
  intros a Ha. auto.
Qed.

Lemma keeps__memoize cd (key : string) (fn : M value) :
  keeps cd (entry_ok cd key) fn -> keeps cd (entry_ok cd key) (_memoize key fn).
Proof.
  intros Hfn s Hs. unfold _memoize.
  destruct (_memos s !! key) as [v |] eqn:Hk.
  - split; [exact Hs |]. simpl. intros a [= <-]. exact (Hs _ _ Hk).
  - destruct (Hfn s Hs) as [Hs' Hres].
    destruct (fn s) as [[v | e] s']; simpl in *.
    + split.
      * intros k' v' Hk'. simpl in Hk'.
        destruct (decide (key = k')) as [-> | Hne].
        -- rewrite lookup_insert_eq in Hk'. injection Hk' as <-. now apply Hres.
        -- rewrite lookup_insert_ne in Hk' by assumption. exact (Hs' _ _ Hk').
      * intros a [= <-]. now apply Hres.
    + split; [exact Hs' | discriminate].
Qed.

Lemma keeps__columnError cd (this : t) (column : string) :
  keeps cd (fun _ => True) (_columnError this column).
Proof.
  unfold _columnError. destruct (OrderedMap_get (columns this) column).
  - now apply keeps_ret.
  - eapply keeps_bind; [apply keeps_tell |]. intros _ _. now apply keeps_ret.
Qed.

Lemma keeps__columnListError cd (this : t) (columnList : list string) :
  keeps cd (fun _ => True) (_columnListError this columnList).
Proof.
  induction columnList as [| c l IH]; simpl.
  - now apply keeps_ret.
  - eapply keeps_bind; [apply keeps__columnError |].
    intros [|] _; [now apply keeps_ret | exact IH].
Qed.

Lemma keeps__indexError cd (index : number) (max : option Z) (integer : bool) :
  keeps cd (fun _ => True) (_indexError index max integer).
Proof.
  unfold _indexError.
  repeat match goal with
         | |- keeps _ _ (if ?b then _ else _) => destruct b
         | |- keeps _ _ (match ?m with Some _ => _ | None => _ end) => destruct m
         | |- keeps _ _ (bind _ _) =>
             eapply keeps_bind; [apply keeps_tell | intros _ _]
         | |- keeps _ _ (ret _) => now apply keeps_ret
         end.
Qed.

Lemma append_inj (p a b : string) : p +:+ a = p +:+ b -> a = b.
Proof.
  induction p as [| ch p IH]; simpl; [trivial |]. intros [= E]. now apply IH.
Qed.

Lemma entry_ok_scalar cd (k : string) (v : jsval) :
  (forall c, k <> "makeFrames." +:+ c) ->
  (forall c, k <> "getUniqueValues." +:+ c) ->
  entry_ok cd k (VScalar v).
Proof.
  intros H1 H2. split; [exact I |]. split; intros c E; [now apply H1 in E | now apply H2 in E].
Qed.

Lemma entry_ok_store cd (k : string) (cd' : t) :
  (forall c, k <> "makeFrames." +:+ c) ->
  (forall c, k <> "getUniqueValues." +:+ c) ->
  store_wf cd' ->
  entry_ok cd k (VChartData cd').
Proof.
  intros H1 H2 Hwf. split; [exact Hwf |].
  split; intros c E; [now apply H1 in E | now apply H2 in E].
Qed.

Lemma entry_ok_good cd k (v : value) : entry_ok cd k v -> good_value v.
Proof. intros Hv. exact (proj1 Hv). Qed.

Lemma null_or_good cd k (v : value) : null_or (entry_ok cd k) v -> good_value v.
Proof.
  intros [-> | Hv]; [exact I | exact (proj1 Hv)].
Qed.

Lemma keeps_makeFrames (this : t) (column : string) :
  keeps this (null_or (entry_ok this ("makeFrames." +:+ column)))
    (makeFrames this column).
Proof.
  unfold makeFrames.
  eapply keeps_bind; [apply keeps__columnError |].
  intros [|] _; [apply keeps_ret; now left |].
  eapply keeps_weaken; [intros a Ha; right; exact Ha |].
  apply keeps__memoize. apply keeps_ret.
  split; [exact I |]. split.
  - intros c E. apply append_inj in E. now subst c.
  - other_key.
Qed.

Lemma keeps_getUniqueValues (this : t) (column : string) :
  keeps this (null_or (entry_ok this ("getUniqueValues." +:+ column)))
    (getUniqueValues this column).
Proof.
  unfold getUniqueValues.
  eapply keeps_bind; [apply keeps__columnError |].
  intros [|] _; [apply keeps_ret; now left |].
  eapply keeps_weaken; [intros a Ha; right; exact Ha |].
  apply keeps__memoize. apply keeps_ret.
  split; [exact I |]. split.
  - other_key.
  - intros c E. apply append_inj in E. now subst c.
Qed.

Lemma keeps_getColumnData (this : t) (column : string) :
  keeps this good_value (getColumnData this column).
Proof.
  unfold getColumnData.
  eapply keeps_bind; [apply keeps__columnError |].
  intros [|] _; [now apply keeps_ret |].
  eapply keeps_weaken; [apply entry_ok_good |].
  apply keeps__memoize. apply keeps_ret.
  split; [exact I |]. split; other_key.
Qed.

Lemma keeps__aggregation (this : t) (op : operation) (columns : ChartColumnArg) :
  keeps this good_value (_aggregation this op columns).
Proof.
  unfold _aggregation.
  eapply keeps_bind; [apply keeps__columnListError |].
  intros [|] _; [now apply keeps_ret |].
  eapply keeps_weaken; [apply entry_ok_good |].
  apply keeps__memoize. apply keeps_ret.
  apply entry_ok_scalar; intros c E; destruct op; simpl in E; discriminate E.
Qed.

Lemma keeps_frameAtIndex (this : t) (frameColumn : string) (index : number) :
  keeps this good_value (frameAtIndex this frameColumn index).
Proof.
  unfold frameAtIndex.
  eapply keeps_bind; [apply keeps__columnError |].
  intros [|] _; [now apply keeps_ret |].
  eapply keeps_bind; [apply keeps__indexError |].
  intros [|] _; [now apply keeps_ret |].
  eapply keeps_weaken; [apply entry_ok_good |].
  apply keeps__memoize.
  eapply keeps_bind; [apply keeps_makeFrames |].
  intros [ | | frames | ] _; try apply keeps_throw.
  eapply keeps_bind; [apply keeps__indexError |].
  intros [|] _; apply keeps_ret.
  - apply entry_ok_scalar; other_key.
  - apply entry_ok_store; [other_key | other_key | apply constructor_wf].
Qed.

Lemma keeps_frameAtIndexInterpolated (this : t) (frameColumn primaryColumn : string)
    (index : number) :
  keeps this good_value
    (frameAtIndexInterpolated this frameColumn primaryColumn index).
Proof.
  unfold frameAtIndexInterpolated.
  eapply keeps_bind; [apply keeps__columnError |].
  intros [|] _; [now apply keeps_ret |].
  eapply keeps_bind; [apply keeps__columnError |].
  intros [|] _; [now apply keeps_ret |].
  eapply keeps_bind; [apply keeps__indexError |].
  intros [|] _; [now apply keeps_ret |].
  destruct (String.eqb frameColumn primaryColumn).
  { eapply keeps_bind; [apply keeps_tell |]. intros _ _. now apply keeps_ret. }
  destruct (num_eq index (Math_round index)); [apply keeps_frameAtIndex |].
  eapply keeps_bind; [apply keeps_makeFrames |].
  intros [ | | frames | ] _; try apply keeps_throw.
  eapply keeps_bind; [apply keeps__indexError |].
  intros [|] _; [now apply keeps_ret |].
  eapply keeps_bind; [apply keeps_getUniqueValues |].
  intros [ | all | | ] _; try apply keeps_throw.
  destruct (List_get frames (Math_floor index)), (List_get frames (Math_ceil index));
    try apply keeps_throw.
  eapply keeps_bind; [apply keeps_tell |]. intros _ _.
  apply keeps_ret. apply constructor_wf.
Qed.

Lemma keeps_run (this : t) (q : query) : keeps this good_value (run this q).
Proof.
  destruct q; simpl.
  - apply keeps_getColumnData.
  - eapply keeps_weaken; [apply null_or_good | apply keeps_getUniqueValues].
  - eapply keeps_weaken; [apply null_or_good | apply keeps_makeFrames].
  - apply keeps_frameAtIndex.
  - apply keeps_frameAtIndexInterpolated.
  - apply keeps__aggregation.
Qed.

Lemma memo_ok_empty (cd : t) (out : list entry) :
  memo_ok cd {| _memos := ∅; console := out |}.
Proof.
  intros k v Hk. simpl in Hk. now rewrite lookup_empty in Hk.
Qed.

(** Every reachable store is well formed and its memo object is in
    order. *)
Lemma reachable_ok (cd : t) (s : state) :
  reachable cd s -> store_wf cd /\ memo_ok cd s.
Proof.
  induction 1 as [raw defs out | cd s updater out _ _ | cd s mapper out _ _
                 | cd s q _ [IHcd IHs] | cd s q cd' out _ [IHcd IHs] Hres].
  - split; [apply constructor_wf | apply memo_ok_empty].
  - split; [apply constructor_wf | apply memo_ok_empty].
  - split; [apply constructor_wf | apply memo_ok_empty].
  - split; [exact IHcd |]. now apply keeps_run.
  - split; [| apply memo_ok_empty].
    destruct (keeps_run cd q s IHs) as [_ Hgood]. exact (Hgood _ Hres).
Qed.

(** C10.  Every cell of every reachable store is a string, a number or
    [null]. *)
Theorem reachable_all_scalars (cd : t) (s : state) :
  reachable cd s -> all_scalars cd.
Proof.
  intros Hr. exact (proj1 (proj1 (reachable_ok cd s Hr))).
Qed.

(** A cell that is not a scalar is stored as [null], whatever the row
    comes from: here from an updater. *)
Lemma updateRows_sanitizes (this : t) (updater : list ChartRow -> list ChartRow)
    (row : ChartRow) (k : string) (v : jsval) :
  In row (rows (updateRows this updater)) -> row !! k = Some v ->
  exists row0 v0,
    In row0 (updater (rows this)) /\ row0 !! k = Some v0
    /\ v = (if isValueValid v0 then v0 else JNull).
Proof.
  unfold updateRows. simpl. apply _createRows_cell.
Qed.

End ScalarFacts.

Section ScalarExamples.
Import JS ChartData.
Existing Instance ReferenceHost.host.

Lemma reachable_all_scalars_witness :
  all_scalars
    (updateRows price_data (fun _ => [ {[ "day" := JBool true; "price" := JObject 1 ]} ])).
Proof.
  apply (reachable_all_scalars _ {| _memos := ∅; console := [] |}).
  apply (reach_updateRows price_data fresh). apply reach_new.
Defined.

Lemma updateRows_boolean_cell :
  rows (updateRows price_data
          (fun _ => [ {[ "day" := JBool true; "price" := JObject 1 ]} ]))
  = [ {[ "day" := JNull; "price" := JNull ]} ].
Proof.
  vm_compute. reflexivity.
Qed.

End ScalarExamples.

(** ** Grouping and distinct values *)

Section GroupingFacts.
Import JS ChartData.

Lemma num_eq_refl_finite (a : number) : a <> NaN -> num_eq a a = true.
Proof.
  destruct a; simpl; try reflexivity; [intros _; apply Qeq_bool_refl | congruence].
Qed.

Lemma num_eq_trans (a b c : number) :
  num_eq a b = true -> num_eq b c = true -> num_eq a c = true.
Proof.
  destruct a, b, c; simpl; try discriminate; try reflexivity.
  apply Qeq_bool_trans.
Qed.

Lemma Immutable_is_refl (a : jsval) : Immutable_is a a = true.
Proof.
  destruct a as [ | | [|] | [q | | | ] | s | r]; simpl; try reflexivity.
  - apply Qeq_bool_refl.
  - apply String.eqb_refl.
  - apply Pos.eqb_refl.
Qed.

Lemma Immutable_is_sym (a b : jsval) : Immutable_is a b = Immutable_is b a.
Proof.
  destruct a as [ | | [|] | [x | | | ] | x | x],
           b as [ | | [|] | [y | | | ] | y | y]; simpl; try reflexivity.
  - apply Qeq_bool_comm.
  - apply String.eqb_sym.
  - apply Pos.eqb_sym.
Qed.

Lemma Immutable_is_trans (a b c : jsval) :
  Immutable_is a b = true -> Immutable_is b c = true -> Immutable_is a c = true.
Proof.
  destruct a as [ | | [|] | [x | | | ] | x | x],
           b as [ | | [|] | [y | | | ] | y | y],
           c as [ | | [|] | [z | | | ] | z | z]; simpl;
    try discriminate; try reflexivity.
  - apply Qeq_bool_trans.
  - intros E1 E2. apply String.eqb_eq in E1, E2. subst. apply String.eqb_refl.
  - intros E1 E2. apply Pos.eqb_eq in E1, E2. subst. apply Pos.eqb_refl.
Qed.

(** Two values equal to a third are equal or differ together. *)
Lemma Immutable_is_congr (a b c : jsval) :
  Immutable_is a b = true -> Immutable_is a c = Immutable_is b c.
Proof.
  intros Hab. destruct (Immutable_is b c) eqn:Hbc.
  - exact (Immutable_is_trans _ _ _ Hab Hbc).
  - destruct (Immutable_is a c) eqn:Hac; [| reflexivity].
    rewrite Immutable_is_sym in Hab.
    now rewrite (Immutable_is_trans _ _ _ Hab Hac) in Hbc.
Qed.

Lemma groups_get_update {A} (kv : jsval) (v : A) (groups : list (jsval * list A))
    (k : jsval) :
  groups_get (group_update kv v groups) k
  = if Immutable_is kv k then Some (default [] (groups_get groups k) ++ [v])
    else groups_get groups k.
Proof.
  induction groups as [| [k' vs] rest IH]; simpl.
  - destruct (Immutable_is kv k); reflexivity.
  - destruct (Immutable_is k' kv) eqn:E; simpl.
    + rewrite (Immutable_is_congr _ _ _ E).
      destruct (Immutable_is kv k); reflexivity.
    + destruct (Immutable_is k' k) eqn:Ek.
      * destruct (Immutable_is kv k) eqn:Ekv; [| reflexivity].
        rewrite Immutable_is_sym in Ekv.
        now rewrite (Immutable_is_trans _ _ _ Ek Ekv) in E.
      * apply IH.
Qed.

Lemma groups_get_fold {A} (grouper : A -> jsval) (l : list A)
    (acc : list (jsval * list A)) (k : jsval) :
  groups_get (fold_left (fun groups v => group_update (grouper v) v groups) l acc) k
  = match groups_get acc k with
    | Some vs =>
        Some (vs ++ List.filter (fun v => Immutable_is (grouper v) k) l)
    | None =>
        match List.filter (fun v => Immutable_is (grouper v) k) l with
        | [] => None
        | vs => Some vs
        end
    end.
Proof.
  revert acc. induction l as [| v l IH]; intros acc; simpl.
  - destruct (groups_get acc k); [now rewrite app_nil_r | reflexivity].
  - rewrite IH, groups_get_update.
    destruct (Immutable_is (grouper v) k); simpl.
    + destruct (groups_get acc k); simpl; [now rewrite <- app_assoc | reflexivity].
    + reflexivity.
Qed.

(** The group found under a key holds the elements with that key, in
    order; there is no group when there is no such element. *)
Lemma groups_get_groupBy {A} (grouper : A -> jsval) (l : list A) (k : jsval) :
  groups_get (groupBy grouper l) k
  = match List.filter (fun v => Immutable_is (grouper v) k) l with
    | [] => None
    | vs => Some vs
    end.
Proof.
  unfold groupBy. now rewrite groups_get_fold.
Qed.

Lemma find_filter {A} (P : A -> bool) (l : list A) :
  List.find P l = head (List.filter P l).
Proof.
  induction l as [| x l IH]; simpl; [reflexivity |].
  destruct (P x); [reflexivity | exact IH].
Qed.

(** [toOrderedSet] keeps one representative of each value, the first. *)
Lemma toOrderedSet_acc_In (l acc : list jsval) (v : jsval) :
  In v (fold_left OrderedSet_add l acc) -> In v acc \/ In v l.
Proof.
  revert acc. induction l as [| x l IH]; intros acc; simpl; [now left |].
  intros Hin. apply IH in Hin. destruct Hin as [Hin | Hin]; [| right; now right].
  unfold OrderedSet_add in Hin.
  destruct (existsb (fun u => Immutable_is u x) acc); [now left |].
  apply in_app_or in Hin. destruct Hin as [Hin | [<- | []]]; [now left | right; now left].
Qed.

Lemma toOrderedSet_In (l : list jsval) (v : jsval) :
  In v (toOrderedSet l) -> In v l.
Proof.
  intros Hin. apply toOrderedSet_acc_In in Hin. now destruct Hin.
Qed.

Lemma toOrderedSet_acc_covers (l acc : list jsval) (v : jsval) :
  (exists u, In u acc /\ Immutable_is u v = true) \/ In v l ->
  exists u, In u (fold_left OrderedSet_add l acc) /\ Immutable_is u v = true.
Proof.
  revert acc. induction l as [| x l IH]; intros acc; simpl.
  - intros [Hacc | []]. exact Hacc.
  - intros Hv. apply IH. unfold OrderedSet_add.
    destruct (existsb (fun u => Immutable_is u x) acc) eqn:E.
    + destruct Hv as [Hacc | [<- | Hl]]; [now left | | now right].
      left. apply existsb_exists in E. exact E.
    + destruct Hv as [(u & Hu & Huv) | [<- | Hl]]; [| | now right].
      * left. exists u. split; [apply in_or_app; now left | exact Huv].
      * left. exists x. split; [apply in_or_app; right; now left |].
        apply Immutable_is_refl.
Qed.

Lemma toOrderedSet_covers (l : list jsval) (v : jsval) :
  In v l -> exists u, In u (toOrderedSet l) /\ Immutable_is u v = true.
Proof.
  intros Hin. apply toOrderedSet_acc_covers. now right.
Qed.

Lemma distinct_snoc (l : list jsval) (v : jsval) :
  distinct l -> existsb (fun u => Immutable_is u v) l = false -> distinct (l ++ [v]).
Proof.
  induction 1 as [| x l Hx Hl IH]; simpl; intros E.
  - constructor; [intros u [] | constructor].
  - apply orb_false_iff in E. destruct E as [Exv E]. constructor.
    + intros u Hu. apply in_app_or in Hu.
      destruct Hu as [Hu | [<- | []]]; [now apply Hx | exact Exv].
    + now apply IH.
Qed.

Lemma toOrderedSet_distinct (l : list jsval) : distinct (toOrderedSet l).
Proof.
  unfold toOrderedSet.
  assert (Hacc : forall acc, distinct acc -> distinct (fold_left OrderedSet_add l acc)).
  { induction l as [| x l IH]; intros acc Hacc; simpl; [exact Hacc |].
    apply IH. unfold OrderedSet_add.
    destruct (existsb (fun u => Immutable_is u x) acc) eqn:E; [exact Hacc |].
    now apply distinct_snoc. }
  apply Hacc. constructor.
Qed.

End GroupingFacts.

(** ** Interpolation between two frames *)

Section InterpolationFacts.
Import JS ChartData.
Context `{Host}.

Lemma Qlt_bool_iff (x y : Q) : Qlt_bool x y = true <-> (x < y)%Q.
Proof.
  unfold Qlt_bool. rewrite andb_true_iff, negb_true_iff, Qle_bool_iff. split.
  - intros [Hle Hne]. apply Qeq_bool_neq in Hne.
    apply Qle_lteq in Hle. destruct Hle as [Hlt | Heq]; [exact Hlt | contradiction].
  - intros Hlt. split; [now apply Qlt_le_weak |].
    destruct (Qeq_bool x y) eqn:E; [| reflexivity].
    apply Qeq_bool_iff in E. rewrite E in Hlt. now apply Qlt_irrefl in Hlt.
Qed.

Lemma Qlt_bool_false (x y : Q) : (y <= x)%Q -> Qlt_bool x y = false.
Proof.
  intros Hle. destruct (Qlt_bool x y) eqn:E; [| reflexivity].
  apply Qlt_bool_iff in E. now apply Qle_not_lt in Hle.
Qed.

Lemma Qeq_bool_false (x y : Q) : ~ (x == y)%Q -> Qeq_bool x y = false.
Proof.
  intros Hne. destruct (Qeq_bool x y) eqn:E; [| reflexivity].
  now apply Qeq_bool_iff in E.
Qed.

Section Fractional.
Variable q : Q.
Hypothesis fractional : ~ (q == inject_Z (Qfloor q))%Q.

Lemma fractional_not_rounded : num_eq (Fin q) (Math_round (Fin q)) = false.
Proof.
  simpl. apply Qeq_bool_false. intros E. apply fractional.
  rewrite (Qfloor_comp _ _ E), Qfloor_Z. exact E.
Qed.

Lemma floor_below : (inject_Z (Qfloor q) < q)%Q.
Proof.
  pose proof (Qfloor_le q) as Hle. apply Qle_lteq in Hle.
  destruct Hle as [Hlt | Heq]; [exact Hlt |]. symmetry in Heq. contradiction.
Qed.

Lemma ceiling_is_next : Qceiling q = (Qfloor q + 1)%Z.
Proof.
  pose proof floor_below as Hlo. pose proof (Qlt_floor q) as Hhi.
  pose proof (Qle_ceiling q) as Hc1. pose proof (Qceiling_lt q) as Hc2.
  assert (H1 : (Qfloor q < Qceiling q)%Z).
  { rewrite Zlt_Qlt. eapply Qlt_le_trans; eassumption. }
  assert (H2 : (Qceiling q - 1 < Qfloor q + 1)%Z).
  { rewrite Zlt_Qlt. eapply Qlt_trans; eassumption. }
  lia.
Qed.

Lemma blend_not_0 : num_eq (Fin (q - inject_Z (Qfloor q))) (Fin 0) = false.
Proof.
  simpl. apply Qeq_bool_false. intros E. apply fractional. lra.
Qed.

Lemma blend_not_1 : num_eq (Fin (q - inject_Z (Qfloor q))) (Fin 1) = false.
Proof.
  simpl. apply Qeq_bool_false. intros E.
  pose proof (Qlt_floor q) as Hhi. rewrite inject_Z_plus in Hhi.
  change (inject_Z 1) with 1%Q in Hhi. lra.
Qed.

Lemma blend_inside :
  num_lt (Fin (q - inject_Z (Qfloor q))) (Fin 0) = false
  /\ num_gt (Fin (q - inject_Z (Qfloor q))) (Fin 1) = false.
Proof.
  pose proof floor_below as Hlo. pose proof (Qlt_floor q) as Hhi.
  rewrite inject_Z_plus in Hhi. change (inject_Z 1) with 1%Q in Hhi. split.
  - simpl. apply Qlt_bool_false. lra.
  - unfold num_gt. simpl. apply Qlt_bool_false. lra.
Qed.

End Fractional.

(** The blend of an index that is not negative: the index minus its
    floor, which the host computes exactly. *)
Lemma blend_exact (index : Q) :
  (0 <= index)%Q ->
  num_sub (Fin index) (Fin (inject_Z (Qfloor index)))
  = Fin (index - inject_Z (Qfloor index)).
Proof.
  intros Hindex. unfold num_sub. simpl. now apply float_sub_floor.
Qed.

(** At a blend strictly between 0 and 1, interpolating cells that are
    scalars or missing gives a scalar. *)
Lemma lerp_valid (a b : jsval) (blend : number) :
  num_eq blend (Fin 0) = false -> num_eq blend (Fin 1) = false ->
  isValueValid a = true \/ a = JUndefined ->
  isValueValid (fst (lerp a b blend)) = true.
Proof.
  intros H0 H1 Ha. unfold lerp. rewrite H0, H1.
  destruct (num_lt blend (Fin 0) || num_gt blend (Fin 1)); [reflexivity |].
  destruct Ha as [Ha | ->]; [| reflexivity].
  destruct a, b; simpl in *; try reflexivity; try discriminate.
Qed.

End InterpolationFacts.

Section InterpolatedRows.
Import JS ChartData.
Context `{Host}.

Lemma OrderedMap_get_None {V} (m : list (string * V)) (k : string) :
  ~ In k (map fst m) -> OrderedMap_get m k = None.
Proof.
  induction m as [| [k0 v0] m IH]; simpl; [reflexivity |].
  intros Hk. destruct (String.eqb k0 k) eqn:E.
  - apply String.eqb_eq in E. tauto.
  - apply IH. tauto.
Qed.

Lemma OrderedMap_get_In {V} (m : list (string * V)) (k : string) (v : V) :
  OrderedMap_get m k = Some v -> In (k, v) m.
Proof.
  induction m as [| [k0 v0] m IH]; simpl; [discriminate |].
  destruct (String.eqb k0 k) eqn:E.
  - apply String.eqb_eq in E. intros [= <-]. left. now subst.
  - intros Hm. right. now apply IH.
Qed.

(** The row that [columns.reduce] builds, read key by key. *)
Lemma reduce_lookup (cols : list (string * ChartColumn))
    (val : ChartColumn -> jsval * list entry)
    (acc : ChartRow * list entry) (k : string) :
  columns_wf cols ->
  fst (fold_left
         (fun (acc : ChartRow * list entry) (kc : string * ChartColumn) =>
            let column := snd kc in
            let (value, o) := val column in
            (<[key column := value]> (fst acc), snd acc ++ o))
         cols acc) !! k
  = match OrderedMap_get cols k with
    | Some c => Some (fst (val c))
    | None => fst acc !! k
    end.
Proof.
  revert acc. induction cols as [| [k0 c0] cols IH]; intros acc [Hnd Hkeys]; simpl.
  - reflexivity.
  - inversion Hnd as [| ? ? Hk0 Hnd']; subst.
    assert (Hc0 : key c0 = k0) by (apply Hkeys; now left).
    rewrite IH by (split; [assumption | intros k' c' Hin; apply Hkeys; now right]).
    destruct (val c0) as [value o] eqn:Ev. simpl.
    destruct (String.eqb k0 k) eqn:E.
    + apply String.eqb_eq in E. subst k.
      rewrite OrderedMap_get_None
        by (intros Hin; apply Hk0; now apply list_elem_of_In).
      rewrite Hc0, lookup_insert_eq, Ev. reflexivity.
    + destruct (OrderedMap_get cols k); [reflexivity |].
      apply lookup_insert_ne. rewrite Hc0. intros ->.
      now rewrite String.eqb_refl in E.
Qed.

Lemma interpolated_row_lookup (cols : list (string * ChartColumn))
    (primaryColumn : string) (blend : number) (rowA rowB : ChartRow) (k : string) :
  interpolated_row cols primaryColumn blend rowA rowB !! k
  = interpolated_cell primaryColumn blend rowA rowB <$> OrderedMap_get cols k.
Proof.
  unfold interpolated_row. induction cols as [| [k0 c0] cols IH]; simpl.
  - apply lookup_empty.
  - destruct (String.eqb k0 k) eqn:E.
    + apply String.eqb_eq in E. subst k. apply lookup_insert_eq.
    + rewrite lookup_insert_ne; [exact IH |]. intros ->.
      now rewrite String.eqb_refl in E.
Qed.

Lemma getRowFromFrame_first (frameColumn primaryColumn : string)
    (frame : list ChartRow) (primaryValue : jsval) :
  fst (getRowFromFrame frameColumn primaryColumn
         (groupBy (fun ii => get ii primaryColumn) frame) primaryValue)
  = first_match primaryColumn frame primaryValue.
Proof.
  unfold getRowFromFrame, first_match.
  rewrite groups_get_groupBy, find_filter.
  destruct (List.filter _ frame) as [| first others]; reflexivity.
Qed.

(** The cell the constructor stores for a scalar or missing cell. *)
Lemma sanitize_get (row : ChartRow) (k : string) :
  (forall v, row !! k = Some v -> is_scalar v) ->
  (if isValueValid (get row k) then get row k else JNull) = cell_or_null row k.
Proof.
  intros Hrow. unfold get, cell_or_null.
  destruct (row !! k) as [v |] eqn:E; simpl; [| reflexivity].
  specialize (Hrow v eq_refl). apply isValueValid_scalar in Hrow. now rewrite Hrow.
Qed.

Lemma get_valid_or_undefined (row : ChartRow) (k : string) :
  (forall v, row !! k = Some v -> is_scalar v) ->
  isValueValid (get row k) = true \/ get row k = JUndefined.
Proof.
  intros Hrow. unfold get. destruct (row !! k) as [v |] eqn:E; simpl; [| now right].
  left. apply isValueValid_scalar. now apply Hrow.
Qed.

(** One step of [allPrimaryValues.map], after the constructor has
    sanitized its row. *)
Lemma interpolate_row_sanitized (this : t) (frameColumn primaryColumn : string)
    (frameA frameB : list ChartRow) (blend : number) (primaryValue : jsval) :
  columns_wf (columns this) ->
  (forall row k v, In row frameA -> row !! k = Some v -> is_scalar v) ->
  num_eq blend (Fin 0) = false -> num_eq blend (Fin 1) = false ->
  fmap (M := option)
    (fun row : ChartRow =>
       (fun cell => if isValueValid cell then cell else JNull) <$> row)
    (fst (interpolate_row this frameColumn primaryColumn
            (groupBy (fun ii => get ii primaryColumn) frameA)
            (groupBy (fun ii => get ii primaryColumn) frameB)
            blend primaryValue))
  = match first_match primaryColumn frameA primaryValue,
          first_match primaryColumn frameB primaryValue with
    | Some rowA, Some rowB =>
        Some (interpolated_row (columns this) primaryColumn blend rowA rowB)
    | _, _ => None
    end.
Proof.
  intros Hwf HA H0 H1. unfold interpolate_row.
  pose proof (getRowFromFrame_first frameColumn primaryColumn frameA primaryValue) as EA.
  pose proof (getRowFromFrame_first frameColumn primaryColumn frameB primaryValue) as EB.
  destruct (getRowFromFrame frameColumn primaryColumn
              (groupBy (fun ii => get ii primaryColumn) frameA) primaryValue)
    as [rowA outA].
  destruct (getRowFromFrame frameColumn primaryColumn
              (groupBy (fun ii => get ii primaryColumn) frameB) primaryValue)
    as [rowB outB].
  simpl in EA, EB. rewrite <- EA, <- EB.
  destruct rowA as [rowA |]; [| reflexivity].
  destruct rowB as [rowB |]; [| reflexivity].
  assert (HrowA : In rowA frameA).
  { symmetry in EA. unfold first_match in EA. now apply find_some in EA. }
  match goal with
  | |- context [fold_left ?f ?l ?a] =>
      pose proof (fun k =>
        reduce_lookup (columns this)
          (fun column =>
             if isContinuous column && negb (String.eqb (key column) primaryColumn)
             then lerp (get rowA (key column)) (get rowB (key column)) blend
             else (get rowA (key column), []))
          a k Hwf) as Hlook;
      destruct (fold_left f l a) as [row out] eqn:Efold
  end.
  simpl in *. f_equal. apply map_eq. intros k.
  rewrite lookup_fmap, Hlook, interpolated_row_lookup, lookup_empty.
  destruct (OrderedMap_get (columns this) k) as [c |] eqn:Ec; simpl; [| reflexivity].
  f_equal. unfold interpolated_cell.
  destruct (isContinuous c && negb (String.eqb (key c) primaryColumn)).
  - rewrite lerp_valid; try assumption; [reflexivity |].
    apply get_valid_or_undefined. intros v. now apply HA.
  - simpl. apply sanitize_get. intros v. now apply HA.
Qed.

Lemma omap_map {X Y Z} (g : Y -> option Z) (f : X -> Y) (xs : list X) :
  omap g (map f xs) = omap (fun x => g (f x)) xs.
Proof.
  induction xs as [| x xs IH]; csimpl; [reflexivity |]. now rewrite IH.
Qed.

Lemma map_omap {A B C} (f : A -> option B) (g : B -> C) (l : list A) :
  map g (omap f l) = omap (fun x => g <$> f x) l.
Proof.
  induction l as [| x l IH]; csimpl; [reflexivity |].
  destruct (f x); csimpl; now rewrite IH.
Qed.

(** The rows of a group come from the grouped list. *)
Lemma group_update_In {A} (kv : jsval) (v x : A) (groups : list (jsval * list A))
    (vs : list A) :
  In vs (map snd (group_update kv v groups)) -> In x vs ->
  x = v \/ exists vs', In vs' (map snd groups) /\ In x vs'.
Proof.
  induction groups as [| [k' ws] rest IH]; simpl.
  - intros [<- | []] [<- | []]. now left.
  - destruct (Immutable_is k' kv); simpl.
    + intros [<- | Hin] Hx.
      * apply in_app_or in Hx. destruct Hx as [Hx | [<- | []]]; [| now left].
        right. exists ws. split; [now left | exact Hx].
      * right. exists vs. split; [now right | exact Hx].
    + intros [<- | Hin] Hx.
      * right. exists ws. split; [now left | exact Hx].
      * destruct (IH Hin Hx) as [-> | (vs' & Hvs' & Hx')]; [now left |].
        right. exists vs'. split; [now right | exact Hx'].
Qed.

Lemma groupBy_In {A} (grouper : A -> jsval) (l : list A) (vs : list A) (x : A) :
  In vs (map snd (groupBy grouper l)) -> In x vs -> In x l.
Proof.
  unfold groupBy.
  assert (Hacc : forall acc,
            In vs (map snd (fold_left (fun groups v => group_update (grouper v) v groups)
                                      l acc)) ->
            In x vs ->
            In x l \/ exists vs', In vs' (map snd acc) /\ In x vs').
  { induction l as [| v l IH]; intros acc Hvs Hx; simpl in *.
    - right. exists vs. now split.
    - destruct (IH _ Hvs Hx) as [Hl | (vs' & Hvs' & Hx')]; [left; now right |].
      destruct (group_update_In _ _ _ _ _ Hvs' Hx') as [-> | Hacc]; [left; now left |].
      now right. }
  intros Hvs Hx. destruct (Hacc [] Hvs Hx) as [Hl | (vs' & [] & _)]. exact Hl.
Qed.

Lemma makeFrames_declared (this : t) (column : string) (s : state) :
  memo_ok this s -> is_Some (OrderedMap_get (columns this) column) ->
  fst (makeFrames this column s) = Normal (VFrames (frames_of this column))
  /\ memo_ok this (snd (makeFrames this column s)).
Proof.
  intros Hs Hc. split; [| now apply keeps_makeFrames].
  unfold makeFrames, bind. rewrite (_columnError_declared _ _ _ Hc).
  unfold _memoize. destruct (_memos s !! ("makeFrames." +:+ column)) as [v |] eqn:Hk.
  - simpl. f_equal. destruct (Hs _ _ Hk) as (_ & Hv & _). now apply Hv.
  - reflexivity.
Qed.

Lemma getUniqueValues_declared (this : t) (column : string) (s : state) :
  memo_ok this s -> is_Some (OrderedMap_get (columns this) column) ->
  fst (getUniqueValues this column s) = Normal (VList (unique_of this column))
  /\ memo_ok this (snd (getUniqueValues this column s)).
Proof.
  intros Hs Hc. split; [| now apply keeps_getUniqueValues].
  unfold getUniqueValues, bind. rewrite (_columnError_declared _ _ _ Hc).
  unfold _memoize.
  destruct (_memos s !! ("getUniqueValues." +:+ column)) as [v |] eqn:Hk.
  - simpl. f_equal. destruct (Hs _ _ Hk) as (_ & _ & Hv). now apply Hv.
  - reflexivity.
Qed.

End InterpolatedRows.

Section InterpolatedFrame.
Import JS ChartData.
Context `{Host}.

Lemma List_get_nat {A} (l : list A) (z : Z) :
  (0 <= z)%Z -> List_get l (Fin (inject_Z z)) = nth_error l (Z.to_nat z).
Proof.
  intros Hz. unfold List_get. rewrite Qfloor_Z.
  destruct (z <? 0)%Z eqn:E; [lia |].
  destruct (0 <=? z)%Z eqn:E'; [reflexivity | lia].
Qed.

Lemma omap_pointwise {A B} (f g : A -> option B) (l : list A) :
  (forall x, f x = g x) -> omap f l = omap g l.
Proof.
  intros Hfg. induction l as [| x l IH]; csimpl; [reflexivity |].
  now rewrite Hfg, IH.
Qed.

Lemma bind_run {A B} (c : M A) (k : A -> M B) (s s' : state) (a : A) :
  c s = (Normal a, s') -> bind c k s = k a s'.
Proof.
  intros Hc. unfold bind. now rewrite Hc.
Qed.

(** [_indexError] in the mode that admits fractions. *)
Lemma _indexError_in_range (index : number) (max : option Z) (s : state) :
  num_lt index (Fin 0) = false ->
  match max with
  | Some m => negb (m =? 0)%Z && num_gt index (Fin (inject_Z m)) = false
  | None => True
  end ->
  _indexError index max false s = (Normal false, s).
Proof.
  intros Hneg Hmax. unfold _indexError. rewrite Hneg.
  destruct max as [m |]; [now rewrite Hmax | reflexivity].
Qed.

(** C3, as the code has it.  On a reachable store, for two distinct
    declared columns and a fractional index between 0 and the last frame,
    [frameAtIndexInterpolated] returns the store whose rows are
    [interpolated_rows]: one row for each distinct primary value of the
    whole data set that has a row in frame [a = floor index] and in frame
    [a + 1], built from the first such row of each; in it every declared
    column holds [lerp] of the two cells at [blend = index - a] when it is
    continuous and not the primary column, and otherwise the cell of the
    frame-[a] row, or [null] where that row has no such cell. *)
Theorem frameAtIndexInterpolated_rows (cd : t) (s : state)
    (frameColumn primaryColumn : string) (index : Q) :
  reachable cd s ->
  is_Some (OrderedMap_get (columns cd) frameColumn) ->
  is_Some (OrderedMap_get (columns cd) primaryColumn) ->
  frameColumn <> primaryColumn ->
  ~ (index == inject_Z (Qfloor index))%Q ->
  (0 <= index)%Q ->
  (index <= inject_Z (Z.of_nat (length (frames_of cd frameColumn)) - 1))%Q ->
  result_of (frameAtIndexInterpolated cd frameColumn primaryColumn (Fin index) s)
  = Normal
      (VChartData
         {| rows := interpolated_rows cd frameColumn primaryColumn index;
            columns :=
              _createColumns (as_definitions (columns cd))
                (interpolated_rows cd frameColumn primaryColumn index) |})
  /\ (forall rowA rowB k,
        interpolated_row (columns cd) primaryColumn
          (Fin (index - inject_Z (Qfloor index))) rowA rowB !! k
        = interpolated_cell primaryColumn (Fin (index - inject_Z (Qfloor index)))
            rowA rowB <$> OrderedMap_get (columns cd) k)
  /\ distinct (unique_of cd primaryColumn).
Proof.
  intros Hreach Hf Hp Hne Hfrac Hlo Hhi.
  split; [| split; [intros; apply interpolated_row_lookup | apply toOrderedSet_distinct]].
  destruct (reachable_ok _ _ Hreach) as [[Hscalars Hcols] Hmemo].
  assert (Hnonneg : num_lt (Fin index) (Fin 0) = false).
  { simpl. now apply Qlt_bool_false. }
  unfold result_of, frameAtIndexInterpolated.
  rewrite (bind_run _ _ _ _ _ (_columnError_declared _ _ _ Hf)). cbv iota.
  rewrite (bind_run _ _ _ _ _ (_columnError_declared _ _ _ Hp)). cbv iota.
  rewrite (bind_run _ _ _ _ _ (_indexError_in_range _ None s Hnonneg I)). cbv iota.
  destruct (String.eqb frameColumn primaryColumn) eqn:E;
    [apply String.eqb_eq in E; contradiction |].
  rewrite (fractional_not_rounded _ Hfrac).
  destruct (makeFrames_declared cd frameColumn s Hmemo Hf) as [Hframes Hmemo1].
  destruct (makeFrames cd frameColumn s) as [r1 s1] eqn:Emake.
  simpl in Hframes, Hmemo1. subst r1.
  rewrite (bind_run _ _ _ _ _ Emake). cbv iota.
  set (frames := frames_of cd frameColumn) in *.
  assert (Hinside :
            (negb (Z.of_nat (length frames) - 1 =? 0)%Z
             && num_gt (Fin index) (Fin (inject_Z (Z.of_nat (length frames) - 1))))
            = false).
  { unfold num_gt. simpl. rewrite (Qlt_bool_false _ _ Hhi). apply andb_false_r. }
  rewrite (bind_run _ _ _ _ _
             (_indexError_in_range _ (Some (Z.of_nat (length frames) - 1)%Z) s1
                Hnonneg Hinside)).
  cbv iota.
  destruct (getUniqueValues_declared cd primaryColumn s1 Hmemo1 Hp) as [Huniq _].
  destruct (getUniqueValues cd primaryColumn s1) as [r2 s2] eqn:Euniq.
  simpl in Huniq. subst r2.
  rewrite (bind_run _ _ _ _ _ Euniq). cbv iota.
  (* the two frames *)
  pose proof (floor_below _ Hfrac) as Hbelow.
  assert (Hz0 : (0 <= Qfloor index)%Z).
  { rewrite <- (Qfloor_Z 0). now apply Qfloor_resp_le. }
  assert (Hz1 : (Qfloor index + 1 <= Z.of_nat (length frames) - 1)%Z).
  { assert (Hlt : (Qfloor index < Z.of_nat (length frames) - 1)%Z).
    { rewrite Zlt_Qlt. eapply Qlt_le_trans; eassumption. }
    lia. }
  unfold Math_floor, Math_ceil. rewrite (ceiling_is_next _ Hfrac).
  rewrite (blend_exact _ Hlo).
  rewrite !List_get_nat by lia.
  destruct (nth_error frames (Z.to_nat (Qfloor index))) as [fa |] eqn:Ea;
    [| apply nth_error_None in Ea; lia].
  destruct (nth_error frames (Z.to_nat (Qfloor index + 1))) as [fb |] eqn:Eb;
    [| apply nth_error_None in Eb; lia].
  unfold bind, tell, ret. cbv beta iota. cbn [fst].
  (* the rows, once sanitized, are the interpolated rows *)
  assert (Hrows :
            _createRows
              (omap fst
                 (map (interpolate_row cd frameColumn primaryColumn
                         (groupBy (fun ii => get ii primaryColumn) fa)
                         (groupBy (fun ii => get ii primaryColumn) fb)
                         (Fin (index - inject_Z (Qfloor index))))
                      (unique_of cd primaryColumn)))
            = interpolated_rows cd frameColumn primaryColumn index).
  { unfold _createRows, interpolated_rows. fold frames.
    rewrite omap_map, map_omap.
    replace (Z.to_nat (Qfloor index) + 1)%nat with (Z.to_nat (Qfloor index + 1)) by lia.
    rewrite (nth_error_nth _ _ [] Ea), (nth_error_nth _ _ [] Eb).
    apply omap_pointwise. intros pv.
    apply (interpolate_row_sanitized cd frameColumn primaryColumn fa fb).
    - exact Hcols.
    - intros row k v Hrow Hk. apply (Hscalars row k v); [| exact Hk].
      apply (groupBy_In (fun ii => get ii frameColumn) (rows cd) fa row);
        [| exact Hrow].
      apply nth_error_In in Ea. exact Ea.
    - apply (blend_not_0 _ Hfrac).
    - apply (blend_not_1 _ Hfrac). }
  unfold constructor. cbv zeta. rewrite Hrows. reflexivity.
Qed.

End InterpolatedFrame.

Section InterpolationExamples.
Import JS ChartData.
Existing Instance ReferenceHost.host.

Lemma frameAtIndexInterpolated_rows_witness :
  result_of (frameAtIndexInterpolated price_data "day" "price" (Fin (1 # 2)) fresh)
  = Normal
      (VChartData
         {| rows := interpolated_rows price_data "day" "price" (1 # 2);
            columns :=
              _createColumns (as_definitions (columns price_data))
                (interpolated_rows price_data "day" "price" (1 # 2)) |}).
Proof.
  apply (frameAtIndexInterpolated_rows price_data fresh "day" "price" (1 # 2)).
  - apply reach_new.
  - vm_compute. eauto.
  - vm_compute. eauto.
  - discriminate.
  - intros E. vm_compute in E. discriminate E.
  - vm_compute. discriminate.
  - vm_compute. discriminate.
Defined.

(** The example in the documentation of [frameAtIndexInterpolated]:
    halfway between day 1 and day 2. *)
Lemma price_data_halfway :
  interpolated_rows price_data "day" "price" (1 # 2)
  = [ {[ "day" := JNum (Fin (3 # 2)); "price" := JNum (Fin 10);
         "amount" := JNum (Fin (6 # 2)) ]};
      {[ "day" := JNum (Fin (3 # 2)); "price" := JNum (Fin 20);
         "amount" := JNum (Fin (70 # 2)) ]} ].
Proof.
  vm_compute. reflexivity.
Qed.

(** C3 as stated fails where the frame-[a] row lacks a declared column:
    the row has no cell there, and the interpolated row has [null]. *)
Lemma interpolated_missing_cell_is_null :
  let rowA : ChartRow := {[ "day" := JNum (Fin 1); "price" := JNum (Fin 10) ]} in
  let row : ChartRow :=
    {[ "day" := JNum (Fin (3 # 2)); "price" := JNum (Fin 10); "note" := JNull ]} in
  result_of (frameAtIndexInterpolated noted_data "day" "price" (Fin (1 # 2)) fresh)
  = Normal (VChartData {| rows := [row]; columns := columns noted_data |})
  /\ first_match "price" (nth 0 (frames_of noted_data "day") []) (JNum (Fin 10))
     = Some rowA
  /\ OrderedMap_get (columns noted_data) "note"
     = Some {| key := "note"; label := "Note"; isContinuous := false |}
  /\ get rowA "note" = JUndefined
  /\ get row "note" = JNull.
Proof.
  repeat split; vm_compute; reflexivity.
Qed.

End InterpolationExamples.

(** ** Aggregations *)

Section AggregationFacts.
Import JS ChartData.
Context `{Host}.
Variable this : t.

Lemma _columnListError_declared (columnList : list string) (s : state) :
  Forall (fun c => is_Some (OrderedMap_get (columns this) c)) columnList ->
  _columnListError this columnList s = (Normal false, s).
Proof.
  induction 1 as [| c l Hc _ IH]; simpl; [reflexivity |].
  rewrite (bind_run _ _ _ _ _ (_columnError_declared _ _ _ Hc)). exact IH.
Qed.

(** The values an aggregation works on: the cells of the named columns,
    over all rows. *)
Lemma _allValuesForColumns_In (columnList : list string) (v : jsval) :
  In v (_allValuesForColumns this columnList)
  <-> exists (row : ChartRow) (k : string),
        In row (rows this) /\ In k columnList /\ row !! k = Some v.
Proof.
  unfold _allValuesForColumns.
  assert (Hacc : forall (l : list ChartRow) (acc : list jsval),
            In v (fold_left
                    (fun values (row : ChartRow) =>
                       values ++
                       map snd
                         (map_to_list
                            (filter (fun kv : string * jsval =>
                                       bool_decide (fst kv ∈ columnList)) row)))
                    l acc)
            <-> In v acc
                \/ exists (row : ChartRow) (k : string),
                     In row l /\ In k columnList /\ row !! k = Some v).
  { induction l as [| row l IH]; intros acc; simpl.
    - split; [now left | intros [Hacc | (row & k & [] & _)]; exact Hacc].
    - rewrite IH, in_app_iff, in_map_iff. split.
      + intros [[Hacc | ([k v'] & Hv & Hkv)] | (row' & k & Hrow' & Hk & Hv)].
        * now left.
        * simpl in Hv. subst v'. right. exists row, k.
          apply list_elem_of_In, elem_of_map_to_list in Hkv.
          apply map_lookup_filter_Some in Hkv. destruct Hkv as [Hkv Hin].
          simpl in Hin. apply bool_decide_unpack in Hin.
          split; [now left |]. split; [now apply list_elem_of_In | exact Hkv].
        * right. exists row', k. split; [now right |]. now split.
      + intros [Hacc | (row' & k & [<- | Hrow'] & Hk & Hv)].
        * left. now left.
        * left. right. exists (k, v). split; [reflexivity |].
          apply list_elem_of_In, elem_of_map_to_list.
          apply map_lookup_filter_Some. split; [exact Hv |].
          simpl. apply bool_decide_pack. now apply list_elem_of_In.
        * right. exists row', k. now split. }
  rewrite Hacc. split; [intros [[] | Hex]; exact Hex | now right].
Qed.

(** A column whose cells are all null or missing contributes nothing. *)
Lemma non_null_values_of_null_column (column : string) :
  (forall row, In row (rows this) -> eq_null (get row column) = true) ->
  List.filter (fun val => negb (eq_null val)) (_allValuesForColumns this [column])
  = [].
Proof.
  intros Hnull.
  destruct (List.filter _ _) as [| v l] eqn:E; [reflexivity |].
  assert (Hv : In v (List.filter (fun val => negb (eq_null val))
                       (_allValuesForColumns this [column]))).
  { rewrite E. now left. }
  apply filter_In in Hv. destruct Hv as [Hv Hnn].
  apply _allValuesForColumns_In in Hv.
  destruct Hv as (row & k & Hrow & [<- | []] & Hk).
  specialize (Hnull row Hrow). unfold get in Hnull. rewrite Hk in Hnull.
  simpl in Hnull. now rewrite Hnull in Hnn.
Qed.

(** The first time an aggregate is asked for under a key, it is computed
    from the non-null values of the named columns, and [null] stands for
    a result that is not a number. *)
Lemma _aggregation_computed (op : operation) (columns : ChartColumnArg) (s : state) :
  Forall (fun c => is_Some (OrderedMap_get (ChartData.columns this) c))
         (_columnArgList columns) ->
  _memos s !! (operation_name op +:+ "." +:+ String.concat "," (_columnArgList columns))
  = None ->
  let result :=
    ImmutableMath op
      (List.filter (fun val => negb (eq_null val))
         (_allValuesForColumns this (_columnArgList columns))) in
  result_of (_aggregation this op columns s)
  = Normal (VScalar (if isNaN result then JNull else result)).
Proof.
  intros Hdecl Hmemo result. unfold result_of, _aggregation.
  rewrite (bind_run _ _ _ _ _ (_columnListError_declared _ _ Hdecl)).
  unfold _memoize. rewrite Hmemo. reflexivity.
Qed.

(** Afterwards the memoized value is returned, whatever the columns
    asked for under that key. *)
Lemma _aggregation_memoized (op : operation) (columns : ChartColumnArg) (s : state)
    (v : value) :
  Forall (fun c => is_Some (OrderedMap_get (ChartData.columns this) c))
         (_columnArgList columns) ->
  _memos s !! (operation_name op +:+ "." +:+ String.concat "," (_columnArgList columns))
  = Some v ->
  _aggregation this op columns s = (Normal v, s).
Proof.
  intros Hdecl Hmemo. unfold _aggregation.
  rewrite (bind_run _ _ _ _ _ (_columnListError_declared _ _ Hdecl)).
  unfold _memoize. now rewrite Hmemo.
Qed.

(** On a column without values, computed for the first time: what the
    reducer gives on the empty collection. *)
Lemma aggregation_of_null_column (op : operation) (column : string) (s : state) :
  is_Some (OrderedMap_get (columns this) column) ->
  (forall row, In row (rows this) -> eq_null (get row column) = true) ->
  _memos s !! (operation_name op +:+ "." +:+ column) = None ->
  result_of (_aggregation this op (one_column column) s)
  = Normal (VScalar (if isNaN (ImmutableMath op []) then JNull
                     else ImmutableMath op [])).
Proof.
  intros Hdecl Hnull Hmemo.
  rewrite _aggregation_computed; simpl.
  - now rewrite (non_null_values_of_null_column _ Hnull).
  - now constructor.
  - exact Hmemo.
Qed.

End AggregationFacts.

Section AggregationExamples.
Import JS ChartData.
Existing Instance ReferenceHost.host.

(** C5 fails through the memo object.  Aggregates are memoized under
    the operation name and the column keys joined by commas, so the
    column list [a, b] and the single column named ["a,b"] share the key
    ["sum.a,b"].  Here column ["a,b"] has no value at all: its sum is 0 on
    a store that has not been asked before, and 3, the sum of columns [a]
    and [b], once that has been computed; likewise [min] gives 1 instead
    of [null]. *)
Lemma sum_after_colliding_key :
  let s1 := state_of (sum comma_data (column_list ["a"; "b"]) fresh) in
  let s2 := state_of (min comma_data (column_list ["a"; "b"]) s1) in
  (forall row, In row (rows comma_data) -> get row "a,b" = JUndefined)
  /\ result_of (sum comma_data (one_column "a,b") fresh)
     = Normal (VScalar (JNum (Fin 0)))
  /\ result_of (min comma_data (one_column "a,b") fresh) = Normal null
  /\ result_of (sum comma_data (column_list ["a"; "b"]) fresh)
     = Normal (VScalar (JNum (Fin 3)))
  /\ result_of (sum comma_data (one_column "a,b") s2)
     = Normal (VScalar (JNum (Fin 3)))
  /\ result_of (min comma_data (one_column "a,b") s2)
     = Normal (VScalar (JNum (Fin 1))).
Proof.
  split.
  - intros row [<- | []]. vm_compute. reflexivity.
  - repeat split; vm_compute; reflexivity.
Qed.

(** With the reference reducers, a column without values, asked for the
    first time, sums to 0 and has no minimum, maximum, average or
    median. *)
Lemma aggregates_of_null_column (this : t) (column : string) (s : state) :
  is_Some (OrderedMap_get (columns this) column) ->
  (forall row, In row (rows this) -> eq_null (get row column) = true) ->
  (forall op, _memos s !! (operation_name op +:+ "." +:+ column) = None) ->
  result_of (sum this (one_column column) s) = Normal (VScalar (JNum (Fin 0)))
  /\ result_of (min this (one_column column) s) = Normal null
  /\ result_of (max this (one_column column) s) = Normal null
  /\ result_of (average this (one_column column) s) = Normal null
  /\ result_of (median this (one_column column) s) = Normal null.
Proof.
  intros Hdecl Hnull Hmemo.
  unfold sum, min, max, average, median.
  rewrite !aggregation_of_null_column by auto.
  repeat split; reflexivity.
Qed.

End AggregationExamples.

(** * Properties of the grouped-series builder *)

Section EntriesFacts.
Import JS.

(** The stable sort returns the elements it is given. *)
Lemma stable_sort_Permutation {A} (compare : A -> A -> number) (l : list A) :
  Permutation (stable_sort compare l) l.
Proof.
  exact (Array_sort_Permutation (Host := ReferenceHost.host) A compare l).
Qed.

Lemma filter_split_Permutation {X} (P : X -> bool) (l : list X) :
  Permutation (List.filter P l ++ List.filter (fun x => negb (P x)) l) l.
Proof.
  induction l as [| x l IH]; simpl; [reflexivity |].
  destruct (P x); simpl.
  - now constructor.
  - rewrite <- Permutation_middle. now constructor.
Qed.

Lemma Object_entries_Permutation {V} (o : list (string * V)) :
  Permutation (Object_entries o) o.
Proof.
  unfold Object_entries. rewrite stable_sort_Permutation.
  etransitivity; [| apply (filter_split_Permutation
                             (fun kv => match array_index (fst kv) with
                                        | Some _ => true
                                        | None => false
                                        end))].
  apply Permutation_app_head.
  erewrite filter_ext; [reflexivity |].
  intros kv. simpl. now destruct (array_index (fst kv)).
Qed.

End EntriesFacts.

Section GroupedFacts.
Import JS Series GroupedSeries.
Context `{Host}.

Lemma find_app {X} (P : X -> bool) (l1 l2 : list X) :
  List.find P (l1 ++ l2)
  = match List.find P l1 with Some x => Some x | None => List.find P l2 end.
Proof.
  induction l1 as [| x l1 IH]; simpl; [reflexivity |].
  destruct (P x); [reflexivity | exact IH].
Qed.

Lemma existsb_eqb_In (k : string) (l : list string) :
  existsb (String.eqb k) l = true <-> In k l.
Proof.
  rewrite existsb_exists. split.
  - intros (x & Hx & E). apply String.eqb_eq in E. now subst.
  - intros Hk. exists k. split; [exact Hk | apply String.eqb_refl].
Qed.

Lemma OrderedMap_set_keys_In {V} (m : list (string * V)) (k : string) (v : V) :
  In k (map fst m) -> map fst (OrderedMap_set k v m) = map fst m.
Proof.
  intros Hk. rewrite OrderedMap_set_keys.
  apply existsb_eqb_In in Hk. now rewrite Hk.
Qed.

Lemma map_absent_key {V} (m : list (string * V)) (k : string) (v : V) :
  ~ In k (map fst m) ->
  map (fun kv : string * V => if String.eqb (fst kv) k then (fst kv, v) else kv) m = m.
Proof.
  induction m as [| [k0 v0] m IH]; simpl; [reflexivity |].
  intros Hk. destruct (String.eqb k0 k) eqn:E.
  - apply String.eqb_eq in E. tauto.
  - rewrite IH by tauto. reflexivity.
Qed.

(** On a key that is there, [set] changes the value under it. *)
Lemma OrderedMap_set_existing {V} (m : list (string * V)) (k : string) (v : V) :
  NoDup (map fst m) -> In k (map fst m) ->
  OrderedMap_set k v m
  = map (fun kv : string * V => if String.eqb (fst kv) k then (fst kv, v) else kv) m.
Proof.
  induction m as [| [k0 v0] m IH]; simpl; [intros _ [] |].
  intros Hnd Hk. apply NoDup_cons in Hnd. destruct Hnd as [Hk0 Hnd].
  destruct (String.eqb k0 k) eqn:E.
  - apply String.eqb_eq in E. subst k0.
    rewrite map_absent_key; [reflexivity |].
    intros Hin. apply Hk0. now apply list_elem_of_In.
  - rewrite IH; [reflexivity | exact Hnd |].
    destruct Hk as [-> | Hk]; [| exact Hk]. now rewrite String.eqb_refl in E.
Qed.

(** Filing records one after another into a map that has all their
    keys: each entry ends with the last record filed under its key. *)
Lemma fold_set_existing (pointKey : string) (g : Point -> Point)
    (items : list Point) (m : list (string * Point)) :
  NoDup (map fst m) ->
  (forall item, In item items -> In (point_string pointKey item) (map fst m)) ->
  fold_left
    (fun map item => OrderedMap_set (point_string pointKey item) (g item) map)
    items m
  = map (fun kv : string * Point =>
           (fst kv,
            match last_at pointKey (fst kv) items with
            | Some item => g item
            | None => snd kv
            end))
        m.
Proof.
  revert m. induction items as [| item items IH]; intros m Hnd Hkeys; simpl.
  - induction m as [| [k v] m IHm]; simpl; [reflexivity |].
    apply NoDup_cons in Hnd. now rewrite <- IHm.
  - assert (Hitem : In (point_string pointKey item) (map fst m)).
    { apply Hkeys. now left. }
    rewrite IH.
    + rewrite (OrderedMap_set_existing _ _ _ Hnd Hitem), map_map.
      apply map_ext. intros [k v]. simpl.
      unfold last_at. simpl. rewrite find_app. simpl.
      rewrite (String.eqb_sym (point_string pointKey item) k).
      destruct (String.eqb k (point_string pointKey item)); simpl;
        destruct (List.find _ (rev items)); reflexivity.
    + now apply OrderedMap_set_NoDup.
    + intros item' Hitem'. rewrite (OrderedMap_set_keys_In _ _ _ Hitem).
      apply Hkeys. now right.
Qed.

(** [baseGroup]: one entry for each distinct string of a pointKey value,
    holding a pointKey value with that string. *)
Lemma make_baseGroup_spec (pointKey : string) (data : list Point) :
  NoDup (map fst (make_baseGroup pointKey data))
  /\ (forall s, In s (map fst (make_baseGroup pointKey data))
                <-> exists item, In item data /\ point_string pointKey item = s)
  /\ (forall s value, In (s, value) (make_baseGroup pointKey data) ->
        exists item,
          In item data /\ point_string pointKey item = s
          /\ value = {[ pointKey := prop item pointKey ]}).
Proof.
  unfold make_baseGroup. induction data as [| item data IH] using rev_ind.
  - simpl. split; [constructor |]. split.
    + intros s. split; [intros [] | intros (item & [] & _)].
    + intros s value [].
  - rewrite fold_left_app. simpl.
    destruct IH as (Hnd & Hkeys & Hvalues).
    split; [now apply OrderedMap_set_NoDup |]. split.
    + intros s. rewrite OrderedMap_set_keys.
      fold (point_string pointKey item).
      destruct (existsb (String.eqb (point_string pointKey item)) _) eqn:E.
      * rewrite Hkeys. split.
        -- intros (i & Hi & Hs). exists i. split; [apply in_or_app; now left | exact Hs].
        -- intros (i & Hi & Hs). apply in_app_or in Hi.
           destruct Hi as [Hi | [<- | []]]; [now exists i |].
           apply existsb_eqb_In in E. rewrite <- Hs. now apply Hkeys.
      * rewrite in_app_iff, Hkeys. split.
        -- intros [(i & Hi & Hs) | [<- | []]].
           ++ exists i. split; [apply in_or_app; now left | exact Hs].
           ++ exists item. split; [apply in_or_app; right; now left | reflexivity].
        -- intros (i & Hi & Hs). apply in_app_or in Hi.
           destruct Hi as [Hi | [<- | []]]; [left; now exists i | right; now left].
    + intros s value Hin. apply OrderedMap_set_In in Hin.
      destruct Hin as [[-> ->] | Hin].
      * exists item. split; [apply in_or_app; right; now left |]. now split.
      * destruct (Hvalues s value Hin) as (i & Hi & Hs & Hv).
        exists i. split; [apply in_or_app; now left |]. now split.
Qed.

(** [groupedItems]: the dictionary [rr] and its keys. *)
Lemma OrderedMap_get_absent {V} (m : list (string * V)) (k : string) :
  OrderedMap_get m k = None -> ~ In k (map fst m).
Proof.
  induction m as [| [k0 v0] m IH]; simpl; [tauto |].
  destruct (String.eqb k0 k) eqn:E; [discriminate |].
  intros Hm [-> | Hin]; [now rewrite String.eqb_refl in E | now apply IH].
Qed.

Lemma first_appearances_In (keys : list string) (k : string) :
  In k (first_appearances keys) <-> In k keys.
Proof.
  induction keys as [| key keys IH]; simpl; [tauto |].
  rewrite filter_In, IH, negb_true_iff. split.
  - intros [-> | [Hk _]]; [now left | now right].
  - intros [-> | Hk]; [now left |].
    destruct (String.eqb k key) eqn:E.
    + apply String.eqb_eq in E. now left.
    + right. now split.
Qed.

Lemma first_appearances_NoDup (keys : list string) : NoDup (first_appearances keys).
Proof.
  induction keys as [| key keys IH]; simpl; [constructor |].
  apply NoDup_cons. split.
  - intros Hin. apply list_elem_of_In, filter_In in Hin. destruct Hin as [_ E].
    now rewrite String.eqb_refl in E.
  - apply NoDup_ListNoDup, List.NoDup_filter, NoDup_ListNoDup, IH.
Qed.

(** One more key at the end appears for the first time there, or has
    appeared. *)
Lemma first_appearances_snoc (keys : list string) (k : string) :
  first_appearances (keys ++ [k])
  = first_appearances keys ++ (if existsb (String.eqb k) keys then [] else [k]).
Proof.
  induction keys as [| key keys IH]; simpl; [reflexivity |].
  rewrite IH, List.filter_app. f_equal. f_equal.
  destruct (existsb (String.eqb k) keys); [now rewrite orb_true_r |].
  rewrite orb_false_r. simpl. now destruct (String.eqb k key).
Qed.

Lemma push_item_plain (key : string) (item : Point) (rr : list (string * list Point)) :
  inherited key = false ->
  push_item key item rr
  = inr (OrderedMap_set key (default [] (OrderedMap_get rr key) ++ [item]) rr).
Proof.
  intros Hkey. unfold push_item, rr_get.
  destruct (OrderedMap_get rr key); simpl; [reflexivity |]. now rewrite Hkey.
Qed.

Lemma push_item_inherited (key : string) (item : Point)
    (rr : list (string * list Point)) :
  inherited key = true -> ~ In key (map fst rr) ->
  push_item key item rr = inl TypeError.
Proof.
  intros Hkey Hout. unfold push_item, rr_get.
  rewrite (OrderedMap_get_None _ _ Hout). now rewrite Hkey.
Qed.

(** What the reduction has thrown stays thrown. *)
Lemma reduce_thrown (groupKey : list string) (data : list Point) (e : exception) :
  fold_left
    (fun (rr : exception + list (string * list Point)) item =>
       match rr with
       | inl e => inl e
       | inr rr => push_item (group_key groupKey item) item rr
       end)
    data (inl e)
  = inl e.
Proof.
  induction data as [| item data IH]; simpl; [reflexivity | exact IH].
Qed.

(** Without a record whose group key is the name of a member of
    [Object.prototype], [groupedItems] has, in the order in which the
    group keys first appear, under each key the records with that key,
    in order. *)
Lemma make_groupedItems_spec (groupKey : list string) (data : list Point) :
  existsb (clashes groupKey) data = false ->
  exists rr,
    make_groupedItems groupKey data = inr rr
    /\ map fst rr = first_appearances (map (group_key groupKey) data)
    /\ forall key items,
         In (key, items) rr ->
         items = records_of groupKey key data /\ items <> [].
Proof.
  unfold make_groupedItems, records_of.
  induction data as [| item data IH] using rev_ind; intros Hplain.
  - exists []. split; [reflexivity |]. split; [reflexivity | intros key items []].
  - rewrite existsb_app in Hplain. apply orb_false_elim in Hplain.
    destruct Hplain as [Hdata Hitem]. simpl in Hitem. rewrite orb_false_r in Hitem.
    destruct (IH Hdata) as (rr & Hrr & Hkeys & Hspec).
    set (key := group_key groupKey item) in *.
    set (items0 := default [] (OrderedMap_get rr key)).
    assert (Hnd : NoDup (map fst rr)).
    { rewrite Hkeys. apply first_appearances_NoDup. }
    assert (Hitems0 :
              items0
              = List.filter (fun i => String.eqb (group_key groupKey i) key) data).
    { unfold items0. destruct (OrderedMap_get rr key) as [its |] eqn:Eget; simpl.
      - apply OrderedMap_get_In in Eget. now destruct (Hspec _ _ Eget).
      - apply OrderedMap_get_absent in Eget. symmetry.
        destruct (List.filter _ data) as [| i l] eqn:Ef; [reflexivity |].
        exfalso. assert (Hi : In i (i :: l)) by now left.
        rewrite <- Ef in Hi. apply filter_In in Hi. destruct Hi as [Hi Ei].
        apply String.eqb_eq in Ei. apply Eget. rewrite Hkeys.
        apply first_appearances_In, in_map_iff. now exists i. }
    exists (OrderedMap_set key (items0 ++ [item]) rr).
    split; [| split].
    + rewrite fold_left_app, Hrr. simpl. now apply push_item_plain.
    + rewrite OrderedMap_set_keys, List.map_app.
      change (map (group_key groupKey) [item]) with [key].
      rewrite first_appearances_snoc, Hkeys.
      assert (Hsame : existsb (String.eqb key)
                        (first_appearances (map (group_key groupKey) data))
                      = existsb (String.eqb key) (map (group_key groupKey) data)).
      { apply eq_true_iff_eq. rewrite !existsb_eqb_In. apply first_appearances_In. }
      rewrite Hsame.
      destruct (existsb (String.eqb key) (map (group_key groupKey) data));
        [now rewrite app_nil_r | reflexivity].
    + intros k items Hin. rewrite List.filter_app. simpl. fold key.
      destruct (String.eqb key k) eqn:E.
      * apply String.eqb_eq in E. subst k.
        assert (Hnew : In (key, items0 ++ [item])
                         (OrderedMap_set key (items0 ++ [item]) rr)).
        { apply OrderedMap_get_In. rewrite OrderedMap_get_set.
          now rewrite String.eqb_refl. }
        assert (Hnd' : NoDup (map fst (OrderedMap_set key (items0 ++ [item]) rr)))
          by now apply OrderedMap_set_NoDup.
        pose proof (OrderedMap_get_of_In _ _ _ Hnd' Hin) as E1.
        pose proof (OrderedMap_get_of_In _ _ _ Hnd' Hnew) as E2.
        rewrite E1 in E2. injection E2 as ->.
        split; [now rewrite Hitems0 |]. intros E. now apply app_eq_nil in E.
      * apply OrderedMap_set_In in Hin. destruct Hin as [[-> _] | Hin].
        -- now rewrite String.eqb_refl in E.
        -- destruct (Hspec _ _ Hin) as [-> Hnonempty].
           split; [now rewrite app_nil_r | exact Hnonempty].
Qed.

(** With such a record the reduction throws a [TypeError]. *)
Lemma make_groupedItems_TypeError (groupKey : list string) (data : list Point) :
  existsb (clashes groupKey) data = true ->
  make_groupedItems groupKey data = inl TypeError.
Proof.
  unfold make_groupedItems.
  assert (Hacc : forall rr : list (string * list Point),
            (forall k, In k (map fst rr) -> inherited k = false) ->
            existsb (clashes groupKey) data = true ->
            fold_left
              (fun (rr : exception + list (string * list Point)) item =>
                 match rr with
                 | inl e => inl e
                 | inr rr => push_item (group_key groupKey item) item rr
                 end)
              data (inr rr)
            = inl TypeError).
  { induction data as [| item data IH]; intros rr Hrr; simpl; [discriminate |].
    unfold clashes at 1. destruct (inherited (group_key groupKey item)) eqn:E; simpl.
    - intros _. rewrite push_item_inherited; [apply reduce_thrown | exact E |].
      intros Hin. apply Hrr in Hin. congruence.
    - intros Hrest. rewrite (push_item_plain _ _ _ E). apply IH; [| exact Hrest].
      intros k Hk. rewrite OrderedMap_set_keys in Hk.
      destruct (existsb _ (map fst rr)); [now apply Hrr |].
      apply in_app_or in Hk. destruct Hk as [Hk | [<- | []]]; [now apply Hrr | exact E]. }
  apply Hacc. intros k [].
Qed.

End GroupedFacts.

Section GroupedTheorem.
Import JS Series GroupedSeries.
Context `{Host}.

Lemma make_baseValues_lookup (groupKey : list string) (group : list Point)
    (k : string) :
  make_baseValues groupKey group !! k
  = if in_dec string_dec k groupKey then
      Some match List.find (fun ii => truthy (prop ii k)) group with
           | Some ii => prop ii k
           | None => JUndefined
           end
    else None.
Proof.
  unfold make_baseValues.
  assert (Hacc : forall (acc : Point),
            fold_left
              (fun (baseValues : Point) key =>
                 <[ key := match List.find (fun ii => truthy (prop ii key)) group with
                           | Some ii => prop ii key
                           | None => JUndefined
                           end ]> baseValues)
              groupKey acc !! k
            = if in_dec string_dec k groupKey then
                Some match List.find (fun ii => truthy (prop ii k)) group with
                     | Some ii => prop ii k
                     | None => JUndefined
                     end
              else acc !! k).
  { induction groupKey as [| key groupKey IH]; intros acc; simpl; [reflexivity |].
    rewrite IH. destruct (in_dec string_dec k groupKey) as [Hin | Hout].
    - destruct (string_dec key k); reflexivity.
    - destruct (string_dec key k) as [-> | Hne].
      + apply lookup_insert_eq.
      + now apply lookup_insert_ne. }
  rewrite Hacc. destruct (in_dec string_dec k groupKey); [reflexivity | apply lookup_empty].
Qed.

(** Two tests that agree on a list find the same element. *)
Lemma find_agree {X} (P Q : X -> bool) (l : list X) :
  (forall x, In x l -> P x = Q x) -> List.find P l = List.find Q l.
Proof.
  induction l as [| x l IH]; simpl; [reflexivity |].
  intros Hsame. rewrite <- (Hsame x) by now left.
  destruct (P x); [reflexivity |]. apply IH. intros y Hy. apply Hsame. now right.
Qed.

(** A comparator consistent on a set of values is consistent on a part
    of it. *)
Lemma consistent_among {X} (compare : X -> X -> number) (P Q : X -> Prop) :
  (forall x, Q x -> P x) -> consistent compare P -> consistent compare Q.
Proof.
  intros Hsub (Hrefl & Hsym & Htied & Hbefore & Hafter).
  split; [| split; [| split; [| split]]].
  - intros a Ha. apply Hrefl. now apply Hsub.
  - intros a b Ha Hb. apply Hsym; now apply Hsub.
  - intros a b c Ha Hb Hc. apply Htied; now apply Hsub.
  - intros a b c Ha Hb Hc. apply Hbefore; now apply Hsub.
  - intros a b c Ha Hb Hc. apply Hafter; now apply Hsub.
Qed.

(** The points of a group before sorting: one for each entry of
    [baseGroup]. *)
Lemma make_group_points (groupKey : list string) (pointKey : string)
    (pointSort : Point -> Point -> number) (defaultPoint : Point)
    (data group : list Point) :
  (forall item, In item group -> In item data) ->
  make_group groupKey pointKey pointSort defaultPoint
    (make_baseGroup pointKey data) group
  = Array_sort pointSort
      (map (point_at groupKey pointKey defaultPoint group)
           (make_baseGroup pointKey data)).
Proof.
  intros Hsub. unfold make_group. f_equal.
  destruct (make_baseGroup_spec pointKey data) as (Hnd & Hkeys & _).
  set (groupMap :=
         map (fun kv : string * Point =>
                (fst kv,
                 spread (spread defaultPoint (make_baseValues groupKey group)) (snd kv)))
             (make_baseGroup pointKey data)).
  assert (Hmap : map fst groupMap = map fst (make_baseGroup pointKey data)).
  { unfold groupMap. rewrite map_map. reflexivity. }
  assert (Hfold := fold_set_existing pointKey (spread defaultPoint) group groupMap).
  unfold point_string in Hfold. rewrite Hfold.
  - unfold groupMap. rewrite !map_map. apply map_ext. intros [s value]. reflexivity.
  - now rewrite Hmap.
  - intros item Hitem. rewrite Hmap. apply Hkeys.
    exists item. split; [now apply Hsub | reflexivity].
Qed.

(** The groups of the series built, each from the records with one
    group key. *)
Lemma constructor_groups (config : GroupedSeriesConfig) :
  let pointKey := cfg_pointKey config in
  let groupKey := concat_groupKey (cfg_groupKey config) in
  let pointSort := default (default_pointSort pointKey) (cfg_pointSort config) in
  let defaultPoint := default ∅ (cfg_defaultPoint config) in
  let data := cfg_data config in
  ~ In pointKey groupKey ->
  existsb (clashes groupKey) data = false ->
  exists rr,
    make_groupedItems groupKey data = inr rr
    /\ map fst rr = first_appearances (map (group_key groupKey) data)
    /\ constructor config
       = inr {| Series.pointKey := pointKey;
                Series.groupKey := groupKey;
                Series.rawData := data;
                Series.groups :=
                  map (fun key =>
                         Array_sort pointSort
                           (map (point_at groupKey pointKey defaultPoint
                                   (records_of groupKey key data))
                                (make_baseGroup pointKey data)))
                      (map fst (Object_entries rr));
                Series.preprocess := ∅ |}
    /\ forall key, In key (map fst rr) -> records_of groupKey key data <> [].
Proof.
  intros pointKey groupKey pointSort defaultPoint data Hpk Hplain.
  assert (Hexists : existsb (String.eqb pointKey) groupKey = false).
  { destruct (existsb (String.eqb pointKey) groupKey) eqn:E; [| reflexivity].
    apply existsb_eqb_In in E. contradiction. }
  destruct (make_groupedItems_spec groupKey data Hplain) as (rr & Hrr & Hkeys & Hitems).
  exists rr. split; [exact Hrr |]. split; [exact Hkeys |]. split.
  - unfold constructor. fold pointKey groupKey data. rewrite Hexists, Hrr.
    do 2 f_equal. rewrite map_map. apply map_ext_in. intros [key items] Hin.
    apply (Permutation_in _ (Object_entries_Permutation _)) in Hin.
    destruct (Hitems _ _ Hin) as [-> _]. simpl.
    apply make_group_points. intros item Hitem. apply filter_In in Hitem. tauto.
  - intros key Hkey. apply in_map_iff in Hkey.
    destruct Hkey as ([key' items] & <- & Hin).
    now destruct (Hitems _ _ Hin) as [-> Hnonempty].
Qed.

(** C7, as the code has it.  For key names that [Object.prototype] does
    not define and records whose group key is no such name, the builder
    returns a series.  The canonical pointKey values are the entries of
    [baseGroup], one for each distinct string of a pointKey value of the
    input.  Every group of the series has one point for each canonical
    value, hence as many points as there are canonical values, and is in
    order when the comparator is consistent on its points.  Where the
    records of the group have none at a canonical value, the point there
    has the pointKey value; under each group key, when no record of the
    group has a falsy value there, the value of the first record of the
    group that has one; and otherwise the fields of the default point. *)
Theorem groups_aligned (config : GroupedSeriesConfig) :
  let pointKey := cfg_pointKey config in
  let groupKey := concat_groupKey (cfg_groupKey config) in
  let pointSort := default (default_pointSort pointKey) (cfg_pointSort config) in
  let defaultPoint := default ∅ (cfg_defaultPoint config) in
  let data := cfg_data config in
  let canonical := make_baseGroup pointKey data in
  ~ In pointKey groupKey ->
  plain_keys pointKey groupKey = true ->
  existsb (clashes groupKey) data = false ->
  exists series,
    constructor config = inr series
    /\ NoDup (map fst canonical)
    /\ (forall s, In s (map fst canonical)
                  <-> exists item, In item data /\ point_string pointKey item = s)
    /\ Forall
         (fun group =>
            length group = length canonical
            /\ (exists key,
                  records_of groupKey key data <> []
                  /\ Permutation group
                       (map (point_at groupKey pointKey defaultPoint
                               (records_of groupKey key data))
                            canonical))
            /\ (consistent pointSort (fun point => In point group) ->
                in_order pointSort group))
         (groups series)
    /\ (forall key s value,
          In (s, value) canonical ->
          last_at pointKey s (records_of groupKey key data) = None ->
          let point :=
            point_at groupKey pointKey defaultPoint
              (records_of groupKey key data) (s, value) in
          (exists item,
             In item data /\ point_string pointKey item = s
             /\ point !! pointKey = Some (prop item pointKey))
          /\ (forall k ii,
                In k groupKey ->
                (forall item, In item (records_of groupKey key data) ->
                   truthy (prop item k) = has_value (prop item k)) ->
                List.find (fun ii => has_value (prop ii k))
                          (records_of groupKey key data)
                = Some ii ->
                point !! k = Some (prop ii k))
          /\ (forall k, k <> pointKey -> ~ In k groupKey ->
                point !! k = defaultPoint !! k)).
Proof.
  intros pointKey groupKey pointSort defaultPoint data canonical Hpk _ Hplain.
  destruct (make_baseGroup_spec pointKey data) as (Hnd & Hkeys & Hvalues).
  destruct (constructor_groups config Hpk Hplain) as (rr & _ & _ & Hbuilt & Hnonempty).
  eexists. split; [exact Hbuilt |].
  simpl. split; [exact Hnd |]. split; [exact Hkeys |]. split.
  - apply List.Forall_forall. intros group Hgroup.
    apply in_map_iff in Hgroup. destruct Hgroup as (key & <- & Hkey).
    apply (Permutation_in _ (Permutation_map fst (Object_entries_Permutation rr)))
      in Hkey.
    fold pointKey groupKey pointSort defaultPoint data canonical.
    set (points := map (point_at groupKey pointKey defaultPoint
                          (records_of groupKey key data)) canonical).
    pose proof (Array_sort_Permutation _ pointSort points) as Hperm.
    split; [| split].
    + rewrite (Permutation_length Hperm). unfold points. apply length_map.
    + exists key. split; [now apply Hnonempty | exact Hperm].
    + intros Hcons. apply Array_sort_in_order.
      apply (consistent_among _ _ _ (fun point Hin =>
               Permutation_in _ (Permutation_sym Hperm) Hin) Hcons).
  - intros key s value Hentry Hnone. unfold point_at. simpl. rewrite Hnone.
    destruct (Hvalues s value Hentry) as (item & Hitem & Hs & ->).
    unfold spread. split; [| split].
    + exists item. split; [exact Hitem |]. split; [exact Hs |].
      apply lookup_union_Some_l. apply lookup_singleton_eq.
    + intros k ii Hk Hsame Hfind.
      assert (Hne : pointKey <> k) by (intros ->; contradiction).
      rewrite lookup_union_r by (now apply lookup_singleton_ne).
      apply lookup_union_Some_l. rewrite make_baseValues_lookup.
      destruct (in_dec string_dec k groupKey); [| contradiction].
      rewrite (find_agree _ (fun ii => has_value (prop ii k)) _ Hsame).
      now rewrite Hfind.
    + intros k Hne Hout.
      rewrite lookup_union_r by (apply lookup_singleton_ne; congruence).
      apply lookup_union_r. rewrite make_baseValues_lookup.
      destruct (in_dec string_dec k groupKey); [contradiction | reflexivity].
Qed.

End GroupedTheorem.

Section GroupedExamples.
Import JS Series GroupedSeries.
Existing Instance ReferenceHost.host.

Lemma groups_aligned_witness :
  exists series,
    constructor sparse_config = inr series
    /\ Forall (fun group => length group = length (make_baseGroup "x" sparse_data))
              (groups series).
Proof.
  destruct (groups_aligned sparse_config) as (series & Hc & _ & _ & Hgroups & _).
  - simpl. intros [E | []]. discriminate E.
  - reflexivity.
  - reflexivity.
  - exists series. split; [exact Hc |].
    eapply Forall_impl; [exact Hgroups |]. intros group [Hlen _]. exact Hlen.
Defined.

Lemma sparse_groups :
  constructor sparse_config
  = inr {| pointKey := "x";
           groupKey := ["type"];
           rawData := sparse_data;
           groups :=
             [ [ {[ "type" := JStr "foo"; "x" := JNum (Fin 0); "value" := JNum (Fin 1) ]};
                 {[ "type" := JStr "foo"; "x" := JNum (Fin 1); "value" := JNum (Fin 1) ]};
                 {[ "type" := JStr "foo"; "x" := JNum (Fin 2); "value" := JNum (Fin 1) ]} ];
               [ {[ "type" := JStr "bar"; "x" := JNum (Fin 0); "value" := JNum (Fin 0) ]};
                 {[ "type" := JStr "bar"; "x" := JNum (Fin 1); "value" := JNum (Fin 2) ]};
                 {[ "type" := JStr "bar"; "x" := JNum (Fin 2); "value" := JNum (Fin 0) ]} ] ];
           preprocess := ∅ |}.
Proof.
  vm_compute. exact eq_refl.
Qed.

(** C7 as stated fails where two pointKey values have the same string:
    the number 1 and the string ["1"] are two values, filed under one
    key, and the group has one point. *)
Lemma group_shorter_than_distinct_values :
  ChartData.toOrderedSet (map (fun item => prop item "x") mixed_data)
  = [JNum (Fin 1); JStr "1"]
  /\ constructor mixed_config
     = inr {| pointKey := "x";
              groupKey := ["type"];
              rawData := mixed_data;
              groups :=
                [ [ {[ "type" := JStr "foo"; "x" := JStr "1";
                       "value" := JNum (Fin 2) ]} ] ];
              preprocess := ∅ |}.
Proof.
  split; vm_compute; exact eq_refl.
Qed.

(** A group key whose value is falsy, here the number 0, is not found by
    [group.find(ii => ii[key])]: the point filled in for group 0 at
    [x = 1] has [series: undefined]. *)
Lemma falsy_group_key_is_lost :
  constructor numbered_config
  = inr {| pointKey := "x";
           groupKey := ["series"];
           rawData := numbered_data;
           groups :=
             [ [ {[ "series" := JNum (Fin 0); "x" := JNum (Fin 0);
                    "value" := JNum (Fin 1) ]};
                 {[ "series" := JUndefined; "x" := JNum (Fin 1);
                    "value" := JNum (Fin 0) ]} ];
               [ {[ "series" := JNum (Fin 1); "x" := JNum (Fin 0);
                    "value" := JNum (Fin 2) ]};
                 {[ "series" := JNum (Fin 1); "x" := JNum (Fin 1);
                    "value" := JNum (Fin 3) ]} ] ];
           preprocess := ∅ |}.
Proof.
  vm_compute. exact eq_refl.
Qed.

End GroupedExamples.

(** * Properties of the point series *)

Section MapPointsFacts.
Import JS Series.
Context {A B : Type} `{Inhabited A} `{Inhabited B}.

Lemma lookup_map {X Y} (f : X -> Y) (l : list X) (i : nat) :
  map f l !! i = f <$> l !! i.
Proof. exact (list_lookup_fmap f l i). Qed.

Lemma length_imap_groups {X Y} (f : nat -> X -> Y) (l : list X) :
  length (imap f l) = length l.
Proof. apply length_imap. Qed.

(** The slice at an index holds, for each group in order, the point of
    the group at that index. *)
Lemma getPoint_lookup (data : list (list A)) (i j : nat) (group : list A) (x : A) :
  data !! j = Some group -> group !! i = Some x ->
  getPoint data i !! j = Some x.
Proof.
  intros Hj Hi. unfold getPoint. rewrite lookup_map, Hj. simpl.
  f_equal. now apply list_lookup_total_correct.
Qed.

(** C8.  For a series whose groups all have the group length [n], and a
    function returning one value per group: [mapPoints] makes [n] calls,
    the call of rank [i] being [fn] on the slice at [i] (the point at [i] of
    every group, in group order) and on [i]; the result has as many groups
    as the series, each of length [n], and the point at [i] of group [j] is
    the element of rank [j] of what [fn] returned for [i]. *)
Theorem mapPoints_scatter (data : list (list A)) (fn : list A -> nat -> list B) :
  Forall (fun group => length group = pointCount data) data ->
  (forall i, i < pointCount data -> length (fn (getPoint data i) i) = length data) ->
  length (mapPoints_calls data) = pointCount data
  /\ (forall i, i < pointCount data ->
        mapPoints_calls data !! i = Some (getPoint data i, i))
  /\ (forall i j group, data !! j = Some group ->
        getPoint data i !! j = Some (group !!! i))
  /\ length (getPoint data 0) = length data
  /\ length (mapPoints_data fn data) = length data
  /\ Forall (fun group => length group = pointCount data) (mapPoints_data fn data)
  /\ (forall i j, i < pointCount data -> j < length data ->
        exists group y,
          mapPoints_data fn data !! j = Some group
          /\ group !! i = Some y
          /\ fn (getPoint data i) i !! j = Some y).
Proof.
  intros Hlen Hfn.
  assert (Hcalls : forall i, i < pointCount data ->
            mapPoints_calls data !! i = Some (getPoint data i, i)).
  { intros i Hi. unfold mapPoints_calls. rewrite lookup_map.
    rewrite lookup_seq_lt by assumption. reflexivity. }
  split; [| split; [exact Hcalls | split; [| split; [| split; [| split]]]]].
  - unfold mapPoints_calls. now rewrite length_map, length_seq.
  - intros i j group Hj. unfold getPoint. now rewrite lookup_map, Hj.
  - unfold getPoint. apply length_map.
  - unfold mapPoints_data. apply length_imap.
  - unfold mapPoints_data. apply Forall_forall. intros group Hgroup.
    apply list_elem_of_lookup in Hgroup. destruct Hgroup as [j Hj].
    rewrite list_lookup_imap in Hj.
    destruct (data !! j) as [g |]; simpl in Hj; [| discriminate].
    injection Hj as <-. rewrite !length_map.
    unfold mapPoints_calls. now rewrite length_map, length_seq.
  - intros i j Hi Hj. unfold mapPoints_data.
    destruct (lookup_lt_is_Some_2 data j Hj) as [g Hg].
    destruct (lookup_lt_is_Some_2 (fn (getPoint data i) i) j) as [y Hy].
    { rewrite Hfn by assumption. exact Hj. }
    eexists. exists y. split; [| split; [| exact Hy]].
    + rewrite list_lookup_imap, Hg. reflexivity.
    + rewrite lookup_map, lookup_map, (Hcalls i Hi). simpl. f_equal.
      now apply list_lookup_total_correct.
Qed.

End MapPointsFacts.

Section MapPointsExamples.
Import JS Series.

(** The test of the repository: two groups of three points. *)
Lemma mapPoints_scatter_witness :
  mapPoints_calls [[1; 2; 3]; [4; 5; 6]] !! 1 = Some ([2; 5], 1)
  /\ mapPoints_data (fun (_ : list nat) (_ : nat) => ["foo"; "bar"])
       [[1; 2; 3]; [4; 5; 6]]
     = [["foo"; "foo"; "foo"]; ["bar"; "bar"; "bar"]].
Proof.
  pose proof (mapPoints_scatter [[1; 2; 3]; [4; 5; 6]]
                (fun (_ : list nat) (_ : nat) => ["foo"; "bar"])) as Hw.
  destruct Hw as (_ & Hcalls & _).
  - repeat constructor.
  - intros i _. reflexivity.
  - split; [apply (Hcalls 1); simpl; lia | reflexivity].
Defined.

End MapPointsExamples.

(** ** The percentage step and its input *)

Section NormalizeFacts.
Import JS Series Process.
Context `{Host}.

(** C9, as the code has it.  [normalizeToPercentage] leaves the keys, the
    raw data, the groups and the points of the series passed in as they
    were, and returns a series with as many groups; but it writes the
    three flags [normalizeToPercentage], [stacked] and [stackType] into
    the [preprocess] object of the series passed in, whose other fields
    stay as they were. *)
Theorem normalizeToPercentage_input (key : string) (series : Series.t) :
  let input := fst (normalizeToPercentage key series) in
  let next := snd (normalizeToPercentage key series) in
  pointKey input = pointKey series
  /\ groupKey input = groupKey series
  /\ rawData input = rawData series
  /\ groups input = groups series
  /\ preprocess input !! "normalizeToPercentage" = Some (JBool true)
  /\ preprocess input !! "stacked" = Some (JBool true)
  /\ preprocess input !! "stackType" = Some (JStr "points")
  /\ (forall flag,
        flag <> "normalizeToPercentage" -> flag <> "stacked" -> flag <> "stackType" ->
        preprocess input !! flag = preprocess series !! flag)
  /\ length (groups next) = length (groups series)
  /\ preprocess next = preprocess input.
Proof.
  simpl. repeat split.
  - rewrite lookup_insert_ne by discriminate.
    rewrite lookup_insert_ne by discriminate. apply lookup_insert_eq.
  - rewrite lookup_insert_ne by discriminate. apply lookup_insert_eq.
  - apply lookup_insert_eq.
  - intros flag H1 H2 H3. now rewrite !lookup_insert_ne by congruence.
  - unfold mapPoints_data. apply length_imap.
Qed.

End NormalizeFacts.

Section NormalizeExamples.
Import JS Series Process.
Existing Instance ReferenceHost.host.

(** C9 as stated fails: after the call the series passed in has the
    flags it did not have. *)
Lemma normalizeToPercentage_writes_input :
  preprocess shares = ∅
  /\ preprocess (fst (normalizeToPercentage "v" shares))
     = {[ "normalizeToPercentage" := JBool true; "stacked" := JBool true;
          "stackType" := JStr "points" ]}
  /\ fst (normalizeToPercentage "v" shares) <> shares.
Proof.
  split; [reflexivity |]. split; [vm_compute; exact eq_refl |].
  intros E. apply (f_equal (fun s => preprocess s !! "stacked")) in E.
  vm_compute in E. discriminate E.
Qed.

Lemma normalizeToPercentage_shares :
  groups (snd (normalizeToPercentage "v" shares))
  = [ [ {[ "v" := JNum (Fin (1 # 4)); "originalValue" := JNum (Fin 1);
           "percentValue" := JNum (Fin (1 # 4)) ]};
        {[ "v" := JNum (Fin (3 # 4)); "originalValue" := JNum (Fin 3);
           "percentValue" := JNum (Fin (3 # 4)) ]} ];
      [ {[ "v" := JNum (Fin (4 # 4)); "originalValue" := JNum (Fin 3);
           "percentValue" := JNum (Fin (3 # 4)) ]};
        {[ "v" := JNum (Fin (4 # 4)); "originalValue" := JNum (Fin 1);
           "percentValue" := JNum (Fin (1 # 4)) ]} ] ].
Proof.
  vm_compute. exact eq_refl.
Qed.

End NormalizeExamples.

(** * Further properties of the chart data store *)

(** ** Arguments that are refused *)

Section RefusedArguments.
Import JS ChartData.
Context `{Host}.
Variable this : t.

Lemma _columnListError_first (declared : list string) (column : string)
    (others : list string) (s : state) :
  Forall (fun c => is_Some (OrderedMap_get (columns this) c)) declared ->
  OrderedMap_get (columns this) column = None ->
  _columnListError this (declared ++ column :: others) s
  = (Normal true, say s [console_error (column_not_found column)]).
Proof.
  intros Hdecl Hc. induction Hdecl as [| c l Hc' _ IH]; simpl.
  - rewrite (bind_run _ _ _ _ _ (_columnError_undeclared _ _ _ Hc)). reflexivity.
  - rewrite (bind_run _ _ _ _ _ (_columnError_declared _ _ _ Hc')). exact IH.
Qed.

(** X1.  An aggregation over a list of columns stops at the first column
    that is not declared: it returns [null], reports that column on the
    console and no other, and memoizes nothing, whatever the operation
    and whatever follows in the list. *)
Theorem aggregation_first_undeclared (op : operation) (declared : list string)
    (column : string) (others : list string) (s : state) :
  Forall (fun c => is_Some (OrderedMap_get (columns this) c)) declared ->
  OrderedMap_get (columns this) column = None ->
  _aggregation this op (column_list (declared ++ column :: others)) s
  = (Normal null, say s [console_error (column_not_found column)]).
Proof.
  intros Hdecl Hc. unfold _aggregation. simpl.
  rewrite (bind_run _ _ _ _ _ (_columnListError_first _ _ _ _ Hdecl Hc)).
  reflexivity.
Qed.

(** X2.  With the frame column declared, [frameAtIndex] and
    [frameAtIndexInterpolated] refuse a negative index, [frameAtIndex] a
    fractional one, and [frameAtIndexInterpolated] a primary column equal
    to the frame column: the result is [null], the console gets one
    error, and the memo object is left as it was. *)
Theorem refused_arguments (column : string) (index : number) (s : state) :
  is_Some (OrderedMap_get (columns this) column) ->
  (num_lt index (Fin 0) = true ->
   frameAtIndex this column index s
   = (Normal null, say s [console_error (index_smaller_than_0 index)])
   /\ forall primary,
        is_Some (OrderedMap_get (columns this) primary) ->
        frameAtIndexInterpolated this column primary index s
        = (Normal null, say s [console_error (index_smaller_than_0 index)]))
  /\ (num_lt index (Fin 0) = false -> num_eq (Math_round index) index = false ->
      frameAtIndex this column index s
      = (Normal null, say s [console_error (index_decimal index)]))
  /\ (num_lt index (Fin 0) = false ->
      frameAtIndexInterpolated this column column index s
      = (Normal null, say s [console_error same_columns])).
Proof.
  intros Hc. split; [| split].
  - intros Hneg. split.
    + unfold frameAtIndex.
      rewrite (bind_run _ _ _ _ _ (_columnError_declared _ _ _ Hc)). cbv iota.
      rewrite (bind_run _ _ _ _ _ (_indexError_negative _ _ _ _ Hneg)). reflexivity.
    + intros primary Hp. unfold frameAtIndexInterpolated.
      rewrite (bind_run _ _ _ _ _ (_columnError_declared _ _ _ Hc)). cbv iota.
      rewrite (bind_run _ _ _ _ _ (_columnError_declared _ _ _ Hp)). cbv iota.
      rewrite (bind_run _ _ _ _ _ (_indexError_negative _ _ _ _ Hneg)). reflexivity.
  - intros Hneg Hdec. unfold frameAtIndex.
    rewrite (bind_run _ _ _ _ _ (_columnError_declared _ _ _ Hc)). cbv iota.
    rewrite (bind_run _ _ _ _ _ (_indexError_decimal _ _ Hneg Hdec)). reflexivity.
  - intros Hneg. unfold frameAtIndexInterpolated.
    rewrite (bind_run _ _ _ _ _ (_columnError_declared _ _ _ Hc)). cbv iota.
    rewrite (bind_run _ _ _ _ _ (_columnError_declared _ _ _ Hc)). cbv iota.
    rewrite (bind_run _ _ _ _ _ (_indexError_in_range _ None s Hneg I)). cbv iota.
    rewrite String.eqb_refl. reflexivity.
Qed.

End RefusedArguments.

Section RefusedExamples.
Import JS ChartData.
Existing Instance ReferenceHost.host.

Lemma aggregation_first_undeclared_witness :
  min price_data (column_list ["day"; "missing"; "gone"]) fresh
  = (Normal null, say fresh [console_error (column_not_found "missing")]).
Proof.
  apply (aggregation_first_undeclared price_data Min ["day"] "missing" ["gone"] fresh).
  - repeat constructor. vm_compute. eauto.
  - reflexivity.
Defined.

Lemma refused_arguments_witness :
  frameAtIndex price_data "day" (Fin (1 # 2)) fresh
  = (Normal null, say fresh [console_error (index_decimal (Fin (1 # 2)))])
  /\ frameAtIndexInterpolated price_data "day" "day" (Fin (1 # 2)) fresh
     = (Normal null, say fresh [console_error same_columns]).
Proof.
  destruct (refused_arguments price_data "day" (Fin (1 # 2)) fresh) as (_ & Hdec & Hsame).
  - vm_compute. eauto.
  - split; [apply Hdec; reflexivity | apply Hsame; reflexivity].
Defined.

End RefusedExamples.

(** ** The upper bound of a frame index *)

Section FrameBound.
Import JS ChartData.
Context `{Host}.

Lemma Qfloor_half (z : Z) : Qfloor (inject_Z z + (1 # 2)) = z.
Proof.
  pose proof (Qfloor_le (inject_Z z + (1 # 2))) as Hle.
  pose proof (Qlt_floor (inject_Z z + (1 # 2))) as Hlt.
  rewrite inject_Z_plus in Hlt. change (inject_Z 1) with 1%Q in Hlt.
  assert (H1 : (Qfloor (inject_Z z + (1 # 2)) < z + 1)%Z).
  { rewrite Zlt_Qlt, inject_Z_plus. change (inject_Z 1) with 1%Q.
    set (f := inject_Z (Qfloor (inject_Z z + (1 # 2)))) in *.
    set (q := inject_Z z) in *. lra. }
  assert (H2 : (z < Qfloor (inject_Z z + (1 # 2)) + 1)%Z).
  { rewrite Zlt_Qlt, inject_Z_plus. change (inject_Z 1) with 1%Q.
    set (f := inject_Z (Qfloor (inject_Z z + (1 # 2)))) in *.
    set (q := inject_Z z) in *. lra. }
  lia.
Qed.

Lemma integer_is_rounded (z : Z) :
  num_eq (Math_round (Fin (inject_Z z))) (Fin (inject_Z z)) = true.
Proof.
  unfold Math_round, num_eq. rewrite Qfloor_half. apply Qeq_bool_refl.
Qed.

Lemma _memoize_console (key : string) (fn : M value) (s : state) :
  _memos s !! key = None ->
  fst (_memoize key fn s) = fst (fn s)
  /\ console (snd (_memoize key fn s)) = console (snd (fn s)).
Proof.
  intros Hk. unfold _memoize. rewrite Hk.
  destruct (fn s) as [[v | e] s']; split; reflexivity.
Qed.

Lemma makeFrames_console (this : t) (column : string) (s : state) :
  is_Some (OrderedMap_get (columns this) column) ->
  console (snd (makeFrames this column s)) = console s.
Proof.
  intros Hc. unfold makeFrames.
  rewrite (bind_run _ _ _ _ _ (_columnError_declared _ _ _ Hc)). cbv iota.
  unfold _memoize. destruct (_memos s !! _); reflexivity.
Qed.

Lemma _indexError_beyond (index : number) (m : Z) (integer : bool) (s : state) :
  num_lt index (Fin 0) = false -> m <> 0%Z ->
  num_gt index (Fin (inject_Z m)) = true ->
  _indexError index (Some m) integer s
  = (Normal true, say s [console_error (index_larger_than index m)]).
Proof.
  intros Hneg Hm Hgt. unfold _indexError. rewrite Hneg, Hgt.
  destruct (Z.eqb_spec m 0); [contradiction | reflexivity].
Qed.

(** X3.  On a reachable store whose frame column is declared and does
    not have exactly one frame, an index beyond the last frame is
    refused: [frameAtIndex], asked for the first time at an integer
    beyond it, and [frameAtIndexInterpolated], at a fraction beyond it,
    return [null] and report the index and the bound on the console. *)
Theorem index_beyond_last_frame (cd : t) (s : state) (frameColumn : string) :
  reachable cd s ->
  is_Some (OrderedMap_get (columns cd) frameColumn) ->
  length (frames_of cd frameColumn) <> 1 ->
  let last := (Z.of_nat (length (frames_of cd frameColumn)) - 1)%Z in
  (forall z : Z,
     (0 <= z)%Z -> (last < z)%Z ->
     _memos s !! ("frameAtIndex." +:+ frameColumn +:+ "["
                  +:+ number_to_string (Fin (inject_Z z)) +:+ "]") = None ->
     let r := frameAtIndex cd frameColumn (Fin (inject_Z z)) s in
     result_of r = Normal null
     /\ console (state_of r)
        = console s ++ [console_error (index_larger_than (Fin (inject_Z z)) last)])
  /\ (forall (primaryColumn : string) (index : Q),
        is_Some (OrderedMap_get (columns cd) primaryColumn) ->
        frameColumn <> primaryColumn ->
        ~ (index == inject_Z (Qfloor index))%Q ->
        (0 <= index)%Q -> (inject_Z last < index)%Q ->
        let r := frameAtIndexInterpolated cd frameColumn primaryColumn (Fin index) s in
        result_of r = Normal null
        /\ console (state_of r)
           = console s ++ [console_error (index_larger_than (Fin index) last)]).
Proof.
  intros Hreach Hf Hone last.
  destruct (reachable_ok _ _ Hreach) as [_ Hmemo].
  assert (Hlast : last <> 0%Z) by (unfold last; lia).
  destruct (makeFrames_declared cd frameColumn s Hmemo Hf) as [Hframes _].
  pose proof (makeFrames_console cd frameColumn s Hf) as Hconsole.
  destruct (makeFrames cd frameColumn s) as [r1 s1] eqn:Emake.
  simpl in Hframes, Hconsole. subst r1.
  split.
  - intros z Hz Hbeyond Hkey r.
    assert (Hnonneg : num_lt (Fin (inject_Z z)) (Fin 0) = false).
    { simpl. apply Qlt_bool_false. change 0%Q with (inject_Z 0).
      now rewrite <- Zle_Qle. }
    assert (Hgt : num_gt (Fin (inject_Z z)) (Fin (inject_Z last)) = true).
    { unfold num_gt. simpl. apply Qlt_bool_iff. now rewrite <- Zlt_Qlt. }
    unfold r, result_of, state_of, frameAtIndex.
    rewrite (bind_run _ _ _ _ _ (_columnError_declared _ _ _ Hf)). cbv iota.
    assert (Hidx : _indexError (Fin (inject_Z z)) None true s = (Normal false, s)).
    { unfold _indexError. rewrite Hnonneg.
      rewrite integer_is_rounded. reflexivity. }
    rewrite (bind_run _ _ _ _ _ Hidx). cbv iota.
    match goal with
    | |- fst (_memoize ?k ?fn s) = _ /\ _ =>
        destruct (_memoize_console k fn s Hkey) as [-> ->]
    end.
    rewrite (bind_run _ _ _ _ _ Emake). cbv iota.
    fold last.
    rewrite (bind_run _ _ _ _ _
               (_indexError_beyond _ last true s1 Hnonneg Hlast Hgt)).
    simpl. now rewrite Hconsole.
  - intros primaryColumn index Hp Hne Hfrac Hlo Hhi r.
    assert (Hnonneg : num_lt (Fin index) (Fin 0) = false).
    { simpl. now apply Qlt_bool_false. }
    assert (Hgt : num_gt (Fin index) (Fin (inject_Z last)) = true).
    { unfold num_gt. simpl. now apply Qlt_bool_iff. }
    unfold r, result_of, state_of, frameAtIndexInterpolated.
    rewrite (bind_run _ _ _ _ _ (_columnError_declared _ _ _ Hf)). cbv iota.
    rewrite (bind_run _ _ _ _ _ (_columnError_declared _ _ _ Hp)). cbv iota.
    rewrite (bind_run _ _ _ _ _ (_indexError_in_range _ None s Hnonneg I)). cbv iota.
    destruct (String.eqb frameColumn primaryColumn) eqn:E;
      [apply String.eqb_eq in E; contradiction |].
    rewrite (fractional_not_rounded _ Hfrac).
    rewrite (bind_run _ _ _ _ _ Emake). cbv iota.
    fold last.
    rewrite (bind_run _ _ _ _ _
               (_indexError_beyond _ last false s1 Hnonneg Hlast Hgt)).
    simpl. now rewrite Hconsole.
Qed.

End FrameBound.

Section FrameBoundExamples.
Import JS ChartData.
Existing Instance ReferenceHost.host.

Lemma index_beyond_last_frame_witness :
  result_of (frameAtIndex price_data "day" (Fin (inject_Z 2)) fresh) = Normal null
  /\ result_of (frameAtIndexInterpolated price_data "day" "price" (Fin (3 # 2)) fresh)
     = Normal null.
Proof.
  destruct (index_beyond_last_frame price_data fresh "day") as [Hint Hfrac].
  - apply reach_new.
  - vm_compute. eauto.
  - vm_compute. discriminate.
  - split.
    + apply (Hint 2%Z); [lia | vm_compute; reflexivity | reflexivity].
    + apply (Hfrac "price" (3 # 2)).
      * vm_compute. eauto.
      * discriminate.
      * intros E. vm_compute in E. discriminate E.
      * vm_compute. discriminate.
      * vm_compute. reflexivity.
Defined.

End FrameBoundExamples.

(** ** Memoized answers *)

Section MemoFacts.
Import JS ChartData.
Context `{Host}.

Lemma memo_ok_same (cd : t) (s s2 : state) :
  _memos s2 = _memos s -> memo_ok cd s -> memo_ok cd s2.
Proof.
  intros E Hs k v Hk. rewrite E in Hk. exact (Hs k v Hk).
Qed.

(** *** Computations that only write to the console *)

Lemma console_only_ret {A} (a : A) : console_only a (ret a).
Proof. intros s. split; reflexivity. Qed.

Lemma console_only_tell (out : list entry) : console_only tt (tell out).
Proof. intros s. split; reflexivity. Qed.

Lemma console_only_bind {A B} (a : A) (b : B) (c : M A) (k : A -> M B) :
  console_only a c -> console_only b (k a) -> console_only b (bind c k).
Proof.
  intros Hc Hk s. unfold bind. destruct (Hc s) as [E1 M1].
  destruct (c s) as [r1 s1]. simpl in E1, M1. subst r1.
  destruct (Hk s1) as [E2 M2]. split; [exact E2 | congruence].
Qed.

Lemma console_only__columnError (this : t) (column : string) :
  console_only (undeclared this column) (_columnError this column).
Proof.
  unfold undeclared, _columnError.
  destruct (OrderedMap_get (columns this) column).
  - apply console_only_ret.
  - eapply console_only_bind; [apply console_only_tell | apply console_only_ret].
Qed.

Lemma console_only__columnListError (this : t) (columnList : list string) :
  console_only (existsb (undeclared this) columnList)
    (_columnListError this columnList).
Proof.
  induction columnList as [| c l IH]; simpl.
  - apply console_only_ret.
  - eapply console_only_bind; [apply console_only__columnError |].
    destruct (undeclared this c); [apply console_only_ret | exact IH].
Qed.

Lemma console_only__indexError (index : number) (max : option Z) (integer : bool) :
  exists e, console_only e (_indexError index max integer).
Proof.
  unfold _indexError.
  repeat match goal with
         | |- exists e, console_only e (if ?b then _ else _) => destruct b
         | |- exists e, console_only e (match ?m with Some _ => _ | None => _ end) =>
             destruct m
         | |- exists e, console_only e (bind _ _) =>
             eexists; eapply console_only_bind;
             [apply console_only_tell | apply console_only_ret]
         | |- exists e, console_only e (ret _) => eexists; apply console_only_ret
         end.
Qed.

(** *** The memo object only grows *)

Lemma grows_ret {A} (a : A) : grows (ret a).
Proof. intros s. reflexivity. Qed.

Lemma grows_throw {A} (e : string) : grows (throw (A := A) e).
Proof. intros s. reflexivity. Qed.

Lemma grows_console_only {A} (a : A) (c : M A) : console_only a c -> grows c.
Proof. intros Hc s. destruct (Hc s) as [_ ->]. reflexivity. Qed.

Lemma grows_bind {A B} (c : M A) (k : A -> M B) :
  grows c -> (forall a, grows (k a)) -> grows (bind c k).
Proof.
  intros Hc Hk s. unfold bind. specialize (Hc s).
  destruct (c s) as [[a | e] s1]; simpl in *; [| exact Hc].
  etransitivity; [exact Hc | apply Hk].
Qed.

Lemma grows__memoize (key : string) (fn : M value) :
  grows fn -> grows (_memoize key fn).
Proof.
  intros Hfn s. unfold _memoize.
  destruct (_memos s !! key) as [v |] eqn:Hk; [reflexivity |].
  specialize (Hfn s). destruct (fn s) as [[v | e] s1]; simpl in *; [| exact Hfn].
  apply map_subseteq_spec. intros k x Hkx.
  destruct (decide (key = k)) as [<- | Hne]; [congruence |].
  rewrite lookup_insert_ne by assumption.
  exact (lookup_weaken _ _ _ _ Hkx Hfn).
Qed.

Ltac grows_guard :=
  eapply grows_bind;
  [eapply grows_console_only;
   first [apply console_only__columnError | apply console_only__columnListError
         | apply console_only_tell]
  | intros [|]; [apply grows_ret |]].

Lemma grows__indexError (index : number) (max : option Z) (integer : bool) :
  grows (_indexError index max integer).
Proof.
  destruct (console_only__indexError index max integer) as [e He].
  exact (grows_console_only _ _ He).
Qed.

Lemma grows_makeFrames (this : t) (column : string) : grows (makeFrames this column).
Proof.
  unfold makeFrames. grows_guard. apply grows__memoize, grows_ret.
Qed.

Lemma grows_getUniqueValues (this : t) (column : string) :
  grows (getUniqueValues this column).
Proof.
  unfold getUniqueValues. grows_guard. apply grows__memoize, grows_ret.
Qed.

Lemma grows_frameAtIndex (this : t) (frameColumn : string) (index : number) :
  grows (frameAtIndex this frameColumn index).
Proof.
  unfold frameAtIndex. grows_guard.
  eapply grows_bind; [apply grows__indexError |].
  intros [|]; [apply grows_ret |].
  apply grows__memoize.
  eapply grows_bind; [apply grows_makeFrames |].
  intros [ | | frames | ]; try apply grows_throw.
  eapply grows_bind; [apply grows__indexError |].
  intros [|]; apply grows_ret.
Qed.

Lemma grows_run (cd : t) (q : query) : grows (run cd q).
Proof.
  destruct q; simpl.
  - unfold getColumnData. grows_guard. apply grows__memoize, grows_ret.
  - apply grows_getUniqueValues.
  - apply grows_makeFrames.
  - apply grows_frameAtIndex.
  - unfold frameAtIndexInterpolated. grows_guard.
    eapply grows_bind;
      [eapply grows_console_only; apply console_only__columnError |].
    intros [|]; [apply grows_ret |].
    eapply grows_bind; [apply grows__indexError |].
    intros [|]; [apply grows_ret |].
    destruct (String.eqb frameColumn primaryColumn).
    { eapply grows_bind;
        [eapply grows_console_only; apply console_only_tell
        | intros _; apply grows_ret]. }
    destruct (num_eq index (Math_round index)); [apply grows_frameAtIndex |].
    eapply grows_bind; [apply grows_makeFrames |].
    intros [ | | frames | ]; try apply grows_throw.
    eapply grows_bind; [apply grows__indexError |].
    intros [|]; [apply grows_ret |].
    eapply grows_bind; [apply grows_getUniqueValues |].
    intros [ | all | | ]; try apply grows_throw.
    destruct (List_get frames (Math_floor index)), (List_get frames (Math_ceil index));
      try apply grows_throw.
    eapply grows_bind;
      [eapply grows_console_only; apply console_only_tell
      | intros _; apply grows_ret].
  - unfold _aggregation. grows_guard. apply grows__memoize, grows_ret.
Qed.

Lemma run_all_grows (cd : t) (qs : list query) (s : state) :
  _memos s ⊆ _memos (run_all cd qs s).
Proof.
  unfold run_all. revert s. induction qs as [| q qs IH]; intros s; simpl.
  - reflexivity.
  - etransitivity; [apply (grows_run cd q s) | apply IH].
Qed.

Lemma run_all_reachable (cd : t) (qs : list query) (s : state) :
  reachable cd s -> reachable cd (run_all cd qs s).
Proof.
  unfold run_all. revert s. induction qs as [| q qs IH]; intros s Hs; simpl.
  - exact Hs.
  - apply IH. now apply reach_query.
Qed.

(** *** An answer given is given again *)

Lemma stable_ret {A} (cd : t) (a : A) : stable cd (ret a).
Proof. intros s a' _ Ha s2 _ _. exact Ha. Qed.

Lemma stable_throw {A} (cd : t) (e : string) : stable cd (throw (A := A) e).
Proof. intros s a _ Ha. discriminate Ha. Qed.

Lemma stable__memoize (cd : t) (key : string) (fn : M value) :
  stable cd (_memoize key fn).
Proof.
  intros s a _ Ha s2 _ Hsub. unfold _memoize in *.
  assert (Hkey : _memos s2 !! key = Some a).
  { eapply lookup_weaken; [| exact Hsub].
    destruct (_memos s !! key) as [v |] eqn:Hk.
    - simpl in *. congruence.
    - destruct (fn s) as [[v | e] s1]; simpl in *; [| discriminate].
      injection Ha as ->. apply lookup_insert_eq. }
  now rewrite Hkey.
Qed.

Lemma stable_guard {A B} (cd : t) (a : A) (g : M A) (k : A -> M B) :
  console_only a g -> stable cd (k a) -> stable cd (bind g k).
Proof.
  intros Hg Hk s b Hs Hb s2 Hs2 Hsub. unfold bind in *.
  destruct (Hg s) as [E1 M1]. destruct (Hg s2) as [E2 M2].
  destruct (g s) as [r1 s1]. destruct (g s2) as [r2 s2'].
  simpl in E1, M1, E2, M2. subst r1 r2.
  apply (Hk s1 b).
  - exact (memo_ok_same _ _ _ M1 Hs).
  - exact Hb.
  - exact (memo_ok_same _ _ _ M2 Hs2).
  - now rewrite M2.
Qed.

Lemma stable_determined {A B} (cd : t) (a : A) (c : M A) (k : A -> M B) :
  determined cd a c -> stable cd (k a) -> stable cd (bind c k).
Proof.
  intros Hc Hk s b Hs Hb s2 Hs2 Hsub. unfold bind in *.
  destruct (Hc s Hs) as (E1 & O1 & _). destruct (Hc s2 Hs2) as (E2 & O2 & G2).
  destruct (c s) as [r1 s1]. destruct (c s2) as [r2 s2'].
  simpl in E1, O1, E2, O2, G2. subst r1 r2.
  apply (Hk s1 b); try assumption.
  etransitivity; eassumption.
Qed.

Lemma determined_makeFrames (this : t) (column : string) :
  undeclared this column = false ->
  determined this (VFrames (frames_of this column)) (makeFrames this column).
Proof.
  intros Hc s Hs.
  assert (Hdecl : is_Some (OrderedMap_get (columns this) column)).
  { unfold undeclared in Hc. destruct (OrderedMap_get _ _); [eauto | discriminate]. }
  destruct (makeFrames_declared this column s Hs Hdecl) as [E O].
  split; [exact E |]. split; [exact O | apply grows_makeFrames].
Qed.

Lemma determined_getUniqueValues (this : t) (column : string) :
  undeclared this column = false ->
  determined this (VList (unique_of this column)) (getUniqueValues this column).
Proof.
  intros Hc s Hs.
  assert (Hdecl : is_Some (OrderedMap_get (columns this) column)).
  { unfold undeclared in Hc. destruct (OrderedMap_get _ _); [eauto | discriminate]. }
  destruct (getUniqueValues_declared this column s Hs Hdecl) as [E O].
  split; [exact E |]. split; [exact O | apply grows_getUniqueValues].
Qed.

Lemma stable__indexError {B} (cd : t) (index : number) (max : option Z)
    (integer : bool) (k : bool -> M B) :
  (forall e, stable cd (k e)) -> stable cd (bind (_indexError index max integer) k).
Proof.
  intros Hk. destruct (console_only__indexError index max integer) as [e He].
  exact (stable_guard _ _ _ _ He (Hk e)).
Qed.

Lemma stable_frameAtIndex (this : t) (frameColumn : string) (index : number) :
  stable this (frameAtIndex this frameColumn index).
Proof.
  unfold frameAtIndex.
  eapply stable_guard; [apply console_only__columnError |].
  destruct (undeclared this frameColumn); [apply stable_ret |].
  apply stable__indexError. intros [|]; [apply stable_ret | apply stable__memoize].
Qed.

Lemma stable_run (cd : t) (q : query) : stable cd (run cd q).
Proof.
  destruct q; simpl.
  - unfold getColumnData.
    eapply stable_guard; [apply console_only__columnError |].
    destruct (undeclared cd column); [apply stable_ret | apply stable__memoize].
  - unfold getUniqueValues.
    eapply stable_guard; [apply console_only__columnError |].
    destruct (undeclared cd column); [apply stable_ret | apply stable__memoize].
  - unfold makeFrames.
    eapply stable_guard; [apply console_only__columnError |].
    destruct (undeclared cd column); [apply stable_ret | apply stable__memoize].
  - apply stable_frameAtIndex.
  - unfold frameAtIndexInterpolated.
    eapply stable_guard; [apply console_only__columnError |].
    destruct (undeclared cd frameColumn) eqn:Hf; [apply stable_ret |].
    eapply stable_guard; [apply console_only__columnError |].
    destruct (undeclared cd primaryColumn) eqn:Hp; [apply stable_ret |].
    apply stable__indexError. intros [|]; [apply stable_ret |].
    destruct (String.eqb frameColumn primaryColumn).
    { eapply stable_guard; [apply console_only_tell | apply stable_ret]. }
    destruct (num_eq index (Math_round index)); [apply stable_frameAtIndex |].
    eapply stable_determined; [now apply determined_makeFrames |].
    apply stable__indexError. intros [|]; [apply stable_ret |].
    eapply stable_determined; [now apply determined_getUniqueValues |].
    destruct (List_get (frames_of cd frameColumn) (Math_floor index)),
             (List_get (frames_of cd frameColumn) (Math_ceil index));
      try apply stable_throw.
    eapply stable_guard; [apply console_only_tell | apply stable_ret].
  - unfold _aggregation.
    eapply stable_guard; [apply console_only__columnListError |].
    destruct (existsb _ _); [apply stable_ret | apply stable__memoize].
Qed.

(** X4.  On a reachable store, an answer is final: once a query has
    returned a value, the same query returns that value again after any
    further queries on the store, whatever they memoize in between. *)
Theorem answers_are_final (cd : t) (s : state) (q : query) (v : value)
    (qs : list query) :
  reachable cd s ->
  result_of (run cd q s) = Normal v ->
  result_of (run cd q (run_all cd qs (state_of (run cd q s)))) = Normal v.
Proof.
  intros Hreach Hv.
  destruct (reachable_ok _ _ Hreach) as [_ Hmemo].
  apply (stable_run cd q s v Hmemo Hv).
  - apply (reachable_ok cd). apply run_all_reachable. now apply reach_query.
  - apply run_all_grows.
Qed.

(** *** What [getColumnData] memoizes *)

Lemma upholds_ret {A} I (a : A) : upholds I (ret a).
Proof. intros s Hs. exact Hs. Qed.

Lemma upholds_throw {A} I (e : string) : upholds I (throw (A := A) e).
Proof. intros s Hs. exact Hs. Qed.

Lemma upholds_console_only {A} I (a : A) (c : M A) :
  console_only a c -> upholds I c.
Proof.
  intros Hc s Hs k v Hk. destruct (Hc s) as [_ E]. rewrite E in Hk. exact (Hs k v Hk).
Qed.

Lemma upholds_bind {A B} I (c : M A) (k : A -> M B) :
  upholds I c -> (forall a, upholds I (k a)) -> upholds I (bind c k).
Proof.
  intros Hc Hk s Hs. unfold bind. specialize (Hc s Hs).
  destruct (c s) as [[a | e] s1]; simpl in *; [| exact Hc].
  now apply Hk.
Qed.

Lemma upholds__memoize I (key : string) (fn : M value) :
  upholds I fn -> (forall s v, fst (fn s) = Normal v -> I key v) ->
  upholds I (_memoize key fn).
Proof.
  intros Hfn Hv s Hs. unfold _memoize.
  destruct (_memos s !! key) as [v |] eqn:Hk; [exact Hs |].
  specialize (Hfn s Hs). specialize (Hv s).
  destruct (fn s) as [[v | e] s1]; simpl in *; [| exact Hfn].
  intros k x Hkx. simpl in Hkx.
  destruct (decide (key = k)) as [<- | Hne].
  - rewrite lookup_insert_eq in Hkx. injection Hkx as <-. now apply Hv.
  - rewrite lookup_insert_ne in Hkx by assumption. exact (Hfn k x Hkx).
Qed.

Lemma upholds__indexError I (index : number) (max : option Z) (integer : bool) :
  upholds I (_indexError index max integer).
Proof.
  destruct (console_only__indexError index max integer) as [e He].
  exact (upholds_console_only _ _ _ He).
Qed.

Ltac upholds_guard :=
  eapply upholds_bind;
  [eapply upholds_console_only;
   first [apply console_only__columnError | apply console_only__columnListError
         | apply console_only_tell]
  | intros [|]; [apply upholds_ret |]].

Lemma foreign_key (cd : t) (k : string) (v : value) :
  (forall c, k <> "getColumnData." +:+ c) -> cells_entry cd k v.
Proof. intros Hk c E. now apply Hk in E. Qed.

Lemma upholds_makeFrames (cd this : t) (column : string) :
  upholds (cells_entry cd) (makeFrames this column).
Proof.
  unfold makeFrames. upholds_guard.
  apply upholds__memoize; [apply upholds_ret |].
  intros s v _. apply foreign_key. other_key.
Qed.

Lemma upholds_getUniqueValues (cd this : t) (column : string) :
  upholds (cells_entry cd) (getUniqueValues this column).
Proof.
  unfold getUniqueValues. upholds_guard.
  apply upholds__memoize; [apply upholds_ret |].
  intros s v _. apply foreign_key. other_key.
Qed.

Lemma upholds_frameAtIndex (cd this : t) (frameColumn : string) (index : number) :
  upholds (cells_entry cd) (frameAtIndex this frameColumn index).
Proof.
  unfold frameAtIndex. upholds_guard.
  eapply upholds_bind; [apply upholds__indexError |].
  intros [|]; [apply upholds_ret |].
  apply upholds__memoize.
  - eapply upholds_bind; [apply upholds_makeFrames |].
    intros [ | | frames | ]; try apply upholds_throw.
    eapply upholds_bind; [apply upholds__indexError |].
    intros [|]; apply upholds_ret.
  - intros s v _. apply foreign_key. other_key.
Qed.

Lemma upholds_run (cd : t) (q : query) : upholds (cells_entry cd) (run cd q).
Proof.
  destruct q; simpl.
  - unfold getColumnData. upholds_guard.
    apply upholds__memoize; [apply upholds_ret |].
    intros s v [= <-] c E. apply append_inj in E. now subst c.
  - apply upholds_getUniqueValues.
  - apply upholds_makeFrames.
  - apply upholds_frameAtIndex.
  - unfold frameAtIndexInterpolated. upholds_guard.
    eapply upholds_bind;
      [eapply upholds_console_only; apply console_only__columnError |].
    intros [|]; [apply upholds_ret |].
    eapply upholds_bind; [apply upholds__indexError |].
    intros [|]; [apply upholds_ret |].
    destruct (String.eqb frameColumn primaryColumn).
    { eapply upholds_bind;
        [eapply upholds_console_only; apply console_only_tell
        | intros _; apply upholds_ret]. }
    destruct (num_eq index (Math_round index)); [apply upholds_frameAtIndex |].
    eapply upholds_bind; [apply upholds_makeFrames |].
    intros [ | | frames | ]; try apply upholds_throw.
    eapply upholds_bind; [apply upholds__indexError |].
    intros [|]; [apply upholds_ret |].
    eapply upholds_bind; [apply upholds_getUniqueValues |].
    intros [ | all | | ]; try apply upholds_throw.
    destruct (List_get frames (Math_floor index)), (List_get frames (Math_ceil index));
      try apply upholds_throw.
    eapply upholds_bind;
      [eapply upholds_console_only; apply console_only_tell
      | intros _; apply upholds_ret].
  - unfold _aggregation. upholds_guard.
    apply upholds__memoize; [apply upholds_ret |].
    intros s v _. apply foreign_key.
    intros c E. destruct op; simpl in E; discriminate E.
Qed.

Lemma reachable_cells (cd : t) (s : state) :
  reachable cd s -> memo_inv (cells_entry cd) s.
Proof.
  induction 1 as [raw defs out | cd s updater out _ _ | cd s mapper out _ _
                 | cd s q _ IH | cd s q cd' out _ _ _];
    try (intros k v Hk; simpl in Hk; now rewrite lookup_empty in Hk).
  now apply upholds_run.
Qed.

(** X5.  On a reachable store, [getColumnData] of a declared column
    returns the cells of the column, one for each row and in row order
    ([undefined] where a row has no such cell), and writes nothing to the
    console, however often and after whatever queries it is asked. *)
Theorem getColumnData_cells (cd : t) (s : state) (column : string) :
  reachable cd s ->
  is_Some (OrderedMap_get (columns cd) column) ->
  result_of (getColumnData cd column s) = Normal (VList (cells_of cd column))
  /\ console (state_of (getColumnData cd column s)) = console s
  /\ length (cells_of cd column) = length (rows cd)
  /\ (forall i row, rows cd !! i = Some row ->
        cells_of cd column !! i = Some (get row column)
        /\ (get row column = JUndefined \/ is_scalar (get row column))).
Proof.
  intros Hreach Hc.
  pose proof (reachable_cells _ _ Hreach) as Hcells.
  destruct (reachable_ok _ _ Hreach) as [[Hscalars _] _].
  unfold result_of, state_of, getColumnData.
  rewrite (bind_run _ _ _ _ _ (_columnError_declared _ _ _ Hc)). cbv iota.
  split; [| split; [| split]].
  - unfold _memoize.
    destruct (_memos s !! ("getColumnData." +:+ column)) as [v |] eqn:Hk;
      [| reflexivity].
    simpl. f_equal. exact (Hcells _ _ Hk column eq_refl).
  - unfold _memoize. destruct (_memos s !! _); reflexivity.
  - unfold cells_of. apply length_map.
  - intros i row Hrow. split.
    + unfold cells_of. now rewrite list_lookup_fmap, Hrow.
    + unfold get. destruct (row !! column) as [v |] eqn:Hv; simpl; [| now left].
      right. apply (Hscalars row column v); [| exact Hv].
      apply list_elem_of_In. eapply list_elem_of_lookup_2. exact Hrow.
Qed.

End MemoFacts.

Section MemoExamples.
Import JS ChartData.
Existing Instance ReferenceHost.host.

Lemma answers_are_final_witness :
  result_of
    (run comma_data (q_aggregation Sum (column_list ["a"; "b"]))
       (run_all comma_data
          [q_aggregation Sum (one_column "a,b"); q_getColumnData "a"]
          (state_of
             (run comma_data (q_aggregation Sum (column_list ["a"; "b"])) fresh))))
  = Normal (VScalar (JNum (Fin 3))).
Proof.
  apply (answers_are_final comma_data fresh
           (q_aggregation Sum (column_list ["a"; "b"]))
           (VScalar (JNum (Fin 3)))
           [q_aggregation Sum (one_column "a,b"); q_getColumnData "a"]).
  - apply reach_new.
  - vm_compute. reflexivity.
Defined.

Lemma getColumnData_cells_witness :
  result_of (getColumnData price_data "amount" fresh)
  = Normal (VList (cells_of price_data "amount")).
Proof.
  apply (getColumnData_cells price_data fresh "amount").
  - apply reach_new.
  - vm_compute. eauto.
Defined.

End MemoExamples.

(** ** Frames and distinct values *)

Section FrameFacts.
Import JS ChartData.
Context `{Host}.

Lemma group_update_keys {A} (k : jsval) (v : A) (groups : list (jsval * list A)) :
  map fst (group_update k v groups) = OrderedSet_add (map fst groups) k.
Proof.
  unfold OrderedSet_add. induction groups as [| [k' vs] rest IH]; simpl.
  - reflexivity.
  - destruct (Immutable_is k' k); simpl; [reflexivity |].
    rewrite IH. destruct (existsb _ (map fst rest)); reflexivity.
Qed.

(** The keys of [groupBy] are the distinct keys, in order of first
    appearance. *)
Lemma groupBy_keys {A} (grouper : A -> jsval) (l : list A) :
  map fst (groupBy grouper l) = toOrderedSet (map grouper l).
Proof.
  unfold groupBy, toOrderedSet.
  change (@nil jsval) with (map fst (@nil (jsval * list A))) at 1.
  generalize (@nil (jsval * list A)) as acc.
  induction l as [| v l IH]; intros acc; simpl; [reflexivity |].
  now rewrite IH, group_update_keys.
Qed.

Lemma groups_get_distinct {A} (groups : list (jsval * list A)) (i : nat)
    (k : jsval) (vs : list A) :
  distinct (map fst groups) -> groups !! i = Some (k, vs) ->
  groups_get groups k = Some vs.
Proof.
  revert i. induction groups as [| [k' vs'] rest IH]; intros i Hd Hi; simpl in *.
  - discriminate.
  - inversion Hd as [| ? ? Hk' Hrest]; subst.
    destruct i as [| i]; simpl in Hi.
    + injection Hi as -> ->. now rewrite Immutable_is_refl.
    + rewrite Hk'.
      * exact (IH i Hrest Hi).
      * apply in_map_iff. exists (k, vs). split; [reflexivity |].
        apply list_elem_of_In. eapply list_elem_of_lookup_2. exact Hi.
Qed.

Lemma group_update_concat {A} (k : jsval) (v : A) (groups : list (jsval * list A)) :
  Permutation (concat (map snd (group_update k v groups)))
              (v :: concat (map snd groups)).
Proof.
  induction groups as [| [k' vs] rest IH]; simpl.
  - reflexivity.
  - destruct (Immutable_is k' k); simpl.
    + rewrite <- app_assoc. simpl.
      rewrite <- Permutation_middle. reflexivity.
    + rewrite IH. rewrite Permutation_middle. reflexivity.
Qed.

Lemma groupBy_concat {A} (grouper : A -> jsval) (l : list A) :
  Permutation (concat (map snd (groupBy grouper l))) l.
Proof.
  unfold groupBy.
  assert (Hacc : forall acc : list (jsval * list A),
            Permutation
              (concat (map snd (fold_left
                                  (fun groups v => group_update (grouper v) v groups)
                                  l acc)))
              (concat (map snd acc) ++ l)).
  { induction l as [| v l IH]; intros acc; simpl.
    - now rewrite app_nil_r.
    - rewrite IH, group_update_concat. simpl. apply Permutation_middle. }
  apply (Hacc []).
Qed.

Lemma toOrderedSet_sublist (l : list jsval) : sublist (toOrderedSet l) l.
Proof.
  unfold toOrderedSet.
  assert (Hacc : forall acc, sublist (fold_left OrderedSet_add l acc) (acc ++ l)).
  { induction l as [| x l IH]; intros acc; simpl.
    - now rewrite app_nil_r.
    - unfold OrderedSet_add at 2.
      destruct (existsb (fun u => Immutable_is u x) acc).
      + etransitivity; [apply IH |].
        apply sublist_app; [reflexivity | now apply sublist_cons].
      + specialize (IH (acc ++ [x])). now rewrite <- app_assoc in IH. }
  apply (Hacc []).
Qed.

(** The frames of a column, one for each distinct value. *)
Lemma frames_of_spec (cd : t) (column : string) :
  length (frames_of cd column) = length (unique_of cd column)
  /\ (forall i u,
        unique_of cd column !! i = Some u ->
        frames_of cd column !! i
        = Some (List.filter (fun row => Immutable_is (get row column) u) (rows cd)))
  /\ (forall frame, In frame (frames_of cd column) -> frame <> []).
Proof.
  set (groups := groupBy (fun ii => get ii column) (rows cd)).
  assert (Hkeys : map fst groups = unique_of cd column).
  { unfold groups, unique_of. apply groupBy_keys. }
  assert (Hgroup : forall i k vs, groups !! i = Some (k, vs) ->
            vs = List.filter (fun row => Immutable_is (get row column) k) (rows cd)
            /\ vs <> []).
  { intros i k vs Hi.
    assert (Hget : groups_get groups k = Some vs).
    { apply (groups_get_distinct groups i); [| exact Hi].
      rewrite Hkeys. apply toOrderedSet_distinct. }
    unfold groups in Hget. rewrite groups_get_groupBy in Hget.
    destruct (List.filter _ (rows cd)) as [| r rs]; [discriminate |].
    injection Hget as <-. split; [reflexivity | discriminate]. }
  split; [| split].
  - unfold frames_of. fold groups. rewrite <- Hkeys. now rewrite !length_map.
  - intros i u Hu. unfold frames_of. fold groups.
    rewrite <- Hkeys, list_lookup_fmap in Hu. rewrite list_lookup_fmap.
    destruct (groups !! i) as [[k vs] |] eqn:Hi; simpl in *; [| discriminate].
    injection Hu as <-. f_equal. exact (proj1 (Hgroup i k vs Hi)).
  - intros frame Hin. unfold frames_of in Hin. fold groups in Hin.
    apply in_map_iff in Hin. destruct Hin as ([k vs] & <- & Hin).
    apply list_elem_of_In, list_elem_of_lookup in Hin. destruct Hin as [i Hi].
    exact (proj2 (Hgroup i k vs Hi)).
Qed.

(** X6.  On a reachable store, [makeFrames] of a declared column returns
    one frame for each distinct value of the column, in the order in
    which the values first appear: the frame of a value holds exactly the
    rows having that value, in row order.  No frame is empty, and the
    frames together hold every row once. *)
Theorem makeFrames_partition (cd : t) (s : state) (column : string) :
  reachable cd s ->
  is_Some (OrderedMap_get (columns cd) column) ->
  result_of (makeFrames cd column s) = Normal (VFrames (frames_of cd column))
  /\ length (frames_of cd column) = length (unique_of cd column)
  /\ (forall i u,
        unique_of cd column !! i = Some u ->
        frames_of cd column !! i
        = Some (List.filter (fun row => Immutable_is (get row column) u) (rows cd)))
  /\ (forall frame, In frame (frames_of cd column) -> frame <> [])
  /\ Permutation (concat (frames_of cd column)) (rows cd).
Proof.
  intros Hreach Hc.
  destruct (reachable_ok _ _ Hreach) as [_ Hmemo].
  destruct (frames_of_spec cd column) as (Hlen & Hlookup & Hnonempty).
  split; [exact (proj1 (makeFrames_declared cd column s Hmemo Hc)) |].
  split; [exact Hlen |]. split; [exact Hlookup |]. split; [exact Hnonempty |].
  apply groupBy_concat.
Qed.

(** X7.  On a reachable store, [getUniqueValues] of a declared column
    returns the values of the column without repetition, in the order of
    their first appearance: no two entries are equal, every entry is the
    cell of some row, every row's cell is equal to an entry, and the
    entries are a subsequence of the column. *)
Theorem getUniqueValues_distinct (cd : t) (s : state) (column : string) :
  reachable cd s ->
  is_Some (OrderedMap_get (columns cd) column) ->
  result_of (getUniqueValues cd column s) = Normal (VList (unique_of cd column))
  /\ distinct (unique_of cd column)
  /\ (forall u, In u (unique_of cd column) ->
        exists row, In row (rows cd) /\ get row column = u)
  /\ (forall row, In row (rows cd) ->
        exists u, In u (unique_of cd column)
                  /\ Immutable_is u (get row column) = true)
  /\ sublist (unique_of cd column) (cells_of cd column).
Proof.
  intros Hreach Hc.
  destruct (reachable_ok _ _ Hreach) as [_ Hmemo].
  split; [exact (proj1 (getUniqueValues_declared cd column s Hmemo Hc)) |].
  split; [apply toOrderedSet_distinct |]. split; [| split].
  - intros u Hu. apply toOrderedSet_In, in_map_iff in Hu.
    destruct Hu as (row & <- & Hrow). now exists row.
  - intros row Hrow. apply toOrderedSet_covers.
    apply in_map_iff. now exists row.
  - apply toOrderedSet_sublist.
Qed.

End FrameFacts.

Section FrameExamples.
Import JS ChartData.
Existing Instance ReferenceHost.host.

Lemma makeFrames_partition_witness :
  result_of (makeFrames price_data "day" fresh)
  = Normal (VFrames (frames_of price_data "day"))
  /\ length (frames_of price_data "day") = 2.
Proof.
  destruct (makeFrames_partition price_data fresh "day") as (Hr & Hlen & _).
  - apply reach_new.
  - vm_compute. eauto.
  - split; [exact Hr | rewrite Hlen; reflexivity].
Defined.

Lemma getUniqueValues_distinct_witness :
  result_of (getUniqueValues price_data "price" fresh)
  = Normal (VList [JNum (Fin 10); JNum (Fin 20)]).
Proof.
  destruct (getUniqueValues_distinct price_data fresh "price") as (Hr & _).
  - apply reach_new.
  - vm_compute. eauto.
  - rewrite Hr. reflexivity.
Defined.

End FrameExamples.

(** ** Stores derived from a store *)

Section DerivedFacts.
Import JS ChartData.
Context `{Host}.

Lemma OrderedMap_set_fresh {V} (m : list (string * V)) (k : string) (v : V) :
  ~ In k (map fst m) -> OrderedMap_set k v m = m ++ [(k, v)].
Proof.
  induction m as [| [k0 v0] m IH]; simpl; [reflexivity |].
  intros Hk. destruct (String.eqb k0 k) eqn:E.
  - apply String.eqb_eq in E. tauto.
  - rewrite IH by tauto. reflexivity.
Qed.

Lemma Column_recolumn (rows : list ChartRow) (c : ChartColumn) :
  Column (_addContinuous
            {| def_key := key c; def_label := label c;
               def_isContinuous := Some (isContinuous c) |} rows)
  = recolumn rows c.
Proof.
  unfold _addContinuous, recolumn, inferred, Column. simpl.
  destruct (isContinuous c); simpl; [reflexivity |].
  now rewrite find_row_first_non_null.
Qed.

(** The columns of a store, handed back to the constructor with other
    rows: the same keys in the same order, each column rebuilt. *)
Lemma _createColumns_as_definitions (cols : list (string * ChartColumn))
    (rows : list ChartRow) :
  columns_wf cols ->
  _createColumns (as_definitions cols) rows
  = map (fun kc => (fst kc, recolumn rows (snd kc))) cols.
Proof.
  intros [Hnd Hkeys]. unfold _createColumns, as_definitions.
  assert (Hacc : forall done todo : list (string * ChartColumn),
            NoDup (map fst (done ++ todo)) ->
            (forall k c, In (k, c) todo -> key c = k) ->
            fold_left
              (fun map col =>
                 OrderedMap_set (def_key col) (Column (_addContinuous col rows)) map)
              (map (fun kc : string * ChartColumn =>
                      {| def_key := key (snd kc);
                         def_label := label (snd kc);
                         def_isContinuous := Some (isContinuous (snd kc)) |})
                   todo)
              (map (fun kc => (fst kc, recolumn rows (snd kc))) done)
            = map (fun kc => (fst kc, recolumn rows (snd kc))) (done ++ todo)).
  { intros done todo. revert done.
    induction todo as [| [k c] todo IH]; intros done Hnd' Hk'; simpl.
    - now rewrite app_nil_r.
    - assert (Hkc : key c = k) by (apply Hk'; now left).
      rewrite Column_recolumn, Hkc.
      rewrite OrderedMap_set_fresh.
      + replace (map (fun kc => (fst kc, recolumn rows (snd kc))) done
                 ++ [(k, recolumn rows c)])
          with (map (fun kc : string * ChartColumn =>
                       (fst kc, recolumn rows (snd kc))) (done ++ [(k, c)]))
          by (now rewrite map_app).
        rewrite IH.
        * now rewrite <- app_assoc.
        * now rewrite <- app_assoc.
        * intros k' c' Hin. apply Hk'. now right.
      + rewrite map_map. simpl.
        rewrite map_app in Hnd'. simpl in Hnd'.
        apply NoDup_app in Hnd'. destruct Hnd' as (_ & Hdisj & _).
        intros Hin. apply (Hdisj k); [now apply list_elem_of_In | left]. }
  apply (Hacc [] cols); assumption.
Qed.

(** Rows whose cells are scalars are stored as they are. *)
Lemma _createRows_scalars (rows : list ChartRow) :
  (forall row k v, In row rows -> row !! k = Some v -> is_scalar v) ->
  _createRows rows = rows.
Proof.
  intros Hrows. unfold _createRows.
  rewrite <- (map_id rows) at 2. apply map_ext_in. intros row Hrow.
  apply map_eq. intros k. rewrite lookup_fmap.
  destruct (row !! k) as [v |] eqn:Hv; simpl; [| reflexivity].
  apply (Hrows row k v Hrow), isValueValid_scalar in Hv. now rewrite Hv.
Qed.

Lemma recolumn_keys (cols : list (string * ChartColumn)) (rows : list ChartRow) :
  map fst (map (fun kc : string * ChartColumn =>
                  (fst kc, recolumn rows (snd kc))) cols)
  = map fst cols.
Proof. rewrite map_map. reflexivity. Qed.

Lemma OrderedMap_get_map {V W} (f : V -> W) (m : list (string * V)) (k : string) :
  OrderedMap_get (map (fun kv : string * V => (fst kv, f (snd kv))) m) k
  = f <$> OrderedMap_get m k.
Proof.
  induction m as [| [k0 v0] m IH]; simpl; [reflexivity |].
  destruct (String.eqb k0 k); [reflexivity | exact IH].
Qed.

(** X8.  A store derived by [updateRows] (and likewise by [mapRows])
    from a reachable store has the same columns, under the same keys, in
    the same order and with the same labels, whatever the updater
    returns.  A column that was continuous stays continuous; one that
    was not becomes continuous exactly when the first non-null value of
    the column in the new rows is a number. *)
Theorem derived_store_columns (cd : t) (s : state)
    (updater : list ChartRow -> list ChartRow) (mapper : ChartRow -> nat -> ChartRow) :
  reachable cd s ->
  (columns (updateRows cd updater)
   = map (fun kc => (fst kc, recolumn (rows (updateRows cd updater)) (snd kc)))
         (columns cd)
   /\ map fst (columns (updateRows cd updater)) = map fst (columns cd)
   /\ forall k c,
        OrderedMap_get (columns cd) k = Some c ->
        exists c',
          OrderedMap_get (columns (updateRows cd updater)) k = Some c'
          /\ key c' = key c /\ label c' = label c
          /\ isContinuous c'
             = isContinuous c || inferred k (rows (updateRows cd updater)))
  /\ columns (mapRows cd mapper)
     = map (fun kc => (fst kc, recolumn (rows (mapRows cd mapper)) (snd kc)))
           (columns cd).
Proof.
  intros Hreach.
  destruct (reachable_ok _ _ Hreach) as [[_ Hwf] _].
  assert (Hcols : forall new,
            columns (constructor new (as_definitions (columns cd)))
            = map (fun kc => (fst kc,
                              recolumn (rows (constructor new
                                                (as_definitions (columns cd))))
                                       (snd kc)))
                  (columns cd)).
  { intros new. unfold constructor. simpl.
    now apply _createColumns_as_definitions. }
  split; [| apply Hcols].
  unfold updateRows. split; [apply Hcols |]. split.
  - rewrite Hcols. apply recolumn_keys.
  - intros k c Hk. rewrite Hcols, OrderedMap_get_map, Hk. simpl.
    eexists. split; [reflexivity |]. simpl.
    destruct Hwf as [_ Hkeys].
    rewrite (Hkeys k c (OrderedMap_get_In _ _ _ Hk)). auto.
Qed.

(** What [_createColumns] stores is stable under rebuilding over the
    same rows. *)
Lemma _createColumns_stable (defs : list ChartColumnDefinition)
    (rows : list ChartRow) (k : string) (c : ChartColumn) :
  In (k, c) (_createColumns defs rows) -> recolumn rows c = c.
Proof.
  unfold _createColumns.
  assert (Hacc : forall acc : list (string * ChartColumn),
            (forall k c, In (k, c) acc -> recolumn rows c = c) ->
            forall k c,
              In (k, c)
                 (fold_left
                    (fun map col =>
                       OrderedMap_set (def_key col)
                         (Column (_addContinuous col rows)) map)
                    defs acc) ->
              recolumn rows c = c).
  { induction defs as [| d defs IH]; intros acc Hacc k' c' Hin; simpl in Hin.
    - exact (Hacc k' c' Hin).
    - eapply IH; [| exact Hin]. intros k0 c0 Hin0.
      apply OrderedMap_set_In in Hin0.
      destruct Hin0 as [[-> ->] | Hold]; [| exact (Hacc _ _ Hold)].
      unfold _addContinuous, recolumn, inferred, Column.
      destruct (default false (def_isContinuous d)) eqn:Ed; simpl.
      + now rewrite Ed.
      + rewrite find_row_first_non_null. simpl.
        now destruct (first_non_null (def_key d) rows) as [[] |]. }
  apply Hacc. intros k0 c0 [].
Qed.

(** X9.  Updating a constructed store with the identity, or mapping its
    rows with the identity, gives the store back: sanitizing the rows
    and inferring the columns a second time changes nothing. *)
Theorem identity_update (raw : list ChartRow) (defs : list ChartColumnDefinition) :
  updateRows (constructor raw defs) (fun rows => rows) = constructor raw defs
  /\ mapRows (constructor raw defs) (fun row _ => row) = constructor raw defs.
Proof.
  assert (Hsame : constructor (rows (constructor raw defs))
                    (as_definitions (columns (constructor raw defs)))
                  = constructor raw defs).
  { unfold constructor at 1. cbv zeta.
    rewrite _createRows_scalars by apply constructor_all_scalars.
    rewrite _createColumns_as_definitions by apply _createColumns_wf.
    destruct (constructor raw defs) as [rs cs] eqn:E.
    unfold constructor in E. injection E as <- <-. simpl. f_equal.
    rewrite <- (map_id (_createColumns defs (_createRows raw))) at 2.
    apply map_ext_in. intros [k c] Hin. simpl.
    now rewrite (_createColumns_stable _ _ _ _ Hin). }
  assert (Himap : forall l : list ChartRow,
            imap (fun (i : nat) (row : ChartRow) => row) l = l).
  { induction l as [| r l IH]; [reflexivity |].
    simpl. f_equal. exact IH. }
  split.
  - exact Hsame.
  - unfold mapRows. rewrite Himap. exact Hsame.
Qed.

End DerivedFacts.

Section DerivedExamples.
Import JS ChartData.
Existing Instance ReferenceHost.host.

Lemma derived_store_columns_witness :
  map fst (columns (updateRows price_data (fun _ => [ {[ "day" := JStr "x" ]} ])))
  = ["day"; "price"; "amount"].
Proof.
  destruct (derived_store_columns price_data fresh
              (fun _ => [ {[ "day" := JStr "x" ]} ]) (fun row _ => row))
    as ((_ & Hkeys & _) & _).
  - apply reach_new.
  - rewrite Hkeys. reflexivity.
Defined.

End DerivedExamples.

(** ** The store of one frame *)

Section OneFrame.
Import JS ChartData.
Context `{Host}.

Lemma nth_error_lookup {A} (l : list A) (i : nat) : nth_error l i = l !! i.
Proof.
  revert i. induction l as [| x l IH]; intros [| i]; simpl; auto.
Qed.

Lemma _indexError_integer (z : Z) (max : option Z) (s : state) :
  (0 <= z)%Z ->
  match max with Some m => (z <= m)%Z | None => True end ->
  _indexError (Fin (inject_Z z)) max true s = (Normal false, s).
Proof.
  intros Hz Hmax. unfold _indexError.
  assert (Hnonneg : num_lt (Fin (inject_Z z)) (Fin 0) = false).
  { simpl. apply Qlt_bool_false. change 0%Q with (inject_Z 0).
    now rewrite <- Zle_Qle. }
  rewrite Hnonneg, integer_is_rounded.
  destruct max as [m |]; [| reflexivity].
  assert (Hle : num_gt (Fin (inject_Z z)) (Fin (inject_Z m)) = false).
  { unfold num_gt. simpl. apply Qlt_bool_false. now rewrite <- Zle_Qle. }
  rewrite Hle, andb_false_r. reflexivity.
Qed.

(** X10.  On a reachable store, [frameAtIndex] of a declared column at
    the index [i] of one of its distinct values, asked for the first
    time, returns the store of exactly the rows having that value, in row
    order and as they are; its columns are those of the store, rebuilt
    over these rows.  Nothing is written to the console, and the store
    returned is memoized under the key of the call. *)
Theorem frameAtIndex_frame (cd : t) (s : state) (frameColumn : string)
    (i : nat) (u : jsval) :
  reachable cd s ->
  is_Some (OrderedMap_get (columns cd) frameColumn) ->
  unique_of cd frameColumn !! i = Some u ->
  let key := "frameAtIndex." +:+ frameColumn +:+ "["
             +:+ number_to_string (Fin (inject_Z (Z.of_nat i))) +:+ "]" in
  _memos s !! key = None ->
  let frame :=
    List.filter (fun row => Immutable_is (get row frameColumn) u) (rows cd) in
  let store :=
    {| rows := frame;
       columns := map (fun kc => (fst kc, recolumn frame (snd kc))) (columns cd) |} in
  let r := frameAtIndex cd frameColumn (Fin (inject_Z (Z.of_nat i))) s in
  result_of r = Normal (VChartData store)
  /\ console (state_of r) = console s
  /\ _memos (state_of r) !! key = Some (VChartData store).
Proof.
  intros Hreach Hc Hu key Hkey frame store r.
  destruct (reachable_ok _ _ Hreach) as [[Hscalars Hwf] Hmemo].
  destruct (frames_of_spec cd frameColumn) as (Hlen & Hlookup & _).
  pose proof (Hlookup i u Hu) as Hframe. fold frame in Hframe.
  assert (Hi : i < length (frames_of cd frameColumn)).
  { rewrite Hlen. now apply lookup_lt_Some in Hu. }
  destruct (makeFrames_declared cd frameColumn s Hmemo Hc) as [Hframes _].
  pose proof (makeFrames_console cd frameColumn s Hc) as Hconsole.
  destruct (makeFrames cd frameColumn s) as [r1 s1] eqn:Emake.
  simpl in Hframes, Hconsole. subst r1.
  assert (Hstore :
            constructor (default [] (List_get (frames_of cd frameColumn)
                                       (Fin (inject_Z (Z.of_nat i)))))
              (as_definitions (columns cd))
            = store).
  { rewrite List_get_nat by lia. rewrite Nat2Z.id, nth_error_lookup, Hframe. simpl.
    unfold constructor. cbv zeta.
    rewrite _createRows_scalars.
    - now rewrite _createColumns_as_definitions.
    - intros row k v Hrow. apply (Hscalars row k v).
      unfold frame in Hrow. apply filter_In in Hrow. tauto. }
  assert (Hrun : frameAtIndex cd frameColumn (Fin (inject_Z (Z.of_nat i))) s
                 = (Normal (VChartData store),
                    {| _memos := <[key := VChartData store]> (_memos s1);
                       console := console s1 |})).
  { unfold frameAtIndex.
    rewrite (bind_run _ _ _ _ _ (_columnError_declared _ _ _ Hc)). cbv iota.
    rewrite (bind_run _ _ _ _ _
               (_indexError_integer (Z.of_nat i) None s ltac:(lia) I)).
    cbv iota. fold key. unfold _memoize. rewrite Hkey.
    rewrite (bind_run _ _ _ _ _ Emake). cbv iota.
    rewrite (bind_run _ _ _ _ _
               (_indexError_integer (Z.of_nat i)
                  (Some (Z.of_nat (length (frames_of cd frameColumn)) - 1)%Z) s1
                  ltac:(lia) ltac:(simpl; lia))).
    cbv iota. unfold ret. now rewrite Hstore. }
  unfold r. rewrite Hrun. simpl.
  split; [reflexivity |]. split; [exact Hconsole | apply lookup_insert_eq].
Qed.

End OneFrame.

Section OneFrameExamples.
Import JS ChartData.
Existing Instance ReferenceHost.host.

Lemma frameAtIndex_frame_witness :
  result_of (frameAtIndex price_data "day" (Fin (inject_Z (Z.of_nat 1))) fresh)
  = Normal
      (VChartData
         {| rows :=
              [ {[ "day" := JNum (Fin 2); "price" := JNum (Fin 10);
                   "amount" := JNum (Fin 4) ]};
                {[ "day" := JNum (Fin 2); "price" := JNum (Fin 20);
                   "amount" := JNum (Fin 30) ]} ];
            columns := columns price_data |}).
Proof.
  destruct (frameAtIndex_frame price_data fresh "day" 1 (JNum (Fin 2)))
    as (Hr & _).
  - apply reach_new.
  - vm_compute. eauto.
  - reflexivity.
  - reflexivity.
  - rewrite Hr. vm_compute. exact eq_refl.
Defined.

End OneFrameExamples.

(** ** More on linear interpolation *)

Section LerpFacts.
Import JS ChartData.
Context `{Host}.

(** X12.  [lerp] of two scalars is a scalar, whatever the blend; it
    writes to the console only for a blend outside [0, 1], one error,
    and then returns [null]. *)
Theorem lerp_scalar (a b : jsval) (blend : number) :
  isValueValid a = true -> isValueValid b = true ->
  isValueValid (fst (lerp a b blend)) = true
  /\ (snd (lerp a b blend) = []
      \/ (lerp a b blend = (JNull, [console_error blend_out_of_range])
          /\ num_eq blend (Fin 0) = false /\ num_eq blend (Fin 1) = false
          /\ (num_lt blend (Fin 0) = true \/ num_gt blend (Fin 1) = true))).
Proof.
  intros Ha Hb. unfold lerp.
  destruct (num_eq blend (Fin 0)) eqn:E0; [split; [exact Ha | now left] |].
  destruct (num_eq blend (Fin 1)) eqn:E1; [split; [exact Hb | now left] |].
  destruct (num_lt blend (Fin 0)) eqn:Elt; cbn [orb].
  { split; [reflexivity |]. right. repeat split. now left. }
  destruct (num_gt blend (Fin 1)) eqn:Egt.
  { split; [reflexivity |]. right. repeat split. now right. }
  destruct a, b; simpl in *; try discriminate; split; try reflexivity; now left.
Qed.

End LerpFacts.

Section LerpExamples.
Import JS ChartData.
Existing Instance ReferenceHost.host.

Lemma lerp_scalar_witness :
  isValueValid (fst (lerp (JStr "a") JNull (Fin 3))) = true.
Proof.
  apply (lerp_scalar (JStr "a") JNull (Fin 3)); reflexivity.
Defined.

End LerpExamples.

(** ** What an aggregation works on *)

Section AggregationValues.
Import JS ChartData.
Context `{Host}.

Lemma listed_cell_step (row : ChartRow) (k k' : string) (ks : list string)
    (v' : jsval) :
  (k = k' -> row !! k' <> Some v') ->
  row !! k' = Some v' /\ bool_decide (k' ∈ k :: ks)
  <-> row !! k' = Some v' /\ bool_decide (k' ∈ ks).
Proof.
  intros Hne. rewrite !bool_decide_spec, elem_of_cons. split.
  - intros [Hv [-> | Hin]]; [now destruct (Hne eq_refl) | now split].
  - intros [Hv Hin]. split; [exact Hv | now right].
Qed.

(** The cells of a row under the listed keys, each once. *)
Lemma listed_cells (row : ChartRow) (ks : list string) :
  NoDup ks ->
  Permutation
    (map snd (map_to_list (filter (fun kv : string * jsval =>
                                     bool_decide (fst kv ∈ ks)) row)))
    (omap (fun k => row !! k) ks).
Proof.
  induction 1 as [| k ks Hk Hnd IH]; csimpl.
  - replace (filter _ row) with (∅ : ChartRow); [now rewrite map_to_list_empty |].
    symmetry. apply map_empty. intros k. apply map_lookup_filter_None.
    right. intros v _ Hin.
    assert (Hk : k ∈ @nil string) by (eapply bool_decide_unpack; exact Hin).
    inversion Hk.
  - destruct (row !! k) as [v |] eqn:Hv.
    + assert (E : filter (fun kv : string * jsval => bool_decide (fst kv ∈ k :: ks)) row
                  = <[k := v]> (filter (fun kv : string * jsval =>
                                          bool_decide (fst kv ∈ ks)) row)).
      { apply map_eq. intros k'. apply option_eq. intros v'.
        rewrite map_lookup_filter_Some. simpl.
        destruct (decide (k = k')) as [<- | Hne].
        - rewrite lookup_insert_eq, Hv. split.
          + intros [[= <-] _]. reflexivity.
          + intros [= <-]. split; [reflexivity |]. apply bool_decide_pack. left.
        - rewrite lookup_insert_ne by assumption.
          rewrite map_lookup_filter_Some. simpl.
          apply listed_cell_step. intros E. contradiction. }
      rewrite E, map_to_list_insert.
      * simpl. now rewrite IH.
      * apply map_lookup_filter_None. right. intros v' _ Hin.
        assert (Hk' : k ∈ ks) by (eapply bool_decide_unpack; exact Hin).
        contradiction.
    + assert (E : filter (fun kv : string * jsval => bool_decide (fst kv ∈ k :: ks)) row
                  = filter (fun kv : string * jsval => bool_decide (fst kv ∈ ks)) row).
      { apply map_eq. intros k'. apply option_eq. intros v'.
        rewrite !map_lookup_filter_Some. simpl.
        apply listed_cell_step. intros <-. congruence. }
      rewrite E. exact IH.
Qed.

Lemma listed_cells_dups (row : ChartRow) (ks : list string) :
  filter (fun kv : string * jsval => bool_decide (fst kv ∈ ks)) row
  = filter (fun kv : string * jsval => bool_decide (fst kv ∈ remove_dups ks)) row.
Proof.
  apply map_filter_ext. intros k v _. simpl.
  rewrite !bool_decide_spec. now rewrite elem_of_remove_dups.
Qed.

(** [_allValuesForColumns]: for each row, the cells under the listed
    columns, a column listed twice counting once. *)
Lemma _allValuesForColumns_cells (this : t) (columnList : list string) :
  Permutation (_allValuesForColumns this columnList)
    (flat_map (fun row : ChartRow =>
                 omap (fun k => row !! k) (remove_dups columnList))
              (rows this)).
Proof.
  unfold _allValuesForColumns.
  assert (Hacc : forall (l : list ChartRow) (acc : list jsval),
            Permutation
              (fold_left
                 (fun values (row : ChartRow) =>
                    values ++
                    map snd
                      (map_to_list
                         (filter (fun kv : string * jsval =>
                                    bool_decide (fst kv ∈ columnList)) row)))
                 l acc)
              (acc ++ flat_map (fun row : ChartRow =>
                                  omap (fun k => row !! k) (remove_dups columnList))
                               l)).
  { induction l as [| row l IH]; intros acc; simpl.
    - now rewrite app_nil_r.
    - rewrite IH, <- app_assoc. apply Permutation_app_head, Permutation_app_tail.
      rewrite listed_cells_dups. apply listed_cells, NoDup_remove_dups. }
  apply (Hacc (rows this) []).
Qed.
Lemma filter_Permutation_list {A} (P : A -> bool) (l1 l2 : list A) :
  Permutation l1 l2 -> Permutation (List.filter P l1) (List.filter P l2).
Proof.
  induction 1 as [| x l1 l2 _ IH | x y l | l1 l2 l3 _ IH1 _ IH2]; simpl.
  - reflexivity.
  - destruct (P x); [now constructor | exact IH].
  - destruct (P x), (P y); try reflexivity. apply perm_swap.
  - etransitivity; eassumption.
Qed.

Variable this : t.

(** X13.  An aggregation over declared columns, asked for the first time
    under its key, applies the reducer to the non-null cells of the named
    columns over all rows (and to nothing else: cells of other columns,
    [null] and missing cells do not count; a cell counts once, also when
    its column is named twice), returns [null] where the reducer gives
    something that is not a number, memoizes the answer under the key and
    writes nothing to the console.  When every named cell is null or
    missing the reducer gets the empty collection. *)
Theorem aggregation_first_call (op : operation) (columns : ChartColumnArg)
    (s : state) :
  Forall (fun c => is_Some (OrderedMap_get (ChartData.columns this) c))
         (_columnArgList columns) ->
  let key := operation_name op +:+ "." +:+ String.concat "," (_columnArgList columns) in
  _memos s !! key = None ->
  let values :=
    List.filter (fun val => negb (eq_null val))
      (_allValuesForColumns this (_columnArgList columns)) in
  let answer :=
    VScalar (if isNaN (ImmutableMath op values) then JNull
             else ImmutableMath op values) in
  _aggregation this op columns s
  = (Normal answer,
     {| _memos := <[key := answer]> (_memos s); console := console s |})
  /\ Permutation values
       (List.filter (fun val => negb (eq_null val))
          (flat_map (fun row : ChartRow =>
                       omap (fun k => row !! k)
                            (remove_dups (_columnArgList columns)))
                    (rows this)))
  /\ (forall v,
        In v values
        <-> eq_null v = false
            /\ exists (row : ChartRow) (k : string),
                 In row (rows this) /\ In k (_columnArgList columns)
                 /\ row !! k = Some v)
  /\ ((forall row k, In row (rows this) -> In k (_columnArgList columns) ->
         eq_null (get row k) = true) ->
      values = []).
Proof.
  intros Hdecl key Hkey values answer. split; [| split; [| split]].
  - unfold _aggregation.
    rewrite (bind_run _ _ _ _ _ (_columnListError_declared _ _ _ Hdecl)). cbv iota.
    fold key. unfold _memoize. rewrite Hkey. reflexivity.
  - unfold values. apply filter_Permutation_list, _allValuesForColumns_cells.
  - intros v. unfold values. rewrite filter_In, _allValuesForColumns_In.
    rewrite negb_true_iff. tauto.
  - intros Hnull. unfold values.
    destruct (List.filter _ _) as [| v l] eqn:E; [reflexivity |].
    assert (Hv : In v (List.filter (fun val => negb (eq_null val))
                         (_allValuesForColumns this (_columnArgList columns)))).
    { rewrite E. now left. }
    apply filter_In in Hv. destruct Hv as [Hv Hnn].
    apply _allValuesForColumns_In in Hv. destruct Hv as (row & k & Hrow & Hk & Hcell).
    specialize (Hnull row k Hrow Hk). unfold get in Hnull. rewrite Hcell in Hnull.
    simpl in Hnull. now rewrite Hnull in Hnn.
Qed.

End AggregationValues.

Section AggregationValuesExamples.
Import JS ChartData.
Existing Instance ReferenceHost.host.

Lemma aggregation_first_call_witness :
  result_of (max price_data (column_list ["price"; "amount"]) fresh)
  = Normal (VScalar (JNum (Fin 40))).
Proof.
  destruct (aggregation_first_call price_data Max
              (column_list ["price"; "amount"]) fresh) as (Hr & _).
  - repeat constructor; vm_compute; eauto.
  - reflexivity.
  - unfold max. rewrite Hr. vm_compute. reflexivity.
Defined.

End AggregationValuesExamples.

(** ** The columns of a constructed store *)

Section ConstructedColumns.
Import JS ChartData.



End ConstructedColumns.

(** ** The store between two frames: its shape and the console *)

Section InterpolatedShape.
Import JS ChartData.
Context `{Host}.

Lemma getUniqueValues_console (this : t) (column : string) (s : state) :
  is_Some (OrderedMap_get (columns this) column) ->
  console (snd (getUniqueValues this column s)) = console s.
Proof.
  intros Hc. unfold getUniqueValues.
  rewrite (bind_run _ _ _ _ _ (_columnError_declared _ _ _ Hc)). cbv iota.
  unfold _memoize. destruct (_memos s !! _); reflexivity.
Qed.

Lemma lerp_quiet (a b : jsval) (blend : number) :
  num_lt blend (Fin 0) = false -> num_gt blend (Fin 1) = false ->
  snd (lerp a b blend) = [].
Proof.
  intros Hlo Hhi. unfold lerp. rewrite Hlo, Hhi. cbn [orb].
  destruct (num_eq blend (Fin 0)); [reflexivity |].
  destruct (num_eq blend (Fin 1)); [reflexivity |].
  destruct (eq_null a || eq_null b); [reflexivity |].
  destruct (negb (typeof a =? "number")%string || negb (typeof b =? "number")%string);
    [reflexivity |].
  destruct a, b; reflexivity.
Qed.

(** The loop over the columns writes nothing when [lerp] does not. *)
Lemma reduce_quiet (cols : list (string * ChartColumn))
    (val : ChartColumn -> jsval * list entry) (acc : ChartRow * list entry) :
  (forall c, snd (val c) = []) ->
  snd (fold_left
         (fun (acc : ChartRow * list entry) (kc : string * ChartColumn) =>
            let column := snd kc in
            let (value, o) := val column in
            (<[key column := value]> (fst acc), snd acc ++ o))
         cols acc)
  = snd acc.
Proof.
  intros Hval. revert acc. induction cols as [| [k c] cols IH]; intros acc; simpl.
  - reflexivity.
  - rewrite IH. specialize (Hval c). destruct (val c) as [value o].
    simpl in *. subst o. apply app_nil_r.
Qed.

Lemma getRowFromFrame_console (frameColumn primaryColumn : string)
    (frame : list ChartRow) (primaryValue : jsval) :
  snd (getRowFromFrame frameColumn primaryColumn
         (groupBy (fun ii => get ii primaryColumn) frame) primaryValue)
  = duplicate_warning frameColumn primaryColumn frame primaryValue.
Proof.
  unfold getRowFromFrame, duplicate_warning. rewrite groups_get_groupBy.
  destruct (List.filter _ frame) as [| first [| second others]]; reflexivity.
Qed.

Lemma interpolate_row_console (this : t) (frameColumn primaryColumn : string)
    (frameA frameB : list ChartRow) (blend : number) (primaryValue : jsval) :
  num_lt blend (Fin 0) = false -> num_gt blend (Fin 1) = false ->
  snd (interpolate_row this frameColumn primaryColumn
         (groupBy (fun ii => get ii primaryColumn) frameA)
         (groupBy (fun ii => get ii primaryColumn) frameB)
         blend primaryValue)
  = duplicate_warning frameColumn primaryColumn frameA primaryValue
    ++ duplicate_warning frameColumn primaryColumn frameB primaryValue.
Proof.
  intros Hlo Hhi. unfold interpolate_row.
  pose proof (getRowFromFrame_console frameColumn primaryColumn frameA primaryValue)
    as EA.
  pose proof (getRowFromFrame_console frameColumn primaryColumn frameB primaryValue)
    as EB.
  destruct (getRowFromFrame frameColumn primaryColumn
              (groupBy (fun ii => get ii primaryColumn) frameA) primaryValue)
    as [rowA outA].
  destruct (getRowFromFrame frameColumn primaryColumn
              (groupBy (fun ii => get ii primaryColumn) frameB) primaryValue)
    as [rowB outB].
  simpl in EA, EB. subst outA outB.
  destruct rowA as [rowA |]; [| reflexivity].
  destruct rowB as [rowB |]; [| reflexivity].
  match goal with
  | |- context [fold_left ?f ?l ?a] =>
      pose proof (reduce_quiet (columns this)
                    (fun column =>
                       if isContinuous column
                          && negb (String.eqb (key column) primaryColumn)
                       then lerp (get rowA (key column)) (get rowB (key column)) blend
                       else (get rowA (key column), []))
                    a) as Hquiet;
      destruct (fold_left f l a) as [row out] eqn:Efold
  end.
  simpl in *. rewrite Hquiet.
  - now rewrite app_nil_r.
  - intros c. destruct (isContinuous c && negb (key c =? primaryColumn)%string);
      [now apply lerp_quiet | reflexivity].
Qed.

Lemma length_omap_le {A B} (f : A -> option B) (l : list A) :
  length (omap f l) <= length l.
Proof.
  induction l as [| x l IH]; csimpl; [lia |].
  destruct (f x); simpl; lia.
Qed.

Lemma In_omap {A B} (f : A -> option B) (l : list A) (y : B) :
  In y (omap f l) -> exists x, In x l /\ f x = Some y.
Proof.
  induction l as [| x l IH]; csimpl; [intros [] |].
  destruct (f x) as [y' |] eqn:E.
  - intros [<- | Hy]; [exists x; split; [now left | exact E] |].
    destruct (IH Hy) as (x' & Hx' & E'). exists x'. split; [now right | exact E'].
  - intros Hy. destruct (IH Hy) as (x' & Hx' & E'). exists x'.
    split; [now right | exact E'].
Qed.

Lemma concat_snd {A B C} (f : A -> B * list C) (g : A -> list C) (l : list A) :
  (forall x, snd (f x) = g x) -> concat (map snd (map f l)) = flat_map g l.
Proof.
  intros Hfg. induction l as [| x l IH]; simpl; [reflexivity |].
  now rewrite IH, Hfg.
Qed.

(** The whole call, with the state it leaves. *)
Lemma frameAtIndexInterpolated_run (cd : t) (s : state)
    (frameColumn primaryColumn : string) (index : Q) :
  reachable cd s ->
  is_Some (OrderedMap_get (columns cd) frameColumn) ->
  is_Some (OrderedMap_get (columns cd) primaryColumn) ->
  frameColumn <> primaryColumn ->
  ~ (index == inject_Z (Qfloor index))%Q ->
  (0 <= index)%Q ->
  (index <= inject_Z (Z.of_nat (length (frames_of cd frameColumn)) - 1))%Q ->
  let a := Z.to_nat (Qfloor index) in
  let frameA := nth a (frames_of cd frameColumn) [] in
  let frameB := nth (a + 1) (frames_of cd frameColumn) [] in
  let r := frameAtIndexInterpolated cd frameColumn primaryColumn (Fin index) s in
  fst r
  = Normal
      (VChartData
         {| rows := interpolated_rows cd frameColumn primaryColumn index;
            columns :=
              _createColumns (as_definitions (columns cd))
                (interpolated_rows cd frameColumn primaryColumn index) |})
  /\ console (snd r)
     = console s
       ++ flat_map (fun primaryValue =>
                      duplicate_warning frameColumn primaryColumn frameA primaryValue
                      ++ duplicate_warning frameColumn primaryColumn frameB
                           primaryValue)
                   (unique_of cd primaryColumn).
Proof.
  intros Hreach Hf Hp Hne Hfrac Hlo Hhi a frameA frameB r.
  destruct (reachable_ok _ _ Hreach) as [[Hscalars Hcols] Hmemo].
  assert (Hnonneg : num_lt (Fin index) (Fin 0) = false).
  { simpl. now apply Qlt_bool_false. }
  unfold r, frameAtIndexInterpolated.
  rewrite (bind_run _ _ _ _ _ (_columnError_declared _ _ _ Hf)). cbv iota.
  rewrite (bind_run _ _ _ _ _ (_columnError_declared _ _ _ Hp)). cbv iota.
  rewrite (bind_run _ _ _ _ _ (_indexError_in_range _ None s Hnonneg I)). cbv iota.
  destruct (String.eqb frameColumn primaryColumn) eqn:E;
    [apply String.eqb_eq in E; contradiction |].
  rewrite (fractional_not_rounded _ Hfrac).
  destruct (makeFrames_declared cd frameColumn s Hmemo Hf) as [Hframes Hmemo1].
  pose proof (makeFrames_console cd frameColumn s Hf) as Hconsole1.
  destruct (makeFrames cd frameColumn s) as [r1 s1] eqn:Emake.
  simpl in Hframes, Hmemo1, Hconsole1. subst r1.
  rewrite (bind_run _ _ _ _ _ Emake). cbv iota.
  set (frames := frames_of cd frameColumn) in *.
  assert (Hinside :
            (negb (Z.of_nat (length frames) - 1 =? 0)%Z
             && num_gt (Fin index) (Fin (inject_Z (Z.of_nat (length frames) - 1))))
            = false).
  { unfold num_gt. simpl. rewrite (Qlt_bool_false _ _ Hhi). apply andb_false_r. }
  rewrite (bind_run _ _ _ _ _
             (_indexError_in_range _ (Some (Z.of_nat (length frames) - 1)%Z) s1
                Hnonneg Hinside)).
  cbv iota.
  destruct (getUniqueValues_declared cd primaryColumn s1 Hmemo1 Hp) as [Huniq _].
  pose proof (getUniqueValues_console cd primaryColumn s1 Hp) as Hconsole2.
  destruct (getUniqueValues cd primaryColumn s1) as [r2 s2] eqn:Euniq.
  simpl in Huniq, Hconsole2. subst r2.
  rewrite (bind_run _ _ _ _ _ Euniq). cbv iota.
  pose proof (floor_below _ Hfrac) as Hbelow.
  assert (Hz0 : (0 <= Qfloor index)%Z).
  { rewrite <- (Qfloor_Z 0). now apply Qfloor_resp_le. }
  assert (Hz1 : (Qfloor index + 1 <= Z.of_nat (length frames) - 1)%Z).
  { assert (Hlt : (Qfloor index < Z.of_nat (length frames) - 1)%Z).
    { rewrite Zlt_Qlt. eapply Qlt_le_trans; eassumption. }
    lia. }
  unfold Math_floor, Math_ceil. rewrite (ceiling_is_next _ Hfrac).
  rewrite (blend_exact _ Hlo).
  rewrite !List_get_nat by lia.
  destruct (nth_error frames (Z.to_nat (Qfloor index))) as [fa |] eqn:Ea;
    [| apply nth_error_None in Ea; lia].
  destruct (nth_error frames (Z.to_nat (Qfloor index + 1))) as [fb |] eqn:Eb;
    [| apply nth_error_None in Eb; lia].
  assert (EfA : frameA = fa).
  { unfold frameA, a. exact (nth_error_nth _ _ [] Ea). }
  assert (EfB : frameB = fb).
  { unfold frameB, a.
    replace (Z.to_nat (Qfloor index) + 1)%nat with (Z.to_nat (Qfloor index + 1)) by lia.
    exact (nth_error_nth _ _ [] Eb). }
  destruct (blend_inside _ Hfrac) as [Hb0 Hb1].
  unfold bind, tell, ret. cbv beta iota. cbn [fst snd console]. split.
  - assert (Hrows :
              _createRows
                (omap fst
                   (map (interpolate_row cd frameColumn primaryColumn
                           (groupBy (fun ii => get ii primaryColumn) fa)
                           (groupBy (fun ii => get ii primaryColumn) fb)
                           (Fin (index - inject_Z (Qfloor index))))
                        (unique_of cd primaryColumn)))
              = interpolated_rows cd frameColumn primaryColumn index).
    { unfold _createRows, interpolated_rows. fold frames.
      rewrite omap_map, map_omap.
      replace (Z.to_nat (Qfloor index) + 1)%nat
        with (Z.to_nat (Qfloor index + 1)) by lia.
      rewrite (nth_error_nth _ _ [] Ea), (nth_error_nth _ _ [] Eb).
      apply omap_pointwise. intros pv.
      apply (interpolate_row_sanitized cd frameColumn primaryColumn fa fb).
      - exact Hcols.
      - intros row k v Hrow Hk. apply (Hscalars row k v); [| exact Hk].
        apply (groupBy_In (fun ii => get ii frameColumn) (rows cd) fa row);
          [| exact Hrow].
        apply nth_error_In in Ea. exact Ea.
      - apply (blend_not_0 _ Hfrac).
      - apply (blend_not_1 _ Hfrac). }
    unfold constructor. cbv zeta. rewrite Hrows. reflexivity.
  - rewrite Hconsole2, Hconsole1. f_equal. rewrite EfA, EfB.
    apply concat_snd. intros pv.
    apply interpolate_row_console; [exact Hb0 | exact Hb1].
Qed.

(** X20.  Between two frames (two distinct declared columns, a
    fractional index within the frames of a reachable store),
    [frameAtIndexInterpolated] returns a store whose rows have a cell
    for every declared column and for nothing else, at most one row for
    each distinct primary value, and the columns of the store under the
    same keys.  It writes no error to the console: only, for each
    distinct primary value in turn, a warning for frame [a] and then one
    for frame [a + 1] when more than one row of that frame has this
    value. *)
Theorem interpolated_store_shape (cd : t) (s : state)
    (frameColumn primaryColumn : string) (index : Q) :
  reachable cd s ->
  is_Some (OrderedMap_get (columns cd) frameColumn) ->
  is_Some (OrderedMap_get (columns cd) primaryColumn) ->
  frameColumn <> primaryColumn ->
  ~ (index == inject_Z (Qfloor index))%Q ->
  (0 <= index)%Q ->
  (index <= inject_Z (Z.of_nat (length (frames_of cd frameColumn)) - 1))%Q ->
  let a := Z.to_nat (Qfloor index) in
  let frameA := nth a (frames_of cd frameColumn) [] in
  let frameB := nth (a + 1) (frames_of cd frameColumn) [] in
  let r := frameAtIndexInterpolated cd frameColumn primaryColumn (Fin index) s in
  exists store,
    result_of r = Normal (VChartData store)
    /\ (forall row k,
          In row (rows store) ->
          (is_Some (row !! k) <-> is_Some (OrderedMap_get (columns cd) k)))
    /\ length (rows store) <= length (unique_of cd primaryColumn)
    /\ map fst (columns store) = map fst (columns cd)
    /\ console (state_of r)
       = console s
         ++ flat_map (fun primaryValue =>
                        duplicate_warning frameColumn primaryColumn frameA
                          primaryValue
                        ++ duplicate_warning frameColumn primaryColumn frameB
                             primaryValue)
                     (unique_of cd primaryColumn)
    /\ (forall e, In e (console (state_of r)) -> In e (console s)
                  \/ exists m, e = console_warn m).
Proof.
  intros Hreach Hf Hp Hne Hfrac Hlo Hhi a frameA frameB r.
  destruct (frameAtIndexInterpolated_run cd s frameColumn primaryColumn index
              Hreach Hf Hp Hne Hfrac Hlo Hhi) as [Hresult Hconsole].
  fold a frameA frameB r in Hresult, Hconsole.
  destruct (reachable_ok _ _ Hreach) as [[_ Hwf] _].
  eexists. split; [exact Hresult |]. simpl.
  split; [| split; [| split; [| split; [exact Hconsole |]]]].
  - intros row k Hrow. unfold interpolated_rows in Hrow.
    apply In_omap in Hrow. destruct Hrow as (pv & _ & Hpv).
    destruct (first_match primaryColumn _ pv) as [rowA |]; [| discriminate].
    destruct (first_match primaryColumn _ pv) as [rowB |]; [| discriminate].
    injection Hpv as <-. rewrite interpolated_row_lookup.
    destruct (OrderedMap_get (columns cd) k); simpl; split; eauto;
      intros [x Hx]; discriminate.
  - unfold interpolated_rows. apply length_omap_le.
  - rewrite _createColumns_as_definitions by assumption. apply recolumn_keys.
  - intros e He. unfold state_of in He. rewrite Hconsole in He.
    apply in_app_or in He. destruct He as [He | He]; [now left | right].
    apply in_flat_map in He. destruct He as (pv & _ & He).
    unfold duplicate_warning in He. apply in_app_or in He.
    destruct He as [He | He];
      [destruct (List.filter _ frameA) as [| first [| second others]]
      | destruct (List.filter _ frameB) as [| first [| second others]]];
      try destruct He as [<- | []]; try destruct He; eauto.
Qed.

End InterpolatedShape.

Section InterpolatedShapeExamples.
Import JS ChartData.
Existing Instance ReferenceHost.host.

Lemma interpolated_store_shape_witness :
  exists store,
    result_of (frameAtIndexInterpolated price_data "day" "price" (Fin (1 # 2)) fresh)
    = Normal (VChartData store)
    /\ map fst (columns store) = ["day"; "price"; "amount"].
Proof.
  destruct (interpolated_store_shape price_data fresh "day" "price" (1 # 2))
    as (store & Hr & _ & _ & Hkeys & _).
  - apply reach_new.
  - vm_compute. eauto.
  - vm_compute. eauto.
  - discriminate.
  - intros E. vm_compute in E. discriminate E.
  - vm_compute. discriminate.
  - vm_compute. discriminate.
  - exists store. split; [exact Hr | exact Hkeys].
Defined.

End InterpolatedShapeExamples.

(** ** An undeclared column, on an example *)

Section UndeclaredExamples.
Import JS ChartData.
Existing Instance ReferenceHost.host.

Lemma undeclared_column_null_witness :
  getColumnData price_data "missing" fresh
  = (Normal null, say fresh [console_error (column_not_found "missing")])
  /\ frameAtIndex price_data "missing" (Fin 0) fresh
     = (Normal null, say fresh [console_error (column_not_found "missing")]).
Proof.
  destruct (undeclared_column_null price_data "missing" fresh)
    as (Hcells & _ & _ & Hframe & _).
  - reflexivity.
  - split; [exact Hcells | apply Hframe].
Defined.

End UndeclaredExamples.

(** * Further properties of the grouped-series builder *)

Section GroupKeys.
Import JS Series GroupedSeries.
Context `{Host}.

Lemma filter_all {X} (P : X -> bool) (l : list X) :
  (forall x, In x l -> P x = true) -> List.filter P l = l.
Proof.
  induction l as [| x l IH]; simpl; [reflexivity |].
  intros Hall. rewrite (Hall x) by now left.
  f_equal. apply IH. intros y Hy. apply Hall. now right.
Qed.

Lemma filter_none {X} (P : X -> bool) (l : list X) :
  (forall x, In x l -> P x = false) -> List.filter P l = [].
Proof.
  induction l as [| x l IH]; simpl; [reflexivity |].
  intros Hall. rewrite (Hall x) by now left.
  apply IH. intros y Hy. apply Hall. now right.
Qed.

(** Without keys that are array indices, [Object.entries] follows the
    order of creation. *)
Lemma Object_entries_no_index {V} (o : list (string * V)) :
  (forall kv, In kv o -> array_index (fst kv) = None) -> Object_entries o = o.
Proof.
  intros Hnone. unfold Object_entries.
  rewrite filter_none, filter_all.
  - reflexivity.
  - intros kv Hkv. now rewrite (Hnone kv Hkv).
  - intros kv Hkv. now rewrite (Hnone kv Hkv).
Qed.

(** X15.  The builder throws its message when the pointKey is among the
    group keys.  Otherwise, for key names that [Object.prototype] does
    not define, it throws a [TypeError] when the group key of some record
    is the name of a member of [Object.prototype], and only then; and
    when it does not throw, the series has the keys and the data of the
    configuration, no preprocessing flags, and one group for each
    distinct group key of the data (the strings of a record's groupKey
    values, concatenated): the group built from the records with that
    key.  When no group key is an array index, the groups come in the
    order in which their keys first appear in the data. *)
Theorem one_group_per_key (config : GroupedSeriesConfig) :
  let pointKey := cfg_pointKey config in
  let groupKey := concat_groupKey (cfg_groupKey config) in
  let pointSort := default (default_pointSort pointKey) (cfg_pointSort config) in
  let defaultPoint := default ∅ (cfg_defaultPoint config) in
  let data := cfg_data config in
  (In pointKey groupKey ->
   constructor config = inl (thrown "pointKey cannot be used as a groupKey."))
  /\ (~ In pointKey groupKey -> plain_keys pointKey groupKey = true ->
      existsb (clashes groupKey) data = true ->
      constructor config = inl TypeError)
  /\ (~ In pointKey groupKey -> plain_keys pointKey groupKey = true ->
      existsb (clashes groupKey) data = false ->
      exists series keys,
        constructor config = inr series
        /\ Series.pointKey series = pointKey
        /\ Series.groupKey series = groupKey
        /\ rawData series = data
        /\ preprocess series = ∅
        /\ NoDup keys
        /\ (forall k, In k keys
                      <-> exists item, In item data /\ group_key groupKey item = k)
        /\ groups series
           = map (fun k =>
                    make_group groupKey pointKey pointSort defaultPoint
                      (make_baseGroup pointKey data) (records_of groupKey k data))
                 keys
        /\ ((forall k, In k keys -> array_index k = None) ->
            keys = first_appearances (map (group_key groupKey) data))).
Proof.
  intros pointKey groupKey pointSort defaultPoint data.
  assert (Hexists : ~ In pointKey groupKey ->
                    existsb (String.eqb pointKey) groupKey = false).
  { intros Hout. destruct (existsb (String.eqb pointKey) groupKey) eqn:E; [| reflexivity].
    apply existsb_eqb_In in E. contradiction. }
  split; [| split].
  - intros Hin. unfold constructor. fold pointKey groupKey.
    apply existsb_eqb_In in Hin. now rewrite Hin.
  - intros Hout _ Hclash. unfold constructor. fold pointKey groupKey data.
    now rewrite (Hexists Hout), (make_groupedItems_TypeError _ _ Hclash).
  - intros Hout _ Hplain.
    destruct (make_groupedItems_spec groupKey data Hplain) as (rr & Hrr & Hkeys & Hitems).
    pose proof (Object_entries_Permutation rr) as Hperm.
    eexists. exists (map fst (Object_entries rr)).
    split; [unfold constructor; fold pointKey groupKey data;
            rewrite (Hexists Hout), Hrr; reflexivity |].
    simpl. repeat (split; [reflexivity |]).
    split; [| split; [| split]].
    + apply NoDup_ListNoDup.
      apply (Permutation_NoDup (Permutation_map fst (Permutation_sym Hperm))).
      rewrite Hkeys. apply NoDup_ListNoDup, first_appearances_NoDup.
    + intros k. split.
      * intros Hk.
        apply (Permutation_in _ (Permutation_map fst Hperm)) in Hk.
        rewrite Hkeys in Hk. apply first_appearances_In, in_map_iff in Hk.
        destruct Hk as (item & Hk & Hitem). now exists item.
      * intros (item & Hitem & <-).
        apply (Permutation_in _ (Permutation_map fst (Permutation_sym Hperm))).
        rewrite Hkeys. apply first_appearances_In, in_map_iff. now exists item.
    + rewrite map_map. apply map_ext_in. intros [k items] Hin. simpl.
      apply (Permutation_in _ Hperm) in Hin.
      now destruct (Hitems _ _ Hin) as [-> _].
    + intros Hnone. rewrite Object_entries_no_index; [exact Hkeys |].
      intros kv Hkv. apply Hnone.
      apply (Permutation_in _ (Permutation_map fst (Permutation_sym Hperm))).
      apply in_map_iff. now exists kv.
Qed.

End GroupKeys.

Section GroupKeysExamples.
Import JS Series GroupedSeries.
Existing Instance ReferenceHost.host.

Lemma one_group_per_key_witness :
  constructor inherited_config = inl TypeError
  /\ exists series,
       constructor sparse_config = inr series /\ rawData series = sparse_data.
Proof.
  split.
  - destruct (one_group_per_key inherited_config) as (_ & Hthrows & _).
    apply Hthrows; [| reflexivity | reflexivity].
    simpl. intros [E | []]. discriminate E.
  - destruct (one_group_per_key sparse_config) as (_ & _ & Hbuilt).
    destruct Hbuilt as (series & keys & Hc & _ & _ & Hraw & _).
    + simpl. intros [E | []]. discriminate E.
    + reflexivity.
    + reflexivity.
    + exists series. split; [exact Hc | exact Hraw].
Defined.

(** Keys that appear as [foo], [bar], [foo] first appear as [foo],
    [bar]; so do the group keys of the repository's test, and its groups
    come in that order. *)
Lemma sparse_group_order :
  first_appearances ["foo"; "bar"; "foo"] = ["foo"; "bar"]
  /\ first_appearances (map (group_key ["type"]) sparse_data) = ["foo"; "bar"]
  /\ (exists series,
        constructor sparse_config = inr series
        /\ map (fun group => (fun point => prop point "type") <$> head group)
               (groups series)
           = [Some (JStr "foo"); Some (JStr "bar")]).
Proof.
  split; [vm_compute; exact eq_refl |]. split; [vm_compute; exact eq_refl |].
  eexists. split; [vm_compute; exact eq_refl | vm_compute; exact eq_refl].
Qed.

End GroupKeysExamples.

(** ** Groups in ascending order *)

Section SortedGroups.
Import JS Series GroupedSeries.
Context `{Host}.

Lemma default_pointSort_before (pointKey : string) (a b : Point) (qa qb : Q) :
  a !! pointKey = Some (JNum (Fin qa)) -> b !! pointKey = Some (JNum (Fin qb)) ->
  before (default_pointSort pointKey) a b <-> (qa < qb)%Q.
Proof.
  intros Ha Hb. unfold before, default_pointSort, prop. rewrite Ha, Hb. simpl.
  unfold js_gt, js_lt, num_gt. simpl.
  destruct (Qlt_bool qb qa) eqn:Egt.
  - apply Qlt_bool_iff in Egt. split; [discriminate |].
    intros Hlt. exfalso. apply (Qlt_irrefl qa). now apply (Qlt_trans _ qb).
  - destruct (Qlt_bool qa qb) eqn:Elt.
    + apply Qlt_bool_iff in Elt. split; [trivial | reflexivity].
    + split; [discriminate |]. intros Hlt. apply Qlt_bool_iff in Hlt. congruence.
Qed.

Lemma default_pointSort_after (pointKey : string) (a b : Point) (qa qb : Q) :
  a !! pointKey = Some (JNum (Fin qa)) -> b !! pointKey = Some (JNum (Fin qb)) ->
  after (default_pointSort pointKey) a b <-> (qb < qa)%Q.
Proof.
  intros Ha Hb. unfold after, default_pointSort, prop. rewrite Ha, Hb. simpl.
  unfold js_gt, js_lt, num_gt. simpl.
  destruct (Qlt_bool qb qa) eqn:Egt.
  - apply Qlt_bool_iff in Egt. split; [trivial | reflexivity].
  - assert (Hnot : ~ (qb < qa)%Q).
    { intros Hlt. apply Qlt_bool_iff in Hlt. congruence. }
    destruct (Qlt_bool qa qb); simpl; split; try discriminate; contradiction.
Qed.

(** On points with a finite number under the pointKey the default
    comparator is consistent: it compares the numbers. *)
Lemma default_pointSort_consistent (pointKey : string) :
  consistent (default_pointSort pointKey) (numbered pointKey).
Proof.
  unfold consistent, tied.
  split; [| split; [| split; [| split]]].
  - intros a [qa Ha].
    rewrite (default_pointSort_before _ _ _ _ _ Ha Ha),
            (default_pointSort_after _ _ _ _ _ Ha Ha).
    split; apply Qlt_irrefl.
  - intros a b [qa Ha] [qb Hb].
    rewrite (default_pointSort_before _ _ _ _ _ Ha Hb),
            (default_pointSort_after _ _ _ _ _ Ha Hb),
            (default_pointSort_before _ _ _ _ _ Hb Ha),
            (default_pointSort_after _ _ _ _ _ Hb Ha).
    tauto.
  - intros a b c [qa Ha] [qb Hb] [qc Hc].
    rewrite (default_pointSort_before _ _ _ _ _ Ha Hb),
            (default_pointSort_after _ _ _ _ _ Ha Hb),
            (default_pointSort_before _ _ _ _ _ Hb Hc),
            (default_pointSort_after _ _ _ _ _ Hb Hc),
            (default_pointSort_before _ _ _ _ _ Ha Hc),
            (default_pointSort_after _ _ _ _ _ Ha Hc).
    intros [H1 H2] [H3 H4].
    apply Qnot_lt_le in H1, H2, H3, H4. split; apply Qle_not_lt; lra.
  - intros a b c [qa Ha] [qb Hb] [qc Hc].
    rewrite (default_pointSort_before _ _ _ _ _ Ha Hb),
            (default_pointSort_before _ _ _ _ _ Hb Hc),
            (default_pointSort_before _ _ _ _ _ Ha Hc).
    apply Qlt_trans.
  - intros a b c [qa Ha] [qb Hb] [qc Hc].
    rewrite (default_pointSort_after _ _ _ _ _ Ha Hb),
            (default_pointSort_after _ _ _ _ _ Hb Hc),
            (default_pointSort_after _ _ _ _ _ Ha Hc).
    intros H1 H2. now apply (Qlt_trans _ qb).
Qed.

Lemma StronglySorted_on {X} (R R' : X -> X -> Prop) (Q : X -> Prop) (l : list X) :
  (forall a b, Q a -> Q b -> R a b -> R' a b) ->
  List.Forall Q l -> StronglySorted R l -> StronglySorted R' l.
Proof.
  intros Himpl HQ. induction 1 as [| x l Hl IH Hx]; [constructor |].
  inversion HQ as [| ? ? Qx Ql]; subst. constructor; [now apply IH |].
  rewrite List.Forall_forall in Hx, Ql |- *. intros y Hy.
  apply Himpl; [exact Qx | now apply Ql | now apply Hx].
Qed.

Lemma point_at_numbered (groupKey : list string) (pointKey : string)
    (defaultPoint : Point) (data items : list Point) (entry : string * Point) :
  (forall item, In item data -> numbered pointKey item) ->
  (forall item, In item items -> In item data) ->
  In entry (make_baseGroup pointKey data) ->
  numbered pointKey (point_at groupKey pointKey defaultPoint items entry).
Proof.
  intros Hdata Hsub Hentry. unfold point_at.
  destruct (last_at pointKey (fst entry) items) as [item |] eqn:Elast.
  - unfold last_at in Elast. apply find_some in Elast. destruct Elast as [Hitem _].
    apply in_rev in Hitem. destruct (Hdata item (Hsub item Hitem)) as [q Hq].
    exists q. unfold spread. now apply lookup_union_Some_l.
  - destruct entry as [s value].
    destruct (make_baseGroup_spec pointKey data) as (_ & _ & Hvalues).
    destruct (Hvalues s value Hentry) as (item & Hitem & _ & ->).
    destruct (Hdata item Hitem) as [q Hq]. exists q. simpl.
    unfold spread. apply lookup_union_Some_l.
    unfold prop. rewrite Hq. apply lookup_singleton_eq.
Qed.

(** X16.  With the default comparator, for key names that
    [Object.prototype] does not define and records whose group key is no
    such name, when every record has a finite number under the pointKey,
    every group of the series built is in ascending order of that
    number. *)
Theorem default_sort_ascending (config : GroupedSeriesConfig) :
  let pointKey := cfg_pointKey config in
  let groupKey := concat_groupKey (cfg_groupKey config) in
  cfg_pointSort config = None ->
  ~ In pointKey groupKey ->
  plain_keys pointKey groupKey = true ->
  existsb (clashes groupKey) (cfg_data config) = false ->
  (forall item, In item (cfg_data config) -> numbered pointKey item) ->
  exists series,
    constructor config = inr series
    /\ List.Forall (fun group => List.Forall (numbered pointKey) group
                                 /\ StronglySorted (ascending pointKey) group)
                   (groups series).
Proof.
  intros pointKey groupKey Hsort Hpk _ Hplain Hdata.
  destruct (constructor_groups config Hpk Hplain) as (rr & _ & _ & Hbuilt & _).
  eexists. split; [exact Hbuilt |].
  simpl. rewrite Hsort. simpl. fold pointKey groupKey.
  apply List.Forall_forall. intros group Hgroup.
  apply in_map_iff in Hgroup. destruct Hgroup as (key & <- & _).
  set (points := map _ (make_baseGroup pointKey (cfg_data config))).
  assert (Hpoints : forall point, In point points -> numbered pointKey point).
  { intros p Hp. unfold points in Hp.
    apply in_map_iff in Hp. destruct Hp as (entry & <- & Hin).
    apply (point_at_numbered groupKey pointKey _ (cfg_data config)); try assumption.
    intros item Hitem. apply filter_In in Hitem. tauto. }
  pose proof (Array_sort_Permutation _ (default_pointSort pointKey) points) as Hperm.
  assert (Hnum : List.Forall (numbered pointKey)
                   (Array_sort (default_pointSort pointKey) points)).
  { apply List.Forall_forall. intros p Hp. apply Hpoints.
    exact (Permutation_in _ Hperm Hp). }
  assert (Hord : in_order (default_pointSort pointKey)
                   (Array_sort (default_pointSort pointKey) points)).
  { apply Array_sort_in_order.
    exact (consistent_among _ _ _ Hpoints (default_pointSort_consistent pointKey)). }
  split; [exact Hnum |].
  apply (StronglySorted_on
           (fun a b => ~ before (default_pointSort pointKey) b a) _
           (numbered pointKey));
    [| exact Hnum | exact Hord].
  intros a b [qa Ha] [qb Hb] Hnot. exists qa, qb.
  split; [exact Ha |]. split; [exact Hb |].
  apply Qnot_lt_le. intros Hlt. apply Hnot.
  now apply (default_pointSort_before _ _ _ _ _ Hb Ha).
Qed.

End SortedGroups.

Section SortedGroupsExamples.
Import JS Series GroupedSeries.
Existing Instance ReferenceHost.host.

Lemma default_sort_ascending_witness :
  exists series,
    constructor sparse_config = inr series
    /\ List.Forall (fun group => StronglySorted (ascending "x") group) (groups series).
Proof.
  destruct (default_sort_ascending sparse_config) as (series & Hc & Hgroups).
  - reflexivity.
  - simpl. intros [E | []]. discriminate E.
  - reflexivity.
  - reflexivity.
  - intros item Hitem. simpl in Hitem.
    destruct Hitem as [<- | [<- | [<- | [<- | []]]]]; eexists; reflexivity.
  - exists series. split; [exact Hc |].
    eapply List.Forall_impl; [| exact Hgroups]. intros group [_ Hsorted]. exact Hsorted.
Defined.

End SortedGroupsExamples.

(** * Further properties of the percentage step *)

Section NormalizeSlice.
Import JS Series Process.
Context `{Host}.



End NormalizeSlice.

Section NormalizeSliceExamples.
Import JS Series Process.
Existing Instance ReferenceHost.host.


End NormalizeSliceExamples.
